(** * BirdWar: grid manager, path finder, weapon controller and projectile

    A shallow embedding of the simulation core of the game scripts:

    - [GridManager]   (GridManager class, file EventManagerExample.ts):
      the cell lattice, the coordinate transforms, occupancy and cell-type
      mutation, the neighbour query and [findPath];
    - [WeaponType]    (WeaponType.ts): the weapon catalogue;
    - [Bullet]        (Bullet.ts): hit bookkeeping of one projectile;
    - [WeaponsSystem] (WeaponsSystem.ts): energy, cooldown and the pools;
    - [EventManager]  (EventManager.ts): listeners, click handlers, emission;
    - [Logger]        (the Logger class): level and module filters, history;
    - [ActorController] (the ActorController class): health and death;
    - [LevelManager]  (the LevelManager class): validation of a level and
      its application to the grid.

    Conventions.  A TypeScript [number] that is used as an index or a counter
    (rows, cols, row, col, hit counts, penetration) is a [Z].  A [number]
    that carries a measure is a binary64 value: a configured or measured
    quantity (cell sizes, damage, energy, the clock) is held as the rational
    [Q] it denotes, and wherever the code decides on the result of an
    arithmetic operation (the coordinate transforms, the fire interval, the
    cool-down, the lifetime of a bullet, the step of a bullet) the operation
    is that of [Double]: its operands are read as the binary64 values
    nearest to them (a literal such as 0.2 stands for its double) and its
    exact result is rounded to binary64, with the infinities and NaN.
    Energy and health, of which the code takes sums, differences and a
    minimum or maximum within bounds, are computed exactly.
    Objects mutated in place are passed and returned explicitly.  Events
    handed to the event manager are collected in a list, in emission order. *)

From Stdlib Require Import ZArith QArith Qround Qminmax Qabs Qpower Qreduction.
From Stdlib Require Import Lia Lqa.
From Stdlib Require Floats.
From stdpp Require Import base option list gmap strings pretty.

Open Scope Z_scope.

(** ** Numbers

    The arithmetic of a JS number (IEEE 754 binary64, rounding to nearest,
    ties to even).  A finite number is the rational it denotes; the sign of
    a zero is not represented (it shows only in a division by zero, where
    the zero is taken to be +0). *)

Module Double.

(** A number is finite, with the rational it denotes, or one of the two
    infinities, or NaN.  The sign of a zero is not represented. *)
Inductive number := Num (q : Q) | PosInfinity | NegInfinity | NaN.

Definition pow2 (e : Z) : Q := Qpower 2 e.

(** The binary exponent of a positive rational: 2^e <= a < 2^(e+1). *)
Definition ilog2 (a : Q) : Z :=
  let e0 := Z.log2 (Qnum a) - Z.log2 (Zpos (Qden a)) in
  if Qle_bool (pow2 e0) a then e0 else e0 - 1.

(** The integer nearest to [a], the even one of the two on a tie. *)
Definition nearestEven (a : Q) : Z :=
  let f := Qfloor a in
  match (a - inject_Z f ?= 1 # 2)%Q with
  | Lt => f
  | Gt => f + 1
  | Eq => if Z.even f then f else f + 1
  end.

(** Rounding to binary64, to nearest with ties to even: a mantissa of 53
    bits down to the exponent -1074 of the subnormal numbers, and an
    infinity from 2^1024 on. *)
Definition round (q : Q) : number :=
  let q := Qred q in
  if Qeq_bool q 0 then Num 0
  else
    let a := Qabs q in
    let k := Z.max (ilog2 a - 52) (-1074) in
    let r := (inject_Z (nearestEven (a / pow2 k)) * pow2 k)%Q in
    if Qle_bool (pow2 1024) r
    then if 0 <? Qnum q then PosInfinity else NegInfinity
    else Num (Qred (if 0 <? Qnum q then r else - r)).

(** A quantity read as a number: the binary64 value nearest to it, which
    is the quantity itself when it is a binary64 value.  A literal of the
    source such as 0.2 is read in this way. *)
Definition ofQ (q : Q) : number := round q.

Definition ofZ (z : Z) : number := round (inject_Z z).

Definition opp (a : number) : number :=
  match a with
  | Num q => Num (- q)
  | PosInfinity => NegInfinity
  | NegInfinity => PosInfinity
  | NaN => NaN
  end.

Definition add (a b : number) : number :=
  match a, b with
  | NaN, _ | _, NaN => NaN
  | PosInfinity, NegInfinity | NegInfinity, PosInfinity => NaN
  | PosInfinity, _ | _, PosInfinity => PosInfinity
  | NegInfinity, _ | _, NegInfinity => NegInfinity
  | Num p, Num q => round (p + q)
  end.

Definition sub (a b : number) : number := add a (opp b).

(** The sign of a finite number: -1, 0 or 1. *)
Definition sign (q : Q) : Z := Z.sgn (Qnum q).

Definition signed (s : Z) : number :=
  match s with
  | Z0 => NaN
  | Zpos _ => PosInfinity
  | Zneg _ => NegInfinity
  end.

Definition mul (a b : number) : number :=
  match a, b with
  | NaN, _ | _, NaN => NaN
  | Num p, Num q => round (p * q)
  | Num p, PosInfinity | PosInfinity, Num p => signed (sign p)
  | Num p, NegInfinity | NegInfinity, Num p => signed (- sign p)
  | PosInfinity, PosInfinity | NegInfinity, NegInfinity => PosInfinity
  | PosInfinity, NegInfinity | NegInfinity, PosInfinity => NegInfinity
  end.

Definition div (a b : number) : number :=
  match a, b with
  | NaN, _ | _, NaN => NaN
  | Num p, Num q =>
    if Qeq_bool q 0 then signed (sign p) else round (p / q)
  | Num _, _ => Num 0
  | PosInfinity, Num q => if sign q <? 0 then NegInfinity else PosInfinity
  | NegInfinity, Num q => if sign q <? 0 then PosInfinity else NegInfinity
  | _, _ => NaN
  end.

Definition lt (a b : number) : bool :=
  match a, b with
  | NaN, _ | _, NaN => false
  | Num p, Num q => negb (Qle_bool q p)
  | _, NegInfinity => false
  | NegInfinity, _ => true
  | PosInfinity, _ => false
  | _, PosInfinity => true
  end.

Definition floor (a : number) : number :=
  match a with
  | Num q => Num (inject_Z (Qfloor q))
  | _ => a
  end.

(** The index a finite number stands for, once floored. *)
Definition toIndex (a : number) : option Z :=
  match a with
  | Num q => Some (Qfloor q)
  | _ => None
  end.

End Double.

Coercion Double.ofQ : Q >-> Double.number.
Coercion Double.ofZ : Z >-> Double.number.

Declare Scope number_scope.
Delimit Scope number_scope with number.
Bind Scope number_scope with Double.number.
Infix "+" := Double.add : number_scope.
Infix "-" := Double.sub : number_scope.
Infix "*" := Double.mul : number_scope.
Infix "/" := Double.div : number_scope.
Infix "<?" := Double.lt : number_scope.


(** ** Grid manager *)

Module GridManager.

(** A scene node is an opaque handle owned by the engine. *)
Definition Node := positive.

(** A position.  Its coordinates are results of arithmetic. *)
Record Vec3 := mkVec3 {
  x : Double.number;
  y : Double.number;
  z : Double.number
}.

Record Color := mkColor { r : Z; g : Z; b : Z; a : Z }.

Record GridCoordinate := mkCoord { row : Z; col : Z }.

Inductive GridCellType :=
| EMPTY | PLANT_ZONE | PATH | SPAWN | GOAL | OBSTACLE | SPECIAL.

Record GridCell := mkCell {
  coordinate : GridCoordinate;
  worldPosition : Vec3;
  localPosition : Vec3;
  occupied : bool;
  occupant : option Node;
  cellType : GridCellType;
  walkable : bool;
  buildable : bool;
  data : list (string * string)
}.

(** The component: its inspector properties and the private lattice.
    [gridContainer] stands for the UITransform of the container node when
    there is one (its convertToNodeSpaceAR); the drawing nodes and the
    highlighted / selected coordinates are display state and are left out. *)
Record GridManager := mkGrid {
  rows : Z;
  cols : Z;
  cellWidth : Q;
  cellHeight : Q;
  startPosition : Vec3;
  showGrid : bool;
  gridColor : Color;
  highlightColor : Color;
  gridContainer : option (Vec3 -> Vec3);
  _grid : list (list GridCell)
}.

(** Partial<GridConfig>: every field may be absent. *)
Record GridConfig := mkConfig {
  cfg_rows : option Z;
  cfg_cols : option Z;
  cfg_cellWidth : option Q;
  cfg_cellHeight : option Q;
  cfg_startPosition : option Vec3;
  cfg_showGrid : option bool;
  cfg_gridColor : option Color;
  cfg_highlightColor : option Color
}.

Inductive GridEvent :=
| GridCellOccupied (coordinate : GridCoordinate) (occupied : bool)
    (occupant : option Node)
| GridCellTypeChanged (coordinate : GridCoordinate) (cellType : GridCellType).

(** A value of [cell && ...]: null when the cell is null, a boolean otherwise. *)
Inductive Truthy := JsNull | JsBool (b : bool).

Definition isTrue (v : Truthy) : bool :=
  match v with JsBool true => true | _ => false end.

Definition with_grid (gm : GridManager) (cells : list (list GridCell))
  : GridManager :=
  mkGrid (rows gm) (cols gm) (cellWidth gm) (cellHeight gm) (startPosition gm)
    (showGrid gm) (gridColor gm) (highlightColor gm) (gridContainer gm) cells.

(** *** Coordinate transforms *)

Definition gridToWorldPosition (gm : GridManager) (row col : Z) : Vec3 :=
  let x := (x (startPosition gm) + col * cellWidth gm
            + cellWidth gm / 2)%number in
  let y := (y (startPosition gm) - row * cellHeight gm
            - cellHeight gm / 2)%number in
  mkVec3 x y (z (startPosition gm)).

Definition isValidCoordinate (gm : GridManager) (row col : Z) : bool :=
  (0 <=? row) && (row <? rows gm) && (0 <=? col) && (col <? cols gm).

(** A row or column that is an infinity or NaN fails a comparison of
    isValidCoordinate, and so the check. *)
Definition worldToGridPosition (gm : GridManager) (worldPos : Vec3)
  : option GridCoordinate :=
  let relativeX := (x worldPos - x (startPosition gm))%number in
  let relativeY := (y (startPosition gm) - y worldPos)%number in
  let col := Double.floor (relativeX / cellWidth gm)%number in
  let row := Double.floor (relativeY / cellHeight gm)%number in
  match Double.toIndex row, Double.toIndex col with
  | Some row, Some col =>
    if isValidCoordinate gm row col then Some (mkCoord row col) else None
  | _, _ => None
  end.

Definition worldToLocalPosition (gm : GridManager) (worldPos : Vec3) : Vec3 :=
  match gridContainer gm with
  | Some convertToNodeSpaceAR => convertToNodeSpaceAR worldPos
  | None => worldPos
  end.

(** *** Building the lattice *)

Definition determineCellType (gm : GridManager) (row col : Z) : GridCellType :=
  if col =? cols gm - 1 then SPAWN
  else if col =? 0 then GOAL
  else if (1 <=? col) && (col <=? cols gm - 2) then PLANT_ZONE
  else EMPTY.

Definition with_flags (cell : GridCell) (w b : bool) : GridCell :=
  mkCell (coordinate cell) (worldPosition cell) (localPosition cell)
    (occupied cell) (occupant cell) (cellType cell) w b (data cell).

Definition configureCellByType (cell : GridCell) : GridCell :=
  match cellType cell with
  | SPAWN => with_flags cell true false
  | GOAL => with_flags cell true false
  | PLANT_ZONE => with_flags cell false true
  | PATH => with_flags cell true false
  | OBSTACLE => with_flags cell false false
  | _ => with_flags cell true true
  end.

Definition createGridCell (gm : GridManager) (row col : Z) : GridCell :=
  let worldPos := gridToWorldPosition gm row col in
  let localPos := worldToLocalPosition gm worldPos in
  configureCellByType
    (mkCell (mkCoord row col) worldPos localPos false None
       (determineCellType gm row col) true true []).

(** The two nested loops [for row < rows], [for col < cols]. *)
Definition initializeGrid (gm : GridManager) : GridManager :=
  with_grid gm
    (map (fun row => map (fun col => createGridCell gm row col)
                       (seqZ 0 (cols gm)))
       (seqZ 0 (rows gm))).

(** *** Cell access and mutation *)

(** [this._grid[row][col]].  On a lattice that matches rows x cols (see
    [GridProps.wellFormed]) the access succeeds for every valid coordinate;
    a failed access is rendered as no cell. *)
Definition cellAt (cells : list (list GridCell)) (row col : Z)
  : option GridCell :=
  cells !! Z.to_nat row ≫= fun line => line !! Z.to_nat col.

Definition getCell (gm : GridManager) (row col : Z) : option GridCell :=
  if negb (isValidCoordinate gm row col) then None
  else cellAt (_grid gm) row col.

Definition getCellByCoordinate (gm : GridManager) (coord : GridCoordinate)
  : option GridCell :=
  getCell gm (row coord) (col coord).

(** The cell object at (row, col) is mutated in place by [f]. *)
Definition updateCell (gm : GridManager) (row col : Z)
  (f : GridCell -> GridCell) : GridManager :=
  with_grid gm (alter (alter f (Z.to_nat col)) (Z.to_nat row) (_grid gm)).

Definition with_occupant (cell : GridCell) (o : option Node) : GridCell :=
  mkCell (coordinate cell) (worldPosition cell) (localPosition cell)
    (bool_decide (o <> None)) o (cellType cell) (walkable cell)
    (buildable cell) (data cell).

Definition with_cellType (cell : GridCell) (t : GridCellType) : GridCell :=
  mkCell (coordinate cell) (worldPosition cell) (localPosition cell)
    (occupied cell) (occupant cell) t (walkable cell) (buildable cell)
    (data cell).

(** Result of a mutator: return value, component afterwards, events emitted. *)
Definition Outcome : Type := bool * GridManager * list GridEvent.

Definition setCellOccupied (gm : GridManager) (row col : Z)
  (occupant : option Node) : Outcome :=
  match getCell gm row col with
  | None => (false, gm, [])
  | Some cell =>
    if bool_decide (occupant <> None) && occupied cell then (false, gm, [])
    else if bool_decide (occupant <> None) && negb (buildable cell)
    then (false, gm, [])
    else
      (true,
       updateCell gm row col (fun cell => with_occupant cell occupant),
       [GridCellOccupied (mkCoord row col) (bool_decide (occupant <> None))
          occupant])
  end.

Definition clearCell (gm : GridManager) (row col : Z) : Outcome :=
  setCellOccupied gm row col None.

Definition canPlaceAt (gm : GridManager) (row col : Z) : Truthy :=
  match getCell gm row col with
  | None => JsNull
  | Some cell => JsBool (negb (occupied cell) && buildable cell)
  end.

Definition canWalkAt (gm : GridManager) (row col : Z) : Truthy :=
  match getCell gm row col with
  | None => JsNull
  | Some cell => JsBool (walkable cell && negb (occupied cell))
  end.

Definition setCellType (gm : GridManager) (row col : Z)
  (cellType : GridCellType) : Outcome :=
  match getCell gm row col with
  | None => (false, gm, [])
  | Some _ =>
    (true,
     updateCell gm row col
       (fun cell => configureCellByType (with_cellType cell cellType)),
     [GridCellTypeChanged (mkCoord row col) cellType])
  end.

(** *** Neighbour query *)

Definition directions (includeDiagonal : bool) : list (Z * Z) :=
  if includeDiagonal
  then [(-1,-1); (-1,0); (-1,1); (0,-1); (0,1); (1,-1); (1,0); (1,1)]
  else [(-1,0); (0,-1); (0,1); (1,0)].

Definition getNeighborCells (gm : GridManager) (row col : Z)
  (includeDiagonal : bool) : list GridCell :=
  omap (fun '(dr, dc) => getCell gm (row + dr) (col + dc))
    (directions includeDiagonal).

(** *** Reconfiguration *)

Definition reconfigureGrid (gm : GridManager) (config : GridConfig)
  : GridManager :=
  initializeGrid
    (mkGrid
       (default (rows gm) (cfg_rows config))
       (default (cols gm) (cfg_cols config))
       (default (cellWidth gm) (cfg_cellWidth config))
       (default (cellHeight gm) (cfg_cellHeight config))
       (default (startPosition gm) (cfg_startPosition config))
       (default (showGrid gm) (cfg_showGrid config))
       (default (gridColor gm) (cfg_gridColor config))
       (default (highlightColor gm) (cfg_highlightColor config))
       (gridContainer gm)
       (_grid gm)).

(** *** Path search

    Scores are JavaScript numbers that are either a finite count or
    [Infinity].  [v || Infinity] replaces every falsy [v] by [Infinity]:
    a missing map entry ([undefined]) and also the number 0. *)

Inductive Score := Finite (n : Z) | Infinity.

Definition orInfinity (v : option Score) : Score :=
  match v with
  | None => Infinity
  | Some (Finite 0) => Infinity
  | Some s => s
  end.

Definition score_add (s : Score) (n : Z) : Score :=
  match s with Finite m => Finite (m + n) | Infinity => Infinity end.

Definition score_lt (s t : Score) : bool :=
  match s, t with
  | Finite m, Finite n => m <? n
  | Finite _, Infinity => true
  | Infinity, _ => false
  end.

(** The template string of getKey: row, a comma, col, in decimal. *)
Definition getKey (coord : GridCoordinate) : string :=
  pretty (row coord) +:+ "," +:+ pretty (col coord).

Definition heuristic (a b : GridCoordinate) : Z :=
  Z.abs (row a - row b) + Z.abs (col a - col b).

Definition sameCoordinate (a b : GridCoordinate) : bool :=
  (row a =? row b) && (col a =? col b).

Record Search := mkSearch {
  openSet : list GridCoordinate;
  cameFrom : gmap string GridCoordinate;
  gScore : gmap string Score;
  fScore : gmap string Score
}.

(** The scan for the open node of least fScore: [i] runs over the indices
    after the first, [current] / [currentIndex] hold the best so far. *)
Fixpoint scanOpenSet (fScore : gmap string Score) (rest : list GridCoordinate)
  (i : nat) (current : GridCoordinate) (currentIndex : nat)
  : GridCoordinate * nat :=
  match rest with
  | [] => (current, currentIndex)
  | candidate :: rest' =>
    if score_lt (orInfinity (fScore !! getKey candidate))
         (orInfinity (fScore !! getKey current))
    then scanOpenSet fScore rest' (S i) candidate i
    else scanOpenSet fScore rest' (S i) current currentIndex
  end.

(** One turn of the loop over the neighbours of [current]. *)
Definition relaxNeighbor (current end_ : GridCoordinate) (st : Search)
  (neighborCell : GridCell) : Search :=
  if negb (walkable neighborCell) then st
  else
    let neighbor := coordinate neighborCell in
    let tentativeGScore :=
      score_add (orInfinity (gScore st !! getKey current)) 1 in
    if score_lt tentativeGScore (orInfinity (gScore st !! getKey neighbor))
    then
      mkSearch
        (if existsb (sameCoordinate neighbor) (openSet st)
         then openSet st else openSet st ++ [neighbor])
        (<[getKey neighbor := current]> (cameFrom st))
        (<[getKey neighbor := tentativeGScore]> (gScore st))
        (<[getKey neighbor :=
             score_add tentativeGScore (heuristic neighbor end_)]> (fScore st))
    else st.

(** [while (temp) { path.unshift(temp); temp = cameFrom.get(key temp) }] *)
Fixpoint reconstructPath (fuel : nat) (cameFrom : gmap string GridCoordinate)
  (temp : option GridCoordinate) (path : list GridCoordinate)
  : option (list GridCoordinate) :=
  match temp with
  | None => Some path
  | Some t =>
    match fuel with
    | O => None
    | S fuel' =>
      reconstructPath fuel' cameFrom (cameFrom !! getKey t) (t :: path)
    end
  end.

(** What a call produced: a value (a path or null), or no value within the
    allotted number of loop turns. *)
Inductive Run := OutOfFuel | Returned (path : option (list GridCoordinate)).

Fixpoint searchLoop (fuel : nat) (gm : GridManager) (end_ : GridCoordinate)
  (st : Search) : Run :=
  match fuel with
  | O => OutOfFuel
  | S fuel' =>
    match openSet st with
    | [] => Returned None
    | first :: rest =>
      let '(current, currentIndex) :=
        scanOpenSet (fScore st) rest 1 first 0 in
      if sameCoordinate current end_
      then
        match reconstructPath fuel (cameFrom st) (Some current) [] with
        | Some path => Returned (Some path)
        | None => OutOfFuel
        end
      else
        let st1 :=
          mkSearch (delete currentIndex (openSet st)) (cameFrom st)
            (gScore st) (fScore st) in
        let neighbors :=
          getNeighborCells gm (row current) (col current) false in
        searchLoop fuel' gm end_
          (fold_left (relaxNeighbor current end_) neighbors st1)
    end
  end.

Definition findPath (fuel : nat) (gm : GridManager)
  (start end_ : GridCoordinate) : Run :=
  if negb (isValidCoordinate gm (row start) (col start))
     || negb (isValidCoordinate gm (row end_) (col end_))
  then Returned None
  else
    searchLoop fuel gm end_
      (mkSearch [start] ∅
         (<[getKey start := Finite 0]> ∅)
         (<[getKey start := Finite (heuristic start end_)]> ∅)).

(** *** Scans of the whole lattice

    getCellsByType, getAvailableBuildCells and getGridStats run the two
    nested loops [for row < rows], [for col < cols] over [this._grid]
    directly; [scanCells] is the sequence of cells they visit, row by row. *)

#[export] Instance GridCellType_eq_dec : EqDecision GridCellType.
Proof. solve_decision. Defined.

Definition scanCells (gm : GridManager) : list GridCell :=
  concat
    (map (fun row => omap (fun col => cellAt (_grid gm) row col)
                       (seqZ 0 (cols gm)))
       (seqZ 0 (rows gm))).

Definition getCellsByType (gm : GridManager) (cellType : GridCellType)
  : list GridCell :=
  List.filter
    (fun cell => bool_decide (GridManager.cellType cell = cellType))
    (scanCells gm).

Definition getAvailableBuildCells (gm : GridManager) : list GridCell :=
  List.filter (fun cell => buildable cell && negb (occupied cell))
    (scanCells gm).

(** The string value of each enum member; it keys cellTypeCount. *)
Definition typeString (t : GridCellType) : string :=
  match t with
  | EMPTY => "empty"
  | PLANT_ZONE => "plant_zone"
  | PATH => "path"
  | SPAWN => "spawn"
  | GOAL => "goal"
  | OBSTACLE => "obstacle"
  | SPECIAL => "special"
  end.

Record GridStats := mkStats {
  totalCells : Z;
  occupiedCells : Z;
  buildableCells : Z;
  walkableCells : Z;
  cellTypeCount : gmap string Z
}.

(** The body of the inner loop of getGridStats. *)
Definition countCell (stats : GridStats) (cell : GridCell) : GridStats :=
  mkStats (totalCells stats)
    (if occupied cell then occupiedCells stats + 1 else occupiedCells stats)
    (if buildable cell then buildableCells stats + 1
     else buildableCells stats)
    (if walkable cell then walkableCells stats + 1 else walkableCells stats)
    (<[typeString (cellType cell) :=
         default 0 (cellTypeCount stats !! typeString (cellType cell)) + 1]>
       (cellTypeCount stats)).

Definition getGridStats (gm : GridManager) : GridStats :=
  fold_left countCell (scanCells gm) (mkStats (rows gm * cols gm) 0 0 0 ∅).

(** The component as declared (property initialisers), and after [onLoad]. *)
Definition declared : GridManager :=
  mkGrid 5 9 100 100 (mkVec3 (-400) 200 0) true
    (mkColor 255 255 255 100) (mkColor 255 255 0 150) None [].

Definition onLoad (gm : GridManager) : GridManager := initializeGrid gm.

End GridManager.

(** ** Weapon catalogue *)

Module WeaponType.

Inductive WeaponType :=
| BULLET_TYPE_NORMAL | BULLET_TYPE_CANNON | BULLET_TYPE_MULTIPLE
| BULLET_TYPE_LASER.

(** The numeric value of the enum member; it indexes bulletPrefabs and keys
    the pools and the configuration map. *)
Definition ordinal (t : WeaponType) : nat :=
  match t with
  | BULLET_TYPE_NORMAL => 0
  | BULLET_TYPE_CANNON => 1
  | BULLET_TYPE_MULTIPLE => 2
  | BULLET_TYPE_LASER => 3
  end%nat.

Definition sameType (s t : WeaponType) : bool := Nat.eqb (ordinal s) (ordinal t).

Record WeaponConfig := mkWeapon {
  type : WeaponType;
  name : string;
  damage : Q;
  fireRate : Q;
  bulletSpeed : Q;
  bulletLifetime : Q;
  range : Q;
  bulletCount : Z;
  spreadAngle : Q;
  penetration : Z;
  explosionRadius : Q;
  energyCost : Q;
  cooldown : Q
}.

Definition DEFAULT_WEAPON_CONFIGS (t : WeaponType) : WeaponConfig :=
  match t with
  | BULLET_TYPE_NORMAL =>
    mkWeapon BULLET_TYPE_NORMAL "普通子弹" 10 2 500 3 400 1 0 0 0 1 0
  | BULLET_TYPE_CANNON =>
    mkWeapon BULLET_TYPE_CANNON "加农炮" 50 (1 # 2) 300 4 600 1 0 2 80 5 1
  | BULLET_TYPE_MULTIPLE =>
    mkWeapon BULLET_TYPE_MULTIPLE "多重射击" 8 3 450 (5 # 2) 350 3 30 0 0
      3 (1 # 5)
  | BULLET_TYPE_LASER =>
    mkWeapon BULLET_TYPE_LASER "激光" 25 5 1000 (3 # 2) 800 1 0 5 0 2 0
  end.

End WeaponType.

(** ** Projectile *)

Module Bullet.
Import WeaponType.

Definition Node := positive.

(** What the projectile reads of the node it touches: its identity, its
    name, and the tag of its ActorController when it has one. *)
Record Target := mkTarget {
  node : Node;
  nodeName : string;
  actorController : option string
}.

(** The component.  [active] is the [active] flag of the node that carries
    it.  The sprite fields and the wall-clock [_startTime] are display and
    diagnostics state and are left out. *)
Record Bullet := mkBullet {
  damage : Q;
  speed : Q;
  lifetime : Q;
  ownerTag : string;
  targetTags : list string;
  penetration : Z;
  explosionRadius : Q;
  isLaser : bool;
  weaponType : WeaponType;
  _hasHit : bool;
  _hitCount : Z;
  _hitTargets : gset Node;
  active : bool
}.

Inductive BulletEvent :=
| TakeDamage (target : Node) (damage : Q)
| BulletExplosion (radius : Q) (damage : Q)
| BulletHit (target : Node) (damage : Q) (weaponType : WeaponType)
    (hitCount : Z)
| BulletDestroy (weaponType : WeaponType) (hitCount : Z).

Definition with_hits (bl : Bullet) (hasHit : bool) (hitCount : Z)
  (hitTargets : gset Node) (act : bool) : Bullet :=
  mkBullet (damage bl) (speed bl) (lifetime bl) (ownerTag bl) (targetTags bl)
    (penetration bl) (explosionRadius bl) (isLaser bl) (weaponType bl)
    hasHit hitCount hitTargets act.

Definition with_kind (bl : Bullet) (pen : Z) (radius : Q) (laser : bool)
  (t : WeaponType) : Bullet :=
  mkBullet (damage bl) (speed bl) (lifetime bl) (ownerTag bl) (targetTags bl)
    pen radius laser t (_hasHit bl) (_hitCount bl) (_hitTargets bl)
    (active bl).

Definition with_shot (bl : Bullet) (dmg spd life : Q) (owner : string)
  : Bullet :=
  mkBullet dmg spd life owner (targetTags bl) (penetration bl)
    (explosionRadius bl) (isLaser bl) (weaponType bl) (_hasHit bl)
    (_hitCount bl) (_hitTargets bl) (active bl).

(** Lifecycle callbacks; the engine runs them when the node's [active] flag
    flips. *)
Definition onEnable (bl : Bullet) : Bullet := with_hits bl false 0 ∅ (active bl).

Definition onDisable (bl : Bullet) : Bullet := with_hits bl false 0 ∅ (active bl).

(** [node.active = v] *)
Definition setActive (v : bool) (bl : Bullet) : Bullet :=
  let bl' := with_hits bl (_hasHit bl) (_hitCount bl) (_hitTargets bl) v in
  match active bl, v with
  | true, false => onDisable bl'
  | false, true => onEnable bl'
  | _, _ => bl'
  end.

Definition updateBulletPropertiesByWeaponType (bl : Bullet) : Bullet :=
  match weaponType bl with
  | BULLET_TYPE_NORMAL => with_kind bl 0 0 false (weaponType bl)
  | BULLET_TYPE_CANNON => with_kind bl 0 50 false (weaponType bl)
  | BULLET_TYPE_MULTIPLE => with_kind bl 1 0 false (weaponType bl)
  | BULLET_TYPE_LASER => with_kind bl 3 0 true (weaponType bl)
  end.

(** The part of the asynchronous setters that runs before the first await
    (the sprite is loaded afterwards). *)
Definition setWeaponType (bl : Bullet) (t : WeaponType) : Bullet :=
  if sameType (weaponType bl) t then bl
  else
    updateBulletPropertiesByWeaponType
      (with_kind bl (penetration bl) (explosionRadius bl) (isLaser bl) t).

Definition setBulletData (bl : Bullet) (dmg spd life : Q) (owner : string)
  (t : WeaponType) : Bullet :=
  setWeaponType (with_shot bl dmg spd life owner) t.

Definition nonEmpty (s : string) : bool :=
  match s with EmptyString => false | _ => true end.

Definition getNodeTag (target : Target) : string :=
  match actorController target with
  | Some actorTag => if nonEmpty actorTag then actorTag else nodeName target
  | None => nodeName target
  end.

Definition isValidTarget (bl : Bullet) (targetTag : string) : bool :=
  if String.eqb targetTag (ownerTag bl) then false
  else existsb (String.eqb targetTag) (targetTags bl)
       || Nat.eqb (length (targetTags bl)) 0.

Definition dealDamageToTarget (target : Target) (dmg : Q) : list BulletEvent :=
  match actorController target with
  | Some _ => [TakeDamage (node target) dmg]
  | None => []
  end.

Definition applyDamageByWeaponType (bl : Bullet) (target : Target)
  : list BulletEvent :=
  match weaponType bl with
  | BULLET_TYPE_CANNON =>
    dealDamageToTarget target (damage bl)
    ++ (if Qle_bool (explosionRadius bl) 0 then []
        else [BulletExplosion (explosionRadius bl) (damage bl * (7 # 10))%Q])
  | _ => dealDamageToTarget target (damage bl)
  end.

Definition shouldDestroyAfterHit (bl : Bullet) : bool :=
  if isLaser bl && (0 <? penetration bl)
  then penetration bl <=? _hitCount bl
  else if penetration bl <=? 0 then true
  else penetration bl <=? _hitCount bl.

Definition destroyBullet (bl : Bullet) : Bullet * list BulletEvent :=
  (setActive false bl, [BulletDestroy (weaponType bl) (_hitCount bl)]).

Definition hitTarget (bl : Bullet) (target : Target)
  : Bullet * list BulletEvent :=
  let bl1 :=
    with_hits bl (_hasHit bl) (_hitCount bl + 1)
      ({[node target]} ∪ _hitTargets bl) (active bl) in
  let evs :=
    applyDamageByWeaponType bl1 target
    ++ [BulletHit (node target) (damage bl1) (weaponType bl1) (_hitCount bl1)]
  in
  if shouldDestroyAfterHit bl1
  then let '(bl2, evs2) := destroyBullet bl1 in (bl2, evs ++ evs2)
  else
    (with_hits bl1 true (_hitCount bl1) (_hitTargets bl1) (active bl1), evs).

Definition onBeginContact (bl : Bullet) (other : Target)
  : Bullet * list BulletEvent :=
  if _hasHit bl && (penetration bl <=? 0) then (bl, [])
  else if bool_decide (node other ∈ _hitTargets bl) then (bl, [])
  else if isValidTarget bl (getNodeTag other) then hitTarget bl other
  else (bl, []).

(** A sequence of contacts, in order. *)
Definition contacts (bl : Bullet) (others : list Target) : Bullet :=
  fold_left (fun bl other => fst (onBeginContact bl other)) others bl.

End Bullet.

(** ** Weapon controller *)

Module WeaponsSystem.
Import WeaponType.

(** The record written to [bullet.bulletData] by configureBullet.  The
    direction (a vector normalised and rotated with trigonometric functions)
    and the node's world position are not represented. *)
Record BulletData := mkData {
  speed : Q;
  lifetime : Q;
  startTime : Q;
  weaponType : WeaponType
}.

(** A pooled node: its Bullet component (every bullet prefab carries one)
    and the dynamic property [bulletData]. *)
Record PoolNode := mkNode {
  bullet : Bullet.Bullet;
  bulletData : option BulletData
}.

(** A prefab is the component state its instances start from. *)
Definition Prefab := Bullet.Bullet.

(** Nodes are named by their pool (the ordinal of a weapon type) and their
    position in it. *)
Definition NodeRef : Type := nat * nat.

Inductive WeaponEvent :=
| WeaponFire (weaponType : WeaponType) (weaponConfig : WeaponConfig)
    (energyRemaining : Q)
| WeaponSwitch (oldWeapon newWeapon : WeaponType)
    (weaponConfig : WeaponConfig).

Record WeaponsSystem := mkSystem {
  currentWeaponType : WeaponType;
  bulletPrefabs : list (option Prefab);
  autoFire : bool;
  currentEnergy : Q;
  maxEnergy : Q;
  energyRegenRate : Q;
  _weaponConfigs : gmap nat WeaponConfig;
  _bulletPools : gmap nat (list PoolNode);
  _activeBullets : list NodeRef;
  _lastFireTime : Q;
  _cooldownEndTime : Double.number;
  _ownerTag : string
}.

Definition with_energy (ws : WeaponsSystem) (e : Q) : WeaponsSystem :=
  mkSystem (currentWeaponType ws) (bulletPrefabs ws) (autoFire ws) e
    (maxEnergy ws) (energyRegenRate ws) (_weaponConfigs ws) (_bulletPools ws)
    (_activeBullets ws) (_lastFireTime ws) (_cooldownEndTime ws)
    (_ownerTag ws).

Definition with_times (ws : WeaponsSystem) (lastFire : Q)
  (cooldownEnd : Double.number)
  : WeaponsSystem :=
  mkSystem (currentWeaponType ws) (bulletPrefabs ws) (autoFire ws)
    (currentEnergy ws) (maxEnergy ws) (energyRegenRate ws) (_weaponConfigs ws)
    (_bulletPools ws) (_activeBullets ws) lastFire cooldownEnd (_ownerTag ws).

Definition with_pools (ws : WeaponsSystem)
  (pools : gmap nat (list PoolNode)) (actives : list NodeRef)
  : WeaponsSystem :=
  mkSystem (currentWeaponType ws) (bulletPrefabs ws) (autoFire ws)
    (currentEnergy ws) (maxEnergy ws) (energyRegenRate ws) (_weaponConfigs ws)
    pools actives (_lastFireTime ws) (_cooldownEndTime ws) (_ownerTag ws).

Definition with_weapon (ws : WeaponsSystem) (t : WeaponType)
  : WeaponsSystem :=
  mkSystem t (bulletPrefabs ws) (autoFire ws)
    (currentEnergy ws) (maxEnergy ws) (energyRegenRate ws) (_weaponConfigs ws)
    (_bulletPools ws) (_activeBullets ws) (_lastFireTime ws)
    (_cooldownEndTime ws) (_ownerTag ws).

Definition Qltb (p q : Q) : bool := negb (Qle_bool q p).

Definition getCurrentWeaponConfig (ws : WeaponsSystem) : WeaponConfig :=
  default (DEFAULT_WEAPON_CONFIGS BULLET_TYPE_NORMAL)
    (_weaponConfigs ws !! ordinal (currentWeaponType ws)).

Definition hasPrefab (ws : WeaponsSystem) (t : nat) : bool :=
  match bulletPrefabs ws !! t with Some (Some _) => true | _ => false end.

(** [currentTime] is director.getTotalTime() / 1000 at the moment of the
    call.  A fireRate of 0 makes the interval infinite.  The fire point node
    is taken to be set, so that adding a child to it cannot throw. *)
Definition canFire (ws : WeaponsSystem) (currentTime : Q) : bool :=
  let config := getCurrentWeaponConfig ws in
  if (currentTime <? _cooldownEndTime ws)%number then false
  else
    let fireInterval := (1%Q / fireRate config)%number in
    if (currentTime - _lastFireTime ws <? fireInterval)%number then false
    else if Qltb (currentEnergy ws) (energyCost config) then false
    else if negb (hasPrefab ws (ordinal (currentWeaponType ws))) then false
    else true.

(** *** Pools *)

Definition instantiate (prefab : Prefab) : PoolNode := mkNode prefab None.

Definition nodeAt (ws : WeaponsSystem) (ref : NodeRef) : option PoolNode :=
  _bulletPools ws !! ref.1 ≫= fun pool => pool !! ref.2.

Definition updateNode (ws : WeaponsSystem) (ref : NodeRef)
  (f : PoolNode -> PoolNode) : WeaponsSystem :=
  with_pools ws (alter (alter f ref.2) ref.1 (_bulletPools ws))
    (_activeBullets ws).

(** Index of the first pooled node that is not active. *)
Fixpoint firstInactive (pool : list PoolNode) (i : nat) : option nat :=
  match pool with
  | [] => None
  | n :: pool' =>
    if negb (Bullet.active (bullet n)) then Some i
    else firstInactive pool' (S i)
  end.

Definition getBulletFromPool (ws : WeaponsSystem) (weaponType : WeaponType)
  : option NodeRef * WeaponsSystem :=
  let t := ordinal weaponType in
  match _bulletPools ws !! t with
  | None => (None, ws)
  | Some pool =>
    match firstInactive pool 0 with
    | Some i => (Some (t, i), ws)
    | None =>
      match bulletPrefabs ws !! t with
      | Some (Some prefab) =>
        (Some (t, length pool),
         with_pools ws
           (<[t := pool ++ [instantiate prefab]]> (_bulletPools ws))
           (_activeBullets ws))
      | _ => (None, ws)
      end
    end
  end.

Definition configureBullet (ws : WeaponsSystem) (ref : NodeRef)
  (config : WeaponConfig) (currentTime : Q) : WeaponsSystem :=
  updateNode ws ref (fun n =>
    mkNode
      (Bullet.setBulletData (bullet n) (damage config) (bulletSpeed config)
         (bulletLifetime config) (_ownerTag ws) (type config))
      (Some (mkData (bulletSpeed config) (bulletLifetime config) currentTime
               (type config)))).

Definition activateBullet (ws : WeaponsSystem) (ref : NodeRef)
  : WeaponsSystem :=
  let ws' :=
    updateNode ws ref (fun n =>
      mkNode (Bullet.setActive true (bullet n)) (bulletData n)) in
  with_pools ws' (_bulletPools ws')
    (if bool_decide (ref ∈ _activeBullets ws') then _activeBullets ws'
     else _activeBullets ws' ++ [ref]).

Definition recycleBullet (ws : WeaponsSystem) (ref : NodeRef)
  : WeaponsSystem :=
  let ws' :=
    updateNode ws ref (fun n =>
      mkNode (Bullet.setActive false (bullet n)) None) in
  with_pools ws' (_bulletPools ws')
    (filter (fun r => r <> ref) (_activeBullets ws')).

(** *** Fire patterns *)

Definition fireSingleBullet (ws : WeaponsSystem) (config : WeaponConfig)
  (currentTime : Q) : WeaponsSystem :=
  match getBulletFromPool ws (type config) with
  | (Some ref, ws1) => activateBullet (configureBullet ws1 ref config currentTime) ref
  | (None, ws1) => ws1
  end.

Definition fireCannonBullet (ws : WeaponsSystem) (config : WeaponConfig)
  (currentTime : Q) : WeaponsSystem :=
  match getBulletFromPool ws (type config) with
  | (Some ref, ws1) =>
    let ws2 := configureBullet ws1 ref config currentTime in
    let ws3 :=
      updateNode ws2 ref (fun n =>
        mkNode
          (Bullet.with_kind (bullet n) (penetration config)
             (explosionRadius config) (Bullet.isLaser (bullet n))
             (Bullet.weaponType (bullet n)))
          (bulletData n)) in
    activateBullet ws3 ref
  | (None, ws1) => ws1
  end.

(** The loop [for (i = 0; i < bulletCount; i++)]; the angle of each shot only
    enters its direction. *)
Definition fireMultipleBullets (ws : WeaponsSystem) (config : WeaponConfig)
  (currentTime : Q) : WeaponsSystem :=
  fold_left (fun ws _ => fireSingleBullet ws config currentTime)
    (seqZ 0 (bulletCount config)) ws.

Definition fireLaserBullet (ws : WeaponsSystem) (config : WeaponConfig)
  (currentTime : Q) : WeaponsSystem :=
  match getBulletFromPool ws (type config) with
  | (Some ref, ws1) =>
    let ws2 := configureBullet ws1 ref config currentTime in
    let ws3 :=
      updateNode ws2 ref (fun n =>
        mkNode
          (Bullet.with_kind (bullet n) (penetration config)
             (Bullet.explosionRadius (bullet n)) true
             (Bullet.weaponType (bullet n)))
          (bulletData n)) in
    activateBullet ws3 ref
  | (None, ws1) => ws1
  end.

Definition executeFirePattern (ws : WeaponsSystem) (config : WeaponConfig)
  (currentTime : Q) : WeaponsSystem :=
  match type config with
  | BULLET_TYPE_NORMAL => fireSingleBullet ws config currentTime
  | BULLET_TYPE_CANNON => fireCannonBullet ws config currentTime
  | BULLET_TYPE_MULTIPLE => fireMultipleBullets ws config currentTime
  | BULLET_TYPE_LASER => fireLaserBullet ws config currentTime
  end.

Definition fire (ws : WeaponsSystem) (currentTime : Q)
  : bool * WeaponsSystem * list WeaponEvent :=
  if negb (canFire ws currentTime) then (false, ws, [])
  else
    let weaponConfig := getCurrentWeaponConfig ws in
    let ws1 := with_energy ws (currentEnergy ws - energyCost weaponConfig)%Q in
    let ws2 :=
      with_times ws1 currentTime
        (currentTime + cooldown weaponConfig)%number in
    let ws3 := executeFirePattern ws2 weaponConfig currentTime in
    (true, ws3,
     [WeaponFire (currentWeaponType ws3) weaponConfig (currentEnergy ws3)]).

(** *** Per-frame update *)

Definition updateEnergyRegen (ws : WeaponsSystem) (deltaTime : Q)
  : WeaponsSystem :=
  if Qltb (currentEnergy ws) (maxEnergy ws)
  then
    with_energy ws
      (Qmin (maxEnergy ws)
         (currentEnergy ws + energyRegenRate ws * deltaTime)%Q)
  else ws.

Definition expired (ws : WeaponsSystem) (currentTime : Q) (ref : NodeRef)
  : bool :=
  match nodeAt ws ref ≫= bulletData with
  | Some d => (lifetime d <? currentTime - startTime d)%number
  | None => false
  end.

(** A bullet that stays in flight is moved along its direction.  The
    position of a node is not part of [PoolNode], nor the direction part of
    [BulletData]; the write to the position is recorded as the bullet moved
    and the factor, [speed * deltaTime], that scales its direction. *)
Record BulletMove := mkMove {
  moved : NodeRef;
  distance : Double.number
}.

Definition inFlight (ws : WeaponsSystem) (currentTime : Q) (ref : NodeRef)
  : bool :=
  match nodeAt ws ref ≫= bulletData with
  | Some d => negb (lifetime d <? currentTime - startTime d)%number
  | None => false
  end.

Definition moveOf (ws : WeaponsSystem) (deltaTime : Q) (ref : NodeRef)
  : option BulletMove :=
  match nodeAt ws ref ≫= bulletData with
  | Some d => Some (mkMove ref (speed d * deltaTime)%number)
  | None => None
  end.

(** The state after the call, and the moves made by its first loop, in the
    order of the set of active bullets. *)
Definition updateBullets (ws : WeaponsSystem) (deltaTime currentTime : Q)
  : WeaponsSystem * list BulletMove :=
  let bulletsToRemove :=
    List.filter (expired ws currentTime) (_activeBullets ws) in
  let moves :=
    omap (moveOf ws deltaTime)
      (List.filter (inFlight ws currentTime) (_activeBullets ws)) in
  (fold_left recycleBullet bulletsToRemove ws, moves).

Definition update (ws : WeaponsSystem) (deltaTime currentTime : Q)
  : WeaponsSystem * list WeaponEvent :=
  let ws1 := updateEnergyRegen ws deltaTime in
  let ws2 := (updateBullets ws1 deltaTime currentTime).1 in
  if autoFire ws2 && canFire ws2 currentTime
  then let '(_, ws3, evs) := fire ws2 currentTime in (ws3, evs)
  else (ws2, []).

Definition switchWeapon (ws : WeaponsSystem) (weaponType : WeaponType)
  : bool * WeaponsSystem * list WeaponEvent :=
  if sameType weaponType (currentWeaponType ws) then (false, ws, [])
  else if negb (hasPrefab ws (ordinal weaponType)) then (false, ws, [])
  else
    let ws' := with_weapon ws weaponType in
    (true, ws',
     [WeaponSwitch (currentWeaponType ws) weaponType
        (getCurrentWeaponConfig ws')]).

(** *** Start-up *)

Definition loadWeaponConfigs : gmap nat WeaponConfig :=
  list_to_map
    (map (fun t => (ordinal t, DEFAULT_WEAPON_CONFIGS t))
       [BULLET_TYPE_NORMAL; BULLET_TYPE_CANNON; BULLET_TYPE_MULTIPLE;
        BULLET_TYPE_LASER]).

Definition poolSize : nat := 30.

Definition initializeBulletPools (prefabs : list (option Prefab))
  : gmap nat (list PoolNode) :=
  list_to_map
    (omap (fun '(i, p) =>
             match p with
             | Some prefab =>
               Some (i, replicate poolSize
                          (mkNode (Bullet.setActive false prefab) None))
             | None => None
             end)
       (imap (fun i p => (i, p)) prefabs)).

Definition start (ws : WeaponsSystem) : WeaponsSystem :=
  mkSystem (currentWeaponType ws) (bulletPrefabs ws) (autoFire ws)
    (currentEnergy ws) (maxEnergy ws) (energyRegenRate ws) loadWeaponConfigs
    (initializeBulletPools (bulletPrefabs ws)) (_activeBullets ws)
    (_lastFireTime ws) (_cooldownEndTime ws) (_ownerTag ws).

(** *** Call sequences *)

Inductive Call :=
| Update (deltaTime currentTime : Q)
| Fire (currentTime : Q).

Definition step (ws : WeaponsSystem) (c : Call) : WeaponsSystem :=
  match c with
  | Update deltaTime currentTime => fst (update ws deltaTime currentTime)
  | Fire currentTime => (fire ws currentTime).1.2
  end.

Definition run (ws : WeaponsSystem) (calls : list Call) : WeaponsSystem :=
  fold_left step calls ws.

(** *** Configuration overrides *)

(** Partial<WeaponConfig>: every field may be absent. *)
Record WeaponOverride := mkOverride {
  o_type : option WeaponType;
  o_name : option string;
  o_damage : option Q;
  o_fireRate : option Q;
  o_bulletSpeed : option Q;
  o_bulletLifetime : option Q;
  o_range : option Q;
  o_bulletCount : option Z;
  o_spreadAngle : option Q;
  o_penetration : option Z;
  o_explosionRadius : option Q;
  o_energyCost : option Q;
  o_cooldown : option Q
}.

(** The object spread of the stored configuration and the override. *)
Definition mergeConfig (current : WeaponConfig) (config : WeaponOverride)
  : WeaponConfig :=
  mkWeapon
    (default (type current) (o_type config))
    (default (name current) (o_name config))
    (default (damage current) (o_damage config))
    (default (fireRate current) (o_fireRate config))
    (default (bulletSpeed current) (o_bulletSpeed config))
    (default (bulletLifetime current) (o_bulletLifetime config))
    (default (range current) (o_range config))
    (default (bulletCount current) (o_bulletCount config))
    (default (spreadAngle current) (o_spreadAngle config))
    (default (penetration current) (o_penetration config))
    (default (explosionRadius current) (o_explosionRadius config))
    (default (energyCost current) (o_energyCost config))
    (default (cooldown current) (o_cooldown config)).

Definition with_configs (ws : WeaponsSystem)
  (configs : gmap nat WeaponConfig) : WeaponsSystem :=
  mkSystem (currentWeaponType ws) (bulletPrefabs ws) (autoFire ws)
    (currentEnergy ws) (maxEnergy ws) (energyRegenRate ws) configs
    (_bulletPools ws) (_activeBullets ws) (_lastFireTime ws)
    (_cooldownEndTime ws) (_ownerTag ws).

Definition setWeaponConfig (ws : WeaponsSystem) (weaponType : WeaponType)
  (config : WeaponOverride) : WeaponsSystem :=
  match _weaponConfigs ws !! ordinal weaponType with
  | Some currentConfig =>
    with_configs ws
      (<[ordinal weaponType := mergeConfig currentConfig config]>
         (_weaponConfigs ws))
  | None => ws
  end.

Definition setOwnerTag (ws : WeaponsSystem) (tag : string) : WeaponsSystem :=
  mkSystem (currentWeaponType ws) (bulletPrefabs ws) (autoFire ws)
    (currentEnergy ws) (maxEnergy ws) (energyRegenRate ws)
    (_weaponConfigs ws) (_bulletPools ws) (_activeBullets ws)
    (_lastFireTime ws) (_cooldownEndTime ws) tag.

(** *** The fan of a multiple shot

    The angle offset, in degrees, that fireMultipleBullets computes for shot
    [i]: startAngle + angleStep * i with angleStep = spreadAngle /
    (bulletCount - 1) and startAngle = -spreadAngle / 2.  With bulletCount = 1
    the step is a division by zero (an infinity, or NaN for a zero spread)
    and its product with i = 0 is NaN, rendered as [None]. *)
Definition shotAngle (config : WeaponConfig) (i : Z) : option Q :=
  if bulletCount config - 1 =? 0 then None
  else
    let angleStep :=
      (spreadAngle config / inject_Z (bulletCount config - 1))%Q in
    let startAngle := (- spreadAngle config / 2)%Q in
    Some (startAngle + angleStep * inject_Z i)%Q.

Definition shotAngles (config : WeaponConfig) : list (option Q) :=
  map (shotAngle config) (seqZ 0 (bulletCount config)).

(** Number of active nodes in a pool. *)
Definition activeCount (pool : list PoolNode) : nat :=
  length (List.filter (fun n => Bullet.active (bullet n)) pool).

End WeaponsSystem.

(** ** Vocabulary of the statements about numbers *)

Module DoubleProps.
Import Double.

(** [a] is the finite number of value [q]. *)
Definition numberIs (a : number) (q : Q) : Prop :=
  match a with
  | Num p => p == q
  | _ => False
  end.

(** The finite values of binary64: m * 2^e with |m| < 2^53 and
    -1074 <= e <= 971. *)
Definition representable (q : Q) : Prop :=
  exists m e, q == inject_Z m * pow2 e
              /\ Z.abs m < 2 ^ 53 /\ -1074 <= e <= 971.

(** The value of a binary64 datum of the machine. *)
Definition ofSpec (f : SpecFloat.spec_float) : number :=
  match f with
  | SpecFloat.S754_zero _ => Num 0
  | SpecFloat.S754_infinity false => PosInfinity
  | SpecFloat.S754_infinity true => NegInfinity
  | SpecFloat.S754_nan => NaN
  | SpecFloat.S754_finite s m e =>
    Num (Qred (inject_Z (if s then Z.neg m else Z.pos m) * pow2 e))
  end.

Definition ofFloat (f : PrimFloat.float) : number :=
  ofSpec (FloatOps.Prim2SF f).

Definition sameNumber (a b : number) : bool :=
  match a, b with
  | Num p, Num q => Qeq_bool p q
  | PosInfinity, PosInfinity | NegInfinity, NegInfinity | NaN, NaN => true
  | _, _ => false
  end.

End DoubleProps.

(** ** Vocabulary of the statements about the grid *)

Module GridProps.
Import GridManager.

(** The lattice matches the configured dimensions: every valid coordinate
    holds a cell, and the cell records that coordinate.  [initializeGrid]
    establishes this and the mutators keep it. *)
Definition wellFormed (gm : GridManager) : Prop :=
  forall row col, isValidCoordinate gm row col = true ->
    exists cell, cellAt (_grid gm) row col = Some cell
                 /\ coordinate cell = mkCoord row col.

(** The derivation table as the specification words it:
    (walkable, buildable) for each cell type. *)
Definition derivationTable (t : GridCellType) : bool * bool :=
  match t with
  | SPAWN | GOAL | PATH => (true, false)
  | PLANT_ZONE => (false, true)
  | OBSTACLE => (false, false)
  | EMPTY | SPECIAL => (true, true)
  end.

Definition flagsDerived (cell : GridCell) : Prop :=
  (walkable cell, buildable cell) = derivationTable (cellType cell).

(** Two cells, and two components, that differ at most in occupancy. *)
Definition sameButOccupancy (c1 c2 : GridCell) : Prop :=
  coordinate c1 = coordinate c2 /\ worldPosition c1 = worldPosition c2
  /\ localPosition c1 = localPosition c2 /\ cellType c1 = cellType c2
  /\ walkable c1 = walkable c2 /\ buildable c1 = buildable c2
  /\ data c1 = data c2.

Definition sameGridButOccupancy (g1 g2 : GridManager) : Prop :=
  rows g1 = rows g2 /\ cols g1 = cols g2
  /\ cellWidth g1 = cellWidth g2 /\ cellHeight g1 = cellHeight g2
  /\ startPosition g1 = startPosition g2
  /\ Forall2 (Forall2 sameButOccupancy) (_grid g1) (_grid g2).

(** Position of a coordinate relative to a centre (row, col). *)
Definition orthogonalTo (row col : Z) (p : GridCoordinate) : Prop :=
  Z.abs (GridManager.row p - row) + Z.abs (GridManager.col p - col) = 1.

Definition diagonalTo (row col : Z) (p : GridCoordinate) : Prop :=
  Z.abs (GridManager.row p - row) = 1 /\ Z.abs (GridManager.col p - col) = 1.

Definition adjacent4 (p q : GridCoordinate) : Prop :=
  orthogonalTo (GridManager.row p) (GridManager.col p) q.

(** No diagonal neighbour stands before an orthogonal one. *)
Definition orthogonalFirst (row col : Z) (l : list GridCoordinate) : Prop :=
  forall i j p q, l !! i = Some p -> l !! j = Some q ->
    diagonalTo row col p -> orthogonalTo row col q -> (j < i)%nat.

(** The neighbours of (row, col) along a list of offsets. *)
Definition offsetsFrom (row col : Z) (ds : list (Z * Z))
  : list GridCoordinate :=
  map (fun d => mkCoord (row + d.1) (col + d.2)) ds.

Definition inBounds (gm : GridManager) (p : GridCoordinate) : bool :=
  isValidCoordinate gm (GridManager.row p) (GridManager.col p).

(** Small lattices used as concrete instances. *)
Definition blank (rows cols : Z) : GridManager :=
  onLoad (mkGrid rows cols 100 100 (mkVec3 (-400) 200 0) true
            (mkColor 255 255 255 100) (mkColor 255 255 0 150) None []).

Definition grid1x2 : GridManager := blank 1 2.
Definition grid3x3 : GridManager := blank 3 3.
Definition grid5x9 : GridManager := onLoad declared.

(** A grid on integers: the start position and the cell sizes are
    integers, the sizes positive, and one cell beyond the far corner is
    within 2^51 of the axes. *)
Definition onIntegers (gm : GridManager) (sx sy w h : Z) : Prop :=
  DoubleProps.numberIs (x (startPosition gm)) (inject_Z sx)
  /\ DoubleProps.numberIs (y (startPosition gm)) (inject_Z sy)
  /\ cellWidth gm == inject_Z w /\ cellHeight gm == inject_Z h
  /\ 0 < w /\ 0 < h
  /\ Z.abs sx + (cols gm + 1) * w <= 2 ^ 51
  /\ Z.abs sy + (rows gm + 1) * h <= 2 ^ 51.


(** A corridor of three cells in a row: the goal, a cell made Empty (so
    walkable and buildable) that holds an occupant, and the spawn point. *)
Definition corridor : GridManager :=
  (setCellOccupied (setCellType (blank 1 3) 0 1 EMPTY).1.2 0 1
     (Some 7%positive)).1.2.

Definition onlyRows (n : Z) : GridConfig :=
  mkConfig (Some n) None None None None None None None.

End GridProps.

(** ** Vocabulary of the statements about projectiles and weapons *)

Module BulletProps.
Import WeaponType Bullet.

(** A projectile that pierces two targets, and two enemies. *)
Definition piercing : Bullet :=
  mkBullet 10 500 3 "Player" ["Enemy"] 2 0 false BULLET_TYPE_NORMAL
    false 0 ∅ true.

Definition enemy1 : Target := mkTarget 1%positive "Enemy" None.
Definition enemy2 : Target := mkTarget 2%positive "Zombie" (Some "Enemy").

End BulletProps.

Module WeaponProps.
Import WeaponType WeaponsSystem.

Definition energyInBounds (ws : WeaponsSystem) : Prop :=
  (0 <= currentEnergy ws)%Q /\ (currentEnergy ws <= maxEnergy ws)%Q.

(** Every registered weapon configuration has a non-negative energy cost. *)
Definition costsNonNegative (ws : WeaponsSystem) : Prop :=
  forall t config, _weaponConfigs ws !! t = Some config ->
    (0 <= energyCost config)%Q.

Definition tickNonNegative (c : Call) : Prop :=
  match c with
  | Update deltaTime _ => (0 <= deltaTime)%Q
  | Fire _ => True
  end.

(** The fields that the pool operations never write. *)
Definition core (ws : WeaponsSystem) :=
  (currentWeaponType ws, bulletPrefabs ws, autoFire ws, currentEnergy ws,
   maxEnergy ws, energyRegenRate ws, _weaponConfigs ws, _lastFireTime ws,
   _cooldownEndTime ws, _ownerTag ws).

(** The settings the energy bounds depend on. *)
Definition settings (ws : WeaponsSystem) :=
  (maxEnergy ws, energyRegenRate ws, _weaponConfigs ws).

(** A controller as declared, with one prefab per weapon type, started. *)
Definition shell : Prefab :=
  Bullet.mkBullet 10 500 3 "Player" ["Enemy"] 0 0 false BULLET_TYPE_NORMAL
    false 0 ∅ true.

Definition armed : WeaponsSystem :=
  start (mkSystem BULLET_TYPE_NORMAL
           [Some shell; Some shell; Some shell; Some shell]
           true 100 100 5 ∅ ∅ [] 0 0 "Player").

Definition session : list Call :=
  [Fire 1; Update (1 # 2) (3 # 2); Fire 2; Update 30 32].

End WeaponProps.

(** ** Event manager (EventManager.ts)

    A callback and a listener target are references; they are compared by
    identity and rendered as handles.  A callback is opaque: it may return or
    throw ([throws]), and it is taken not to call back into the event
    manager while an emission is in progress.  The payload of an event is
    passed through untouched and is left out. *)

Module EventManager.

Definition Callback := positive.
Definition Target := positive.

Record EventListener := mkListener {
  callback : Callback;
  target : option Target;
  once : bool
}.

Record ClickHandler := mkHandler {
  id : string;
  handler : Callback;
  handlerTarget : option Target;
  enabled : bool
}.

Record EventManager := mkManager {
  _clickHandlers : gmap string (list ClickHandler);
  _eventListeners : gmap string (list EventListener);
  _globalClickHandlers : list ClickHandler
}.

Definition empty : EventManager := mkManager ∅ ∅ [].

Definition with_listeners (em : EventManager)
  (listeners : gmap string (list EventListener)) : EventManager :=
  mkManager (_clickHandlers em) listeners (_globalClickHandlers em).

Definition with_handlers (em : EventManager)
  (handlers : gmap string (list ClickHandler)) : EventManager :=
  mkManager handlers (_eventListeners em) (_globalClickHandlers em).

Definition with_globals (em : EventManager) (globals : list ClickHandler)
  : EventManager :=
  mkManager (_clickHandlers em) (_eventListeners em) globals.

(** [a !== b] on an optional reference. *)
Definition differs (a b : option Target) : bool := negb (bool_decide (a = b)).

Definition addListener (em : EventManager) (eventType : string)
  (listener : EventListener) : EventManager :=
  with_listeners em
    (<[eventType := default [] (_eventListeners em !! eventType)
                    ++ [listener]]> (_eventListeners em)).

Definition on (em : EventManager) (eventType : string) (callback : Callback)
  (target : option Target) : EventManager :=
  addListener em eventType (mkListener callback target false).

Definition once_ (em : EventManager) (eventType : string)
  (callback : Callback) (target : option Target) : EventManager :=
  addListener em eventType (mkListener callback target true).

Definition off (em : EventManager) (eventType : string)
  (callback : option Callback) (target : option Target) : EventManager :=
  match _eventListeners em !! eventType with
  | None => em
  | Some listeners =>
    match callback with
    | None =>
      match target with
      | Some _ =>
        with_listeners em
          (<[eventType :=
               List.filter (fun l => differs (EventManager.target l) target)
                 listeners]> (_eventListeners em))
      | None => with_listeners em (delete eventType (_eventListeners em))
      end
    | Some cb =>
      with_listeners em
        (<[eventType :=
             List.filter
               (fun l =>
                  match target with
                  | Some _ =>
                    negb (Pos.eqb (EventManager.callback l) cb)
                    || differs (EventManager.target l) target
                  | None => negb (Pos.eqb (EventManager.callback l) cb)
                  end)
               listeners]> (_eventListeners em))
    end
  end.

(** The callbacks invoked, in order, and the manager afterwards.  A
    one-time listener is dropped unless its callback threw. *)
Definition emit (throws : Callback -> bool) (em : EventManager)
  (eventType : string) : list Callback * EventManager :=
  match _eventListeners em !! eventType with
  | None => ([], em)
  | Some [] => ([], em)
  | Some listeners =>
    let listenersToRemove :=
      List.filter (fun l => once l && negb (throws (callback l))) listeners in
    (map callback listeners,
     match listenersToRemove with
     | [] => em
     | _ =>
       with_listeners em
         (<[eventType :=
              List.filter
                (fun l => negb (once l && negb (throws (callback l))))
                listeners]> (_eventListeners em))
     end)
  end.

Definition registerClickHandler (em : EventManager) (clickId : string)
  (handler : Callback) (target : option Target) : EventManager :=
  with_handlers em
    (<[clickId := default [] (_clickHandlers em !! clickId)
                  ++ [mkHandler clickId handler target true]]>
       (_clickHandlers em)).

Definition registerGlobalClickHandler (em : EventManager)
  (handler : Callback) (target : option Target) : EventManager :=
  with_globals em
    (_globalClickHandlers em ++ [mkHandler "global" handler target true]).

Definition keepHandler (handler : option Callback) (target : option Target)
  (h : ClickHandler) : bool :=
  match handler with
  | None => differs (handlerTarget h) target
  | Some f =>
    match target with
    | Some _ =>
      negb (Pos.eqb (EventManager.handler h) f)
      || differs (handlerTarget h) target
    | None => negb (Pos.eqb (EventManager.handler h) f)
    end
  end.

Definition removeClickHandler (em : EventManager) (clickId : string)
  (handler : option Callback) (target : option Target) : EventManager :=
  match _clickHandlers em !! clickId with
  | None => em
  | Some handlers =>
    match handler, target with
    | None, None => with_handlers em (delete clickId (_clickHandlers em))
    | _, _ =>
      with_handlers em
        (<[clickId := List.filter (keepHandler handler target) handlers]>
           (_clickHandlers em))
    end
  end.

Definition removeGlobalClickHandler (em : EventManager)
  (handler : option Callback) (target : option Target) : EventManager :=
  match handler, target with
  | None, None => with_globals em []
  | _, _ =>
    with_globals em
      (List.filter (keepHandler handler target) (_globalClickHandlers em))
  end.

Definition setEnabled (enabled : bool) (h : ClickHandler) : ClickHandler :=
  mkHandler (id h) (handler h) (handlerTarget h) enabled.

Definition setClickHandlerEnabled (em : EventManager) (clickId : string)
  (enabled : bool) : EventManager :=
  match _clickHandlers em !! clickId with
  | Some handlers =>
    with_handlers em
      (<[clickId := map (setEnabled enabled) handlers]> (_clickHandlers em))
  | None => em
  end.

Definition handleClick (throws : Callback -> bool) (em : EventManager)
  (clickId : string) : list Callback * EventManager :=
  let specific :=
    map handler
      (List.filter enabled (default [] (_clickHandlers em !! clickId))) in
  let globals := map handler (List.filter enabled (_globalClickHandlers em)) in
  let '(generic, em1) := emit throws em "click" in
  let '(routed, em2) := emit throws em1 ("click:" +:+ clickId) in
  (specific ++ globals ++ generic ++ routed, em2).

Definition getEventListenerCount (em : EventManager) (eventType : string)
  : nat :=
  match _eventListeners em !! eventType with
  | Some listeners => length listeners
  | None => 0
  end.

Definition getClickHandlerCount (em : EventManager) (clickId : string)
  : nat :=
  match _clickHandlers em !! clickId with
  | Some handlers => length handlers
  | None => 0
  end.

Definition clearAllEventListeners (em : EventManager) : EventManager :=
  with_listeners em ∅.

Definition clearAllClickHandlers (em : EventManager) : EventManager :=
  mkManager ∅ (_eventListeners em) [].

Definition clearTargetListeners (em : EventManager) (target : option Target)
  : EventManager :=
  mkManager
    (List.filter (fun h => differs (handlerTarget h) target)
     <$> _clickHandlers em)
    (List.filter (fun l => differs (EventManager.target l) target)
     <$> _eventListeners em)
    (List.filter (fun h => differs (handlerTarget h) target)
       (_globalClickHandlers em)).

End EventManager.

(** ** Logger (Logger.ts) *)

Module Logger.

Inductive LogLevel := DEBUG | LOG | WARN | ERROR | NONE.

Definition levelValue (l : LogLevel) : Z :=
  match l with DEBUG => 0 | LOG => 1 | WARN => 2 | ERROR => 3 | NONE => 4 end.

Record LogConfig := mkLogConfig {
  level : LogLevel;
  enableTimestamp : bool;
  enableModuleName : bool;
  enableConsoleOutput : bool;
  enableFileOutput : bool;
  maxLogHistory : Z
}.

(** The optional [data] payload of a record is left out. *)
Record LogRecord := mkRecord {
  timestamp : Z;
  recordLevel : LogLevel;
  module : string;
  message : string
}.

Record Logger := mkLogger {
  _config : LogConfig;
  _logHistory : list LogRecord;
  _moduleFilters : gset string
}.

(** The logger as constructed. *)
Definition initial : Logger :=
  mkLogger (mkLogConfig DEBUG true true true false 1000) [] ∅.

Definition setLevel (lg : Logger) (l : LogLevel) : Logger :=
  mkLogger
    (mkLogConfig l (enableTimestamp (_config lg))
       (enableModuleName (_config lg)) (enableConsoleOutput (_config lg))
       (enableFileOutput (_config lg)) (maxLogHistory (_config lg)))
    (_logHistory lg) (_moduleFilters lg).

(** Partial<LogConfig> and the object spread of setConfig. *)
Record LogOverride := mkLogOverride {
  o_level : option LogLevel;
  o_enableTimestamp : option bool;
  o_enableModuleName : option bool;
  o_enableConsoleOutput : option bool;
  o_enableFileOutput : option bool;
  o_maxLogHistory : option Z
}.

Definition setConfig (lg : Logger) (config : LogOverride) : Logger :=
  mkLogger
    (mkLogConfig
       (default (level (_config lg)) (o_level config))
       (default (enableTimestamp (_config lg)) (o_enableTimestamp config))
       (default (enableModuleName (_config lg)) (o_enableModuleName config))
       (default (enableConsoleOutput (_config lg))
          (o_enableConsoleOutput config))
       (default (enableFileOutput (_config lg)) (o_enableFileOutput config))
       (default (maxLogHistory (_config lg)) (o_maxLogHistory config)))
    (_logHistory lg) (_moduleFilters lg).

Definition addModuleFilter (lg : Logger) (moduleName : string) : Logger :=
  mkLogger (_config lg) (_logHistory lg) ({[moduleName]} ∪ _moduleFilters lg).

Definition removeModuleFilter (lg : Logger) (moduleName : string) : Logger :=
  mkLogger (_config lg) (_logHistory lg) (_moduleFilters lg ∖ {[moduleName]}).

Definition clearModuleFilters (lg : Logger) : Logger :=
  mkLogger (_config lg) (_logHistory lg) ∅.

Definition shouldLog (lg : Logger) (l : LogLevel) (moduleName : string)
  : bool :=
  if levelValue l <? levelValue (level (_config lg)) then false
  else if negb (Nat.eqb (size (_moduleFilters lg)) 0)
          && negb (bool_decide (moduleName ∈ _moduleFilters lg))
  then false
  else true.

(** push, then one shift when the history is over the limit. *)
Definition recordLog (lg : Logger) (now : Z) (l : LogLevel)
  (moduleName message : string) : Logger :=
  let history := _logHistory lg ++ [mkRecord now l moduleName message] in
  mkLogger (_config lg)
    (if maxLogHistory (_config lg) <? Z.of_nat (length history)
     then drop 1 history else history)
    (_moduleFilters lg).

(** [now] is Date.now() at the call; the console is not represented. *)
Definition output (lg : Logger) (now : Z) (l : LogLevel)
  (moduleName message : string) : Logger :=
  if negb (shouldLog lg l moduleName) then lg
  else recordLog lg now l moduleName message.

Definition nonEmpty (s : string) : bool :=
  match s with EmptyString => false | _ => true end.

Definition getLogHistory (lg : Logger) (moduleName : option string)
  (l : option LogLevel) : list LogRecord :=
  let byModule :=
    match moduleName with
    | Some m =>
      if nonEmpty m
      then List.filter (fun r => String.eqb (module r) m) (_logHistory lg)
      else _logHistory lg
    | None => _logHistory lg
    end in
  match l with
  | Some l =>
    List.filter (fun r => levelValue l <=? levelValue (recordLevel r))
      byModule
  | None => byModule
  end.

Definition clearHistory (lg : Logger) : Logger :=
  mkLogger (_config lg) [] (_moduleFilters lg).

(** A sequence of output calls: time, level, module, message. *)
Definition outputs (lg : Logger)
  (calls : list (Z * LogLevel * string * string)) : Logger :=
  fold_left (fun lg '(now, l, m, msg) => output lg now l m msg) calls lg.

End Logger.

(** ** Actor health (ActorController, setHealth / takeDamage / onDeath) *)

Module ActorController.

Record Actor := mkActor {
  actorTag : string;
  maxHealth : Q;
  _currentHealth : Q;
  autoAttack : bool
}.

Inductive ActorEvent := ActorDeath.

Definition onDeath (ac : Actor) : Actor * list ActorEvent :=
  (mkActor (actorTag ac) (maxHealth ac) (_currentHealth ac) false,
   [ActorDeath]).

Definition setHealth (ac : Actor) (health : Q) : Actor * list ActorEvent :=
  let ac' :=
    mkActor (actorTag ac) (maxHealth ac)
      (Qmax 0 (Qmin health (maxHealth ac))) (autoAttack ac) in
  if Qle_bool (_currentHealth ac') 0 then onDeath ac' else (ac', []).

Definition takeDamage (ac : Actor) (damage : Q) : Actor * list ActorEvent :=
  setHealth ac (_currentHealth ac - damage)%Q.

Definition initializeProperties (ac : Actor) : Actor :=
  mkActor (actorTag ac) (maxHealth ac) (maxHealth ac) (autoAttack ac).

(** Damage received hit after hit. *)
Definition takeAll (ac : Actor) (damages : list Q) : Actor :=
  fold_left (fun ac d => fst (takeDamage ac d)) damages ac.

End ActorController.

(** ** Level manager (validateLevelData, configureGrid, configureSpecialCells) *)

Module LevelManager.
Import GridManager.

Record LevelGridConfig := mkLevelGrid {
  lg_rows : Z;
  lg_cols : Z;
  lg_cellWidth : Q;
  lg_cellHeight : Q;
  lg_startPosition : Vec3;
  lg_showGrid : bool;
  lg_gridColor : Color;
  lg_highlightColor : Color
}.

Record SpecialCell := mkSpecial {
  sc_row : Z;
  sc_col : Z;
  sc_type : string;
  sc_properties : option (list (string * string))
}.

(** The fields of a level file that validation and the grid set-up read. *)
Record LevelData := mkLevel {
  id : string;
  name : string;
  grid : option LevelGridConfig;
  specialCells : option (list SpecialCell)
}.

Definition nonEmpty (s : string) : bool :=
  match s with EmptyString => false | _ => true end.

Definition inRange (grid : LevelGridConfig) (cell : SpecialCell) : bool :=
  negb ((sc_row cell <? 0) || (lg_rows grid <=? sc_row cell)
        || (sc_col cell <? 0) || (lg_cols grid <=? sc_col cell)).

Definition validateLevelData (levelData : option LevelData) : bool :=
  match levelData with
  | None => false
  | Some levelData =>
    if negb (nonEmpty (id levelData)) then false
    else if negb (nonEmpty (name levelData)) then false
    else
      match grid levelData with
      | None => false
      | Some grid =>
        if (lg_rows grid <=? 0) || (lg_cols grid <=? 0) then false
        else
          match specialCells levelData with
          | Some cells => forallb (inRange grid) cells
          | None => true
          end
      end
  end.

Definition configureGrid (gm : GridManager) (gridConfig : LevelGridConfig)
  : GridManager :=
  reconfigureGrid gm
    (mkConfig (Some (lg_rows gridConfig)) (Some (lg_cols gridConfig))
       (Some (lg_cellWidth gridConfig)) (Some (lg_cellHeight gridConfig))
       (Some (lg_startPosition gridConfig)) (Some (lg_showGrid gridConfig))
       (Some (lg_gridColor gridConfig))
       (Some (lg_highlightColor gridConfig))).

(** typeMap is an object literal: besides its seven own keys it answers to
    the names it inherits from Object.prototype, which are those of
    ECMAScript and its Annex B as long as no other code extends the
    prototype.  Each of them holds a function, or for __proto__ the
    prototype itself: a value that is truthy. *)
Definition objectPrototypeKeys : list string :=
  ["constructor"; "hasOwnProperty"; "isPrototypeOf"; "propertyIsEnumerable";
   "toLocaleString"; "toString"; "valueOf"; "__proto__";
   "__defineGetter__"; "__defineSetter__"; "__lookupGetter__";
   "__lookupSetter__"].

(** What stringToCellType returns: a member of GridCellType, or the
    inherited member of typeMap that the string names. *)
Inductive TypeValue :=
  | Member (cellType : GridCellType)
  | Inherited (key : string).

(** [typeMap[typeString] || GridCellType.EMPTY]: an own key gives its type,
    an inherited key the inherited value, which being truthy is returned as
    it is, and any other string [undefined], hence EMPTY. *)
Definition stringToCellType (typeString : string) : TypeValue :=
  if String.eqb typeString "empty" then Member EMPTY
  else if String.eqb typeString "plant_zone" then Member PLANT_ZONE
  else if String.eqb typeString "path" then Member PATH
  else if String.eqb typeString "spawn" then Member SPAWN
  else if String.eqb typeString "goal" then Member GOAL
  else if String.eqb typeString "obstacle" then Member OBSTACLE
  else if String.eqb typeString "special" then Member SPECIAL
  else if existsb (String.eqb typeString) objectPrototypeKeys
  then Inherited typeString
  else Member EMPTY.

(** Object.assign on a bag of properties held as key/value pairs: an
    existing key keeps its place and takes the new value, a new key is
    appended. *)
Fixpoint setProperty (key value : string) (bag : list (string * string))
  : list (string * string) :=
  match bag with
  | [] => [(key, value)]
  | (k, v) :: rest =>
    if String.eqb k key then (k, value) :: rest
    else (k, v) :: setProperty key value rest
  end.

Definition objectAssign (bag source : list (string * string))
  : list (string * string) :=
  fold_left (fun bag kv => setProperty kv.1 kv.2 bag) source bag.

Definition with_data (cell : GridCell) (d : list (string * string))
  : GridCell :=
  mkCell (coordinate cell) (worldPosition cell) (localPosition cell)
    (occupied cell) (occupant cell) (cellType cell) (walkable cell)
    (buildable cell) d.

(** One turn of the loop of configureSpecialCells.  With an inherited value
    the code goes on and stores in the cell a value that is no GridCellType;
    a grid with such a cell is outside of [GridManager], and the result is
    [None]. *)
Definition configureSpecialCell (gm : GridManager) (cellConfig : SpecialCell)
  : option GridManager :=
  match stringToCellType (sc_type cellConfig) with
  | Inherited _ => None
  | Member cellType =>
    let gm1 :=
      (setCellType gm (sc_row cellConfig) (sc_col cellConfig) cellType).1.2 in
    match getCell gm1 (sc_row cellConfig) (sc_col cellConfig),
          sc_properties cellConfig with
    | Some _, Some properties =>
      Some (updateCell gm1 (sc_row cellConfig) (sc_col cellConfig)
              (fun cell => with_data cell (objectAssign (data cell) properties)))
    | _, _ => Some gm1
    end
  end.

Fixpoint configureSpecialCells (gm : GridManager)
  (specialCells : list SpecialCell) : option GridManager :=
  match specialCells with
  | [] => Some gm
  | cellConfig :: rest =>
    match configureSpecialCell gm cellConfig with
    | Some gm1 => configureSpecialCells gm1 rest
    | None => None
    end
  end.

(** applyLevelConfiguration, as far as the grid is concerned.  Without a
    grid configuration configureGrid fails on reading its rows, and the
    call does not complete: [None] as well. *)
Definition applyLevelConfiguration (gm : GridManager) (levelData : LevelData)
  : option GridManager :=
  match grid levelData with
  | None => None
  | Some gridConfig =>
    let gm1 := configureGrid gm gridConfig in
    match specialCells levelData with
    | Some cells => configureSpecialCells gm1 cells
    | None => Some gm1
    end
  end.

End LevelManager.

(** ** Vocabulary of the further statements *)

Module GridScanProps.
Import GridManager.

(** All valid coordinates, row by row. *)
Definition rowMajor (gm : GridManager) : list GridCoordinate :=
  concat (map (fun row => map (mkCoord row) (seqZ 0 (cols gm)))
            (seqZ 0 (rows gm))).

(** The cell type [determineCellType] gives to an in-bounds column. *)
Definition columnType (gm : GridManager) (col : Z) : GridCellType :=
  if col =? cols gm - 1 then SPAWN else if col =? 0 then GOAL else PLANT_ZONE.

End GridScanProps.

(** ** Vocabulary of the statements about levels, events, the log and actors *)

Module LevelProps.
Import GridManager GridProps LevelManager.

(** The entry gives the type [t]: its string is the key of [t] in typeMap,
    or, for EMPTY, a string that typeMap does not answer to at all. *)
Definition namesType (sc : SpecialCell) (t : GridCellType) : Prop :=
  stringToCellType (sc_type sc) = Member t.

(** No entry of the list names a member that typeMap inherits. *)
Definition noInheritedKey (cells : list SpecialCell) : Prop :=
  forall sc, sc ∈ cells -> sc_type sc ∉ objectPrototypeKeys.

(** The type an entry gives, when its string is no inherited key. *)
Definition typeNamed (sc : SpecialCell) : GridCellType :=
  match stringToCellType (sc_type sc) with
  | Member t => t
  | Inherited _ => EMPTY
  end.

(** What one entry of specialCells that gives a type makes of the cell it
    names, and of the grid. *)
Definition typed (sc : SpecialCell) (cell : GridCell) : GridCell :=
  let cell1 := configureCellByType (with_cellType cell (typeNamed sc)) in
  match sc_properties sc with
  | Some properties => with_data cell1 (objectAssign (data cell1) properties)
  | None => cell1
  end.

Definition typedGrid (gm : GridManager) (sc : SpecialCell) : GridManager :=
  match getCell gm (sc_row sc) (sc_col sc) with
  | Some _ => updateCell gm (sc_row sc) (sc_col sc) (typed sc)
  | None => gm
  end.

(** A level of two rows and three columns whose list of special cells names
    the cell (0, 1) twice. *)
Definition meadowGrid : LevelGridConfig :=
  mkLevelGrid 2 3 100 100 (mkVec3 0 0 0) true (mkColor 255 255 255 100)
    (mkColor 255 255 0 150).

Definition meadowCells : list SpecialCell :=
  [mkSpecial 0 1 "obstacle" None;
   mkSpecial 1 1 "path" (Some [("speed", "2")]);
   mkSpecial 0 1 "special" None].

Definition meadow : LevelData :=
  mkLevel "level-1" "Meadow" (Some meadowGrid) (Some meadowCells).

(** The same level with one more entry, whose type is the name of a method
    that every object inherits. *)
Definition thicket : LevelData :=
  mkLevel "level-2" "Thicket" (Some meadowGrid)
    (Some (meadowCells ++ [mkSpecial 1 2 "toString" None])).

End LevelProps.

Module EventProps.
Import EventManager.

Definition listenersOf (em : EventManager) (eventType : string)
  : list EventListener :=
  default [] (_eventListeners em !! eventType).

Definition handlersOf (em : EventManager) (clickId : string)
  : list ClickHandler :=
  default [] (_clickHandlers em !! clickId).

(** A listener that an emission leaves registered. *)
Definition survives (throws : Callback -> bool) (l : EventListener) : bool :=
  negb (once l && negb (throws (callback l))).

Definition neverThrows (c : Callback) : bool := false.

(** Only the callback [c] throws. *)
Definition onlyThrows (c : Callback) : Callback -> bool := Pos.eqb c.

(** Three listeners of one event, the last of them one-time, the first
    bound to a target. *)
Definition hub : EventManager :=
  once_ (on (on empty "hit" 1%positive (Some 9%positive)) "hit" 2%positive None)
    "hit" 3%positive None.

(** A click handler, a global handler and listeners of both click events. *)
Definition desk : EventManager :=
  registerGlobalClickHandler
    (registerClickHandler
       (on (on empty "click" 5%positive None) "click:start" 6%positive None)
       "start" 7%positive None)
    8%positive None.

End EventProps.

Module LoggerProps.
Import Logger.

(** The history holds no more than the configured number of records. *)
Definition withinLimit (lg : Logger) : Prop :=
  Z.of_nat (length (_logHistory lg)) <= maxLogHistory (_config lg).

(** No stored record is below the configured level. *)
Definition atLevel (lg : Logger) : Prop :=
  Forall (fun r => levelValue (level (_config lg))
                   <= levelValue (recordLevel r)) (_logHistory lg).

Definition chatter : list (Z * LogLevel * string * string) :=
  [(1, DEBUG, "GridManager", "a"); (2, WARN, "GridManager", "b");
   (3, ERROR, "Bullet", "c"); (4, LOG, "WeaponsSystem", "d")].

Definition tight : Logger :=
  setConfig (setLevel initial WARN)
    (mkLogOverride None None None None None (Some 1)).

End LoggerProps.

Module ActorProps.
Import ActorController.

Definition chick : Actor := mkActor "Enemy" 100 100 true.

End ActorProps.

(** ** Vocabulary of the further statements about projectiles and weapons *)

Module BulletScanProps.
Import WeaponType Bullet.

(** The hit counter counts the members of the hit-set. *)
Definition counted (bl : Bullet) : Prop :=
  _hitCount bl = Z.of_nat (size (_hitTargets bl)).

(** What updateBulletPropertiesByWeaponType writes for a type. *)
Definition kindTable (t : WeaponType) : Z * Q * bool :=
  match t with
  | BULLET_TYPE_NORMAL => (0, 0%Q, false)
  | BULLET_TYPE_CANNON => (0, 50%Q, false)
  | BULLET_TYPE_MULTIPLE => (1, 0%Q, false)
  | BULLET_TYPE_LASER => (3, 0%Q, true)
  end.

Definition crowd : list Target :=
  [mkTarget 1%positive "Enemy" None; mkTarget 2%positive "Zombie" (Some "Enemy");
   mkTarget 3%positive "Enemy" (Some "Player")].

Definition lance : Bullet :=
  mkBullet 25 1000 (3 # 2) "Player" ["Enemy"] 3 0 true BULLET_TYPE_LASER
    false 0 ∅ true.

End BulletScanProps.

Module WeaponScanProps.
Import WeaponType WeaponsSystem WeaponProps.

(** The clock is not before the end of the cool-down. *)
Definition cooledDown (cooldownEnd : Double.number) (currentTime : Q) : Prop :=
  (currentTime <? cooldownEnd)%number = false.

(** The time since the last shot, as the machine subtracts, is not below
    the interval 1 / fireRate, as the machine divides. *)
Definition intervalPassed (config : WeaponConfig) (lastFire currentTime : Q)
  : Prop :=
  (currentTime - lastFire <? 1%Q / fireRate config)%number = false.

(** The four conditions canFire checks, in its order. *)
Definition ready (ws : WeaponsSystem) (currentTime : Q) : Prop :=
  let config := getCurrentWeaponConfig ws in
  cooledDown (_cooldownEndTime ws) currentTime
  /\ intervalPassed config (_lastFireTime ws) currentTime
  /\ (energyCost config <= currentEnergy ws)%Q
  /\ hasPrefab ws (ordinal (currentWeaponType ws)) = true.

(** The pool of a weapon type; no pool reads as an empty one. *)
Definition poolOf (ws : WeaponsSystem) (t : WeaponType) : list PoolNode :=
  default [] (_bulletPools ws !! ordinal t).

(** Number of bullets one shot of a configuration puts in flight. *)
Definition shots (config : WeaponConfig) : nat :=
  match type config with
  | BULLET_TYPE_MULTIPLE => Z.to_nat (bulletCount config)
  | _ => 1%nat
  end.

(** A controller switched to the cannon. *)
Definition cannon : WeaponsSystem :=
  (switchWeapon armed BULLET_TYPE_CANNON).1.2.

Definition volley : WeaponsSystem :=
  (switchWeapon armed BULLET_TYPE_MULTIPLE).1.2.

(** The binary64 value nearest to 1/3, which lies below 1/3, and a clock
    two units in the last place after it. *)
Definition third : Q := 6004799503160661 # 18014398509481984.

Definition afterThird : Q := 6004799503160663 # 18014398509481984.

End WeaponScanProps.

Module PoolProps.
Import WeaponType WeaponsSystem.

(** What recycleBullet leaves of a node. *)
Definition recycled (n : PoolNode) : PoolNode :=
  mkNode (Bullet.setActive false (bullet n)) None.

(** The node named carries flight data. *)
Definition hasFlightData (ws : WeaponsSystem) (ref : NodeRef) : bool :=
  match nodeAt ws ref ≫= bulletData with Some _ => true | None => false end.

End PoolProps.

(** * Theorems *)

(** ** Numbers *)

Module DoubleFacts.
Import Double DoubleProps.

Lemma pow2_pos e : (0 < pow2 e)%Q.
Proof. apply Qpower_0_lt. reflexivity. Qed.

Lemma pow2_add a b : pow2 (a + b) == pow2 a * pow2 b.
Proof. apply Qpower_plus. discriminate. Qed.

Lemma pow2_sub a b : pow2 (a - b) == pow2 a / pow2 b.
Proof. apply Qpower_minus. discriminate. Qed.

Lemma pow2_Z e : 0 <= e -> pow2 e == inject_Z (2 ^ e).
Proof. intros H. unfold pow2. now rewrite (Zpower_Qpower 2 e H). Qed.

Lemma pow2_lt_inv a b : (pow2 a < pow2 b)%Q -> a < b.
Proof. intros H. apply (Qpower_lt_compat_l_inv 2 a b H). reflexivity. Qed.

Lemma pow2_le a b : a <= b -> (pow2 a <= pow2 b)%Q.
Proof. intros H. apply Qpower_le_compat_l; [exact H | discriminate]. Qed.

Lemma round_proper p q : p == q -> round p = round q.
Proof. intros H. unfold round. now rewrite (Qred_complete p q H). Qed.

Lemma Qmake_cross (n : Z) (d : positive) (u v : Z) :
  0 <= u -> 0 <= v ->
  ((n * 2 ^ v <= 2 ^ u * Zpos d -> (n # d <= pow2 (u - v))%Q)
   /\ (2 ^ u * Zpos d <= n * 2 ^ v -> (pow2 (u - v) <= n # d)%Q)
   /\ (n * 2 ^ v < 2 ^ u * Zpos d -> (n # d < pow2 (u - v))%Q)).
Proof.
  intros Hu Hv.
  assert (Hpv : 0 < 2 ^ v) by (apply Z.pow_pos_nonneg; lia).
  assert (E : pow2 (u - v) == (2 ^ u) # (Z.to_pos (2 ^ v))).
  { rewrite pow2_sub, (pow2_Z u Hu), (pow2_Z v Hv).
    rewrite (Qmake_Qdiv (2 ^ u) (Z.to_pos (2 ^ v))).
    now rewrite Z2Pos.id by exact Hpv. }
  rewrite E. unfold Qle, Qlt. cbn [Qnum Qden].
  rewrite Z2Pos.id by exact Hpv. repeat split; intros; lia.
Qed.

(** [ilog2 a] is the binary exponent of a positive [a]. *)
Lemma ilog2_spec a :
  (0 < a)%Q -> (pow2 (ilog2 a) <= a)%Q /\ (a < pow2 (ilog2 a + 1))%Q.
Proof.
  intros Ha. destruct a as [n d].
  assert (Hn : 0 < n) by (unfold Qlt in Ha; cbn in Ha; lia).
  unfold ilog2. cbn [Qnum Qden].
  pose proof (Z.log2_spec n Hn) as [Ln1 Ln2].
  pose proof (Z.log2_spec (Zpos d) (Pos2Z.is_pos d)) as [Ld1 Ld2].
  pose proof (Z.log2_nonneg n) as Nn.
  pose proof (Z.log2_nonneg (Zpos d)) as Nd.
  set (ln := Z.log2 n) in *. set (ld := Z.log2 (Zpos d)) in *.
  unfold Z.succ in Ln2, Ld2.
  destruct (Qle_bool (pow2 (ln - ld)) (n # d)) eqn:E.
  - apply Qle_bool_iff in E. split; [exact E |].
    replace (ln - ld + 1) with ((ln + 1) - ld) by lia.
    apply (Qmake_cross n d (ln + 1) ld); [lia | lia |].
    apply Z.lt_le_trans with (2 ^ (ln + 1) * 2 ^ ld); [| nia].
    apply Z.mul_lt_mono_pos_r; [apply Z.pow_pos_nonneg; lia | exact Ln2].
  - split.
    + replace (ln - ld - 1) with (ln - (ld + 1)) by lia.
      apply (Qmake_cross n d ln (ld + 1)); [lia | lia |].
      apply Z.le_trans with (2 ^ ln * 2 ^ (ld + 1)); [| nia].
      apply Z.mul_le_mono_nonneg_l; [apply Z.pow_nonneg; lia | lia].
    + replace (ln - ld - 1 + 1) with (ln - ld) by lia.
      apply Qnot_le_lt. intros H. apply Qle_bool_iff in H. congruence.
Qed.

Lemma nearestEven_Z (a : Q) (n : Z) : a == inject_Z n -> nearestEven a = n.
Proof.
  intros H. unfold nearestEven.
  assert (F : Qfloor a = n) by (rewrite H; apply Qfloor_Z).
  rewrite F.
  assert (C : (a - inject_Z n ?= 1 # 2)%Q = Lt).
  { rewrite H. apply Qlt_alt.
    assert (Z0 : inject_Z n - inject_Z n == 0) by ring.
    rewrite Z0. reflexivity. }
  now rewrite C.
Qed.

Lemma numberIs_eq a p q : numberIs a p -> p == q -> numberIs a q.
Proof. destruct a; cbn; try tauto. intros H1 H2. now rewrite H1. Qed.

(** Rounding leaves a representable value as it is. *)
Lemma round_exact q : representable q -> numberIs (round q) q.
Proof.
  intros (m & e & Hq & Hm & He). unfold round.
  pose proof (Qred_correct q) as Hred. set (q0 := Qred q) in *.
  destruct (Qeq_bool q0 0) eqn:Ez.
  { apply Qeq_bool_iff in Ez. cbn. now rewrite <- Hred, Ez. }
  assert (Hnz : ~ q0 == 0).
  { intros H. apply Qeq_bool_iff in H. congruence. }
  assert (Hq0 : q0 == inject_Z m * pow2 e) by now rewrite Hred.
  set (a := Qabs q0).
  assert (Ha : a == inject_Z (Z.abs m) * pow2 e).
  { unfold a. rewrite Hq0, Qabs_Qmult.
    rewrite (Qabs_pos (pow2 e)) by (apply Qlt_le_weak, pow2_pos).
    apply Qmult_comp; [| reflexivity].
    unfold Qabs, inject_Z. reflexivity. }
  assert (Hapos : (0 < a)%Q).
  { pose proof (Qabs_nonneg q0) as Hge. fold a in Hge.
    apply Qle_lteq in Hge as [H | H]; [exact H |].
    exfalso. apply Hnz. unfold a in H. revert H.
    apply Qabs_case; intros H1 H2; lra. }
  destruct (ilog2_spec a Hapos) as [Hlo _].
  set (lg := ilog2 a) in *.
  assert (Hup : (a < pow2 (53 + e))%Q).
  { rewrite Ha, pow2_add. apply Qmult_lt_compat_r; [apply pow2_pos |].
    rewrite (pow2_Z 53) by lia. rewrite <- Zlt_Qlt. exact Hm. }
  assert (Hlg : lg < 53 + e).
  { apply pow2_lt_inv. eapply Qle_lt_trans; [exact Hlo | exact Hup]. }
  set (k := Z.max (lg - 52) (-1074)).
  assert (Hk : k <= e) by (unfold k; lia).
  set (N := Z.abs m * 2 ^ (e - k)).
  assert (Hscaled : a / pow2 k == inject_Z N).
  { unfold N. rewrite inject_Z_mult, <- (pow2_Z (e - k)) by lia.
    rewrite Ha, pow2_sub. field.
    intros H. pose proof (pow2_pos k) as P. rewrite H in P. discriminate P. }
  rewrite (nearestEven_Z _ N Hscaled).
  assert (Hr : inject_Z N * pow2 k == a).
  { rewrite <- Hscaled. field.
    intros H. pose proof (pow2_pos k) as P. rewrite H in P. discriminate P. }
  assert (Hno : Qle_bool (pow2 1024) (inject_Z N * pow2 k) = false).
  { destruct (Qle_bool _ _) eqn:E; [| reflexivity].
    apply Qle_bool_iff in E. rewrite Hr in E. exfalso.
    apply (Qlt_not_le _ _ Hup). eapply Qle_trans; [| exact E].
    apply pow2_le. lia. }
  rewrite Hno. cbn [numberIs]. rewrite Qred_correct, <- Hred.
  destruct (Z.ltb_spec 0 (Qnum q0)) as [Hp | Hn].
  - rewrite Hr. unfold a. apply Qabs_pos.
    unfold Qle. cbn. lia.
  - rewrite Hr. unfold a. rewrite Qabs_neg; [ring |].
    unfold Qle. cbn. lia.
Qed.

Lemma representable_Z z : Z.abs z < 2 ^ 53 -> representable (inject_Z z).
Proof.
  intros H. exists z, 0. split; [| split; [exact H | lia]].
  unfold pow2. cbn. ring.
Qed.


Lemma representable_eq p q : representable p -> p == q -> representable q.
Proof. intros (m & e & H & R) E. exists m, e. split; [now rewrite <- E | exact R]. Qed.

Lemma ofQ_exact q p : q == p -> representable p -> numberIs (ofQ q) p.
Proof.
  intros E R. unfold ofQ. rewrite (round_proper q p E). now apply round_exact.
Qed.



Lemma sub_exact a b p q :
  numberIs a p -> numberIs b q -> representable (p - q) ->
  numberIs (sub a b) (p - q).
Proof.
  destruct a as [p'| | |], b as [q'| | |]; cbn [numberIs]; try tauto.
  intros Hp Hq R. unfold sub. cbn [opp add].
  rewrite (round_proper (p' + - q') (p - q)) by (rewrite Hp, Hq; ring).
  now apply round_exact.
Qed.



(** The operations agree with those of the machine; checked on operands
    that exercise rounding to nearest, ties, a subnormal result, overflow
    and the grid and weapon arithmetic used below.  The machine operands
    are built from integers by machine operations. *)
Lemma operations_as_the_machine :
  let f := fun n d : Z =>
    PrimFloat.div (PrimFloat.of_uint63 (Uint63.of_Z n))
      (PrimFloat.of_uint63 (Uint63.of_Z d)) in
  let q := fun n d : Z => ofQ (inject_Z n / inject_Z d) in
  sameNumber (q 1 10) (ofFloat (f 1 10)) = true
  /\ sameNumber (q 1 3) (ofFloat (f 1 3)) = true
  /\ sameNumber (add (q 1 10) (q 2 10))
       (ofFloat (PrimFloat.add (f 1 10) (f 2 10))) = true
  /\ sameNumber (sub (q 31 10) (q 1 10))
       (ofFloat (PrimFloat.sub (f 31 10) (f 1 10))) = true
  /\ sameNumber (sub (q 22 5) (q 7 5))
       (ofFloat (PrimFloat.sub (f 22 5) (f 7 5))) = true
  /\ sameNumber (mul (q 1 10) (q 3 1))
       (ofFloat (PrimFloat.mul (f 1 10) (f 3 1))) = true
  /\ sameNumber (add (ofZ (10 ^ 16)) (ofZ 1))
       (ofFloat (PrimFloat.add (f (10 ^ 16) 1) (f 1 1))) = true
  /\ sameNumber (add (ofZ (2 ^ 53)) (ofZ 3))
       (ofFloat (PrimFloat.add (f (2 ^ 53) 1) (f 3 1))) = true
  /\ sameNumber (div (q 1 (2 ^ 60)) (ofQ (pow2 1014)))
       (ofFloat (PrimFloat.div (f 1 (2 ^ 60))
                   (FloatOps.Z.ldexp (f 1 1) 1014))) = true
  /\ sameNumber (div (q 3 (2 ^ 61)) (ofQ (pow2 1014)))
       (ofFloat (PrimFloat.div (f 3 (2 ^ 61))
                   (FloatOps.Z.ldexp (f 1 1) 1014))) = true
  /\ sameNumber (div (q 5 (2 ^ 61)) (ofQ (pow2 1014)))
       (ofFloat (PrimFloat.div (f 5 (2 ^ 61))
                   (FloatOps.Z.ldexp (f 1 1) 1014))) = true
  /\ sameNumber (sub (q 1 10) (q 3 10))
       (ofFloat (PrimFloat.sub (f 1 10) (f 3 10))) = true
  /\ sameNumber (mul (ofQ (pow2 1000)) (ofQ (pow2 24)))
       (ofFloat (PrimFloat.mul (FloatOps.Z.ldexp (f 1 1) 1000)
                   (FloatOps.Z.ldexp (f 1 1) 24))) = true
  /\ sameNumber (div (q 1 1) (q 0 1))
       (ofFloat (PrimFloat.div (f 1 1) (f 0 1))) = true
  /\ sameNumber (div (q 0 1) (q 0 1))
       (ofFloat (PrimFloat.div (f 0 1) (f 0 1))) = true.
Proof. vm_compute. repeat split. Qed.


(** The integer nearest to [x] is within a half of it. *)
Lemma nearestEven_near x :
  (inject_Z (nearestEven x) - (1 # 2) <= x)%Q
  /\ (x <= inject_Z (nearestEven x) + (1 # 2))%Q.
Proof.
  unfold nearestEven.
  pose proof (Qfloor_le x) as Hlo. pose proof (Qlt_floor x) as Hhi.
  rewrite inject_Z_plus in Hhi. change (inject_Z 1) with 1%Q in Hhi.
  set (F := Qfloor x) in *.
  destruct (Qcompare_spec (x - inject_Z F) (1 # 2)) as [E | E | E].
  - destruct (Z.even F).
    + split; lra.
    + rewrite inject_Z_plus. change (inject_Z 1) with 1%Q. split; lra.
  - split; lra.
  - rewrite inject_Z_plus. change (inject_Z 1) with 1%Q. split; lra.
Qed.

(** The quotient of the integers [A] and [w], scaled by [T] to 53 bits and
    rounded to the integer [N], still floors as the quotient does. *)
Lemma scaled_quotient_floor (A w T N : Z) :
  0 < w -> 0 <= A < 2 ^ 53 -> 0 < T -> 2 ^ 52 * w <= A * T ->
  2 * N * w <= 2 * A * T + w -> 2 * A * T <= 2 * N * w + w ->
  N / T = A / w /\ (- N) / T = (- A) / w /\ 0 <= N <= 2 ^ 53 * T.
Proof.
  intros Hw HA HT Hx H1 H2.
  assert (HwT : w < 2 * T) by nia.
  pose proof (Z.div_mod A w ltac:(lia)) as EA.
  pose proof (Z.mod_pos_bound A w Hw) as RA.
  set (K := A / w) in *. set (R := A mod w) in *.
  assert (Lo : K * T <= N).
  { destruct (Z.le_gt_cases (K * T) N) as [H | H]; [exact H |]. exfalso.
    assert (N + 1 <= K * T) by lia.
    assert ((N + 1) * w <= K * T * w) by nia.
    assert (K * w * T <= A * T) by nia. nia. }
  assert (Hi : N < (K + 1) * T).
  { destruct (Z.lt_ge_cases N ((K + 1) * T)) as [H | H]; [exact H |]. exfalso.
    assert ((K + 1) * T * w <= N * w) by nia.
    assert (A + 1 <= (K + 1) * w) by nia.
    assert ((A + 1) * T <= (K + 1) * w * T) by nia. nia. }
  split; [| split].
  - symmetry. apply Z.div_unique with (N - K * T); [lia | ring].
  - pose proof (Z.div_mod (- A) w ltac:(lia)) as EB.
    pose proof (Z.mod_pos_bound (- A) w Hw) as RB.
    set (K' := (- A) / w) in *. set (R' := (- A) mod w) in *.
    symmetry. apply Z.div_unique with (- N - K' * T); [| ring].
    left. split.
    + destruct (Z.le_gt_cases (K' * T) (- N)) as [H | H]; [lia |]. exfalso.
      assert (- N + 1 <= K' * T) by lia.
      assert (K' * w <= - A) by lia.
      assert ((- K') * T * w + w <= N * w) by nia.
      assert (A * T <= (- K') * w * T) by nia. nia.
    + destruct (Z.lt_ge_cases (- N) ((K' + 1) * T)) as [H | H]; [lia |].
      exfalso.
      assert (N <= - (K' + 1) * T) by lia.
      assert (N * w <= - (K' + 1) * T * w) by nia.
      assert (- A + 1 <= (K' + 1) * w) by lia.
      assert ((- (K' + 1)) * w * T + T <= A * T) by nia. nia.
  - split; [nia |].
    assert (K + 1 <= 2 ^ 53) by nia. nia.
Qed.

Lemma Qnum_pos q : 0 < Qnum q <-> (0 < q)%Q.
Proof. unfold Qlt. cbn. lia. Qed.

Lemma quotient_sign (n w : Z) :
  0 < w -> ((0 < inject_Z n / inject_Z w)%Q <-> 0 < n).
Proof.
  intros Hw.
  assert (Qw : (0 < inject_Z w)%Q) by (unfold Qlt; cbn; lia).
  split.
  - intros H. apply (Qmult_lt_compat_r _ _ _ Qw) in H.
    assert (E : inject_Z n / inject_Z w * inject_Z w == inject_Z n)
      by (field; lra).
    rewrite E in H. unfold Qlt in H. cbn in H. lia.
  - intros H. apply Qlt_shift_div_l; [exact Qw |].
    unfold Qlt. cbn. lia.
Qed.

Lemma pow2_neg s : 0 <= s -> pow2 (- s) == / inject_Z (2 ^ s).
Proof.
  intros H. unfold pow2. rewrite Qpower_opp.
  now rewrite <- (Zpower_Qpower 2 s H).
Qed.

(** The quotient of two integers of less than 53 bits, rounded, floors as
    the quotient itself. *)
Lemma round_quotient (n w : Z) :
  0 < w < 2 ^ 53 -> Z.abs n < 2 ^ 53 ->
  exists r, round (inject_Z n / inject_Z w) = Num r /\ Qfloor r = n / w.
Proof.
  intros Hw Hn. unfold round.
  set (q := (inject_Z n / inject_Z w)%Q).
  pose proof (Qred_correct q) as Hred. set (q0 := Qred q) in *.
  assert (Qw : (0 < inject_Z w)%Q) by (unfold Qlt; cbn; lia).
  destruct (Qeq_bool q0 0) eqn:Ez.
  { exists 0%Q. split; [reflexivity |].
    apply Qeq_bool_iff in Ez. rewrite Hred in Ez.
    assert (E0 : n = 0).
    { assert (E : q * inject_Z w == inject_Z n) by (unfold q; field; lra).
      rewrite Ez in E. unfold Qeq in E. cbn in E. lia. }
    subst n. reflexivity. }
  assert (Hnz : n <> 0).
  { intros ->. assert (E : q0 == 0).
    { rewrite Hred. unfold q. change (inject_Z 0) with 0%Q. field. lra. }
    apply Qeq_bool_iff in E. congruence. }
  set (A := Z.abs n).
  assert (HA : 1 <= A < 2 ^ 53) by (unfold A; lia).
  set (a := Qabs q0).
  assert (Ha : a == inject_Z A / inject_Z w).
  { unfold a. rewrite (Qabs_wd _ _ Hred).
    destruct (Z.lt_trichotomy n 0) as [Hneg | [H0 | Hpos]]; [| lia |].
    - rewrite Qabs_neg.
      + unfold q, A. rewrite Z.abs_neq by lia. rewrite inject_Z_opp.
        field. lra.
      + apply Qnot_lt_le. intros H. apply (quotient_sign n w) in H; lia.
    - rewrite Qabs_pos.
      + unfold q, A. now rewrite Z.abs_eq by lia.
      + apply Qlt_le_weak. apply (quotient_sign n w); lia. }
  assert (Hapos : (0 < a)%Q).
  { rewrite Ha. apply (quotient_sign A w); lia. }
  destruct (ilog2_spec a Hapos) as [Hlo Hhi].
  set (lg := ilog2 a) in *.
  assert (Hlg1 : lg < 53).
  { apply pow2_lt_inv. eapply Qle_lt_trans; [exact Hlo |].
    rewrite Ha, (pow2_Z 53) by lia.
    apply Qlt_shift_div_r; [exact Qw |].
    rewrite <- inject_Z_mult, <- Zlt_Qlt. nia. }
  assert (Hlg2 : - 53 <= lg).
  { assert (H : - 53 < lg + 1); [| lia].
    apply pow2_lt_inv. eapply Qle_lt_trans; [| exact Hhi].
    rewrite Ha. replace (- 53) with (- (53)) by lia.
    rewrite pow2_neg by lia.
    apply Qle_shift_div_l; [exact Qw |].
    assert (P : (0 < inject_Z (2 ^ 53))%Q) by reflexivity.
    apply Qle_trans with 1%Q; [| change 1%Q with (inject_Z 1);
                                 rewrite <- Zle_Qle; lia].
    rewrite Qmult_comm. apply Qle_shift_div_r; [exact P |].
    rewrite Qmult_1_l, <- Zle_Qle. lia. }
  replace (Z.max (lg - 52) (-1074)) with (- (52 - lg)) by lia.
  set (s := 52 - lg). assert (Hs : 0 <= s) by (unfold s; lia).
  set (T := 2 ^ s).
  assert (HT : 0 < T) by (apply Z.pow_pos_nonneg; lia).
  assert (QT : (0 < inject_Z T)%Q) by (unfold Qlt; cbn; lia).
  assert (Ek : pow2 (- s) == / inject_Z T) by (apply pow2_neg; exact Hs).
  set (x := (a / pow2 (- s))%Q).
  assert (Ex : x == inject_Z (A * T) / inject_Z w).
  { unfold x. rewrite Ek, Ha, inject_Z_mult. field. split; lra. }
  destruct (nearestEven_near x) as [N1 N2].
  set (N := nearestEven x) in *.
  assert (Exw : x * inject_Z w == inject_Z (A * T)).
  { rewrite Ex. field. lra. }
  assert (Z1 : 2 * N * w <= 2 * A * T + w).
  { rewrite Zle_Qle.
    assert (M := Qmult_le_compat_r _ _ (inject_Z w) N1 ltac:(lra)).
    replace (2 * A * T + w) with (2 * (A * T) + w) by ring.
    rewrite !inject_Z_plus, !inject_Z_mult.
    rewrite inject_Z_mult in Exw. change (inject_Z 2) with 2%Q.
    nra. }
  assert (Z2 : 2 * A * T <= 2 * N * w + w).
  { rewrite Zle_Qle.
    assert (M := Qmult_le_compat_r _ _ (inject_Z w) N2 ltac:(lra)).
    replace (2 * A * T) with (2 * (A * T)) by ring.
    rewrite !inject_Z_plus, !inject_Z_mult.
    rewrite inject_Z_mult in Exw. change (inject_Z 2) with 2%Q.
    nra. }
  assert (Z3 : 2 ^ 52 * w <= A * T).
  { rewrite Zle_Qle, inject_Z_mult, <- Exw.
    apply Qmult_le_compat_r; [| lra].
    unfold x. rewrite <- (pow2_Z 52) by lia.
    apply Qle_shift_div_l; [apply pow2_pos |].
    rewrite <- pow2_add. replace (52 + - s) with lg by (unfold s; lia).
    exact Hlo. }
  destruct (scaled_quotient_floor A w T N ltac:(lia) ltac:(lia) HT Z3 Z1 Z2)
    as (D1 & D2 & HN).
  set (r := (inject_Z N * pow2 (- s))%Q).
  assert (Er : r == inject_Z N / inject_Z T).
  { unfold r. rewrite Ek. field. lra. }
  assert (Hno : Qle_bool (pow2 1024) r = false).
  { destruct (Qle_bool _ _) eqn:E; [| reflexivity]. exfalso.
    apply Qle_bool_iff in E. rewrite Er in E.
    assert (B : (inject_Z N / inject_Z T <= inject_Z (2 ^ 53))%Q).
    { apply Qle_shift_div_r; [exact QT |].
      rewrite <- inject_Z_mult, <- Zle_Qle. lia. }
    assert (C : (inject_Z (2 ^ 53) < pow2 1024)%Q) by reflexivity.
    lra. }
  rewrite Hno.
  destruct (Z.ltb_spec 0 (Qnum q0)) as [Hp | Hp].
  - eexists. split; [reflexivity |].
    assert (Hpos : 0 < n).
    { apply (quotient_sign n w); [lia |]. fold q. rewrite <- Hred.
      now apply Qnum_pos. }
    rewrite (Qfloor_comp _ _ (Qred_correct r)), (Qfloor_comp _ _ Er).
    rewrite <- Zdiv_Qdiv, D1. unfold A. now rewrite Z.abs_eq by lia.
  - eexists. split; [reflexivity |].
    assert (Hneg : n < 0).
    { destruct (Z.lt_trichotomy n 0) as [H | [H | H]]; [exact H | lia |].
      exfalso. apply (quotient_sign n w) in H; [| lia]. fold q in H.
      rewrite <- Hred in H. apply Qnum_pos in H. lia. }
    rewrite (Qfloor_comp _ _ (Qred_correct (- r))).
    assert (Er' : - r == inject_Z (- N) / inject_Z T).
    { rewrite Er, inject_Z_opp. field. lra. }
    rewrite (Qfloor_comp _ _ Er'), <- Zdiv_Qdiv, D2.
    unfold A. rewrite Z.abs_neq by lia. now rewrite Z.opp_involutive.
Qed.

Lemma div_floor a b n w :
  numberIs a (inject_Z n) -> numberIs b (inject_Z w) ->
  0 < w < 2 ^ 53 -> Z.abs n < 2 ^ 53 ->
  toIndex (floor (div a b)) = Some (n / w).
Proof.
  destruct a as [p| | |], b as [q| | |]; cbn [numberIs]; try tauto.
  intros Hp Hq Hw Hn. cbn [div].
  destruct (Qeq_bool q 0) eqn:E.
  { apply Qeq_bool_iff in E. rewrite Hq in E. unfold Qeq in E. cbn in E.
    lia. }
  rewrite (round_proper (p / q) (inject_Z n / inject_Z w))
    by now rewrite Hp, Hq.
  destruct (round_quotient n w Hw Hn) as (r & -> & Hr).
  cbn [floor toIndex]. now rewrite Qfloor_Z, Hr.
Qed.

End DoubleFacts.

(** ** The lattice *)

Module GridFacts.
Import GridManager GridProps.

Lemma isValidCoordinate_iff gm row col :
  isValidCoordinate gm row col = true
  <-> 0 <= row < rows gm /\ 0 <= col < cols gm.
Proof. unfold isValidCoordinate. rewrite !andb_true_iff. lia. Qed.

Lemma getCell_Some gm row col cell :
  getCell gm row col = Some cell
  <-> isValidCoordinate gm row col = true
      /\ cellAt (_grid gm) row col = Some cell.
Proof.
  unfold getCell. destruct (isValidCoordinate gm row col); simpl; split;
    intros H; try tauto; try discriminate.
  destruct H; discriminate.
Qed.

Lemma getCell_wellFormed gm row col :
  wellFormed gm -> isValidCoordinate gm row col = true ->
  exists cell,
    getCell gm row col = Some cell /\ coordinate cell = mkCoord row col.
Proof.
  intros Hwf Hv. destruct (Hwf row col Hv) as (cell & Hc & Hco).
  exists cell. split; [| exact Hco]. apply getCell_Some; auto.
Qed.

Lemma cellAt_alter_same cells row col f :
  cellAt (alter (alter f (Z.to_nat col)) (Z.to_nat row) cells) row col
  = f <$> cellAt cells row col.
Proof.
  unfold cellAt. rewrite list_lookup_alter_eq.
  destruct (cells !! Z.to_nat row) as [line|]; simpl; [| reflexivity].
  apply list_lookup_alter_eq.
Qed.

Lemma cellAt_alter_other cells row col row' col' f :
  0 <= row -> 0 <= col -> 0 <= row' -> 0 <= col' ->
  (row', col') <> (row, col) ->
  cellAt (alter (alter f (Z.to_nat col)) (Z.to_nat row) cells) row' col'
  = cellAt cells row' col'.
Proof.
  intros Hr Hc Hr' Hc' Hne. unfold cellAt.
  destruct (decide (Z.to_nat row = Z.to_nat row')) as [E | E].
  - rewrite <- E, list_lookup_alter_eq.
    destruct (cells !! Z.to_nat row) as [line|]; simpl; [| reflexivity].
    apply list_lookup_alter_ne. intros E2.
    apply Hne. f_equal; lia.
  - now rewrite list_lookup_alter_ne.
Qed.

Lemma cellAt_alter_cases cells i j f row col :
  cellAt (alter (alter f j) i cells) row col = cellAt cells row col
  \/ cellAt (alter (alter f j) i cells) row col = f <$> cellAt cells row col.
Proof.
  unfold cellAt. rewrite list_lookup_alter.
  destruct (decide (i = Z.to_nat row)) as [-> |]; [| now left].
  destruct (cells !! Z.to_nat row) as [line|]; simpl; [| now left].
  rewrite list_lookup_alter.
  destruct (decide (j = Z.to_nat col)) as [-> |]; [now right | now left].
Qed.

Lemma isValidCoordinate_updateCell gm row col f row' col' :
  isValidCoordinate (updateCell gm row col f) row' col'
  = isValidCoordinate gm row' col'.
Proof. reflexivity. Qed.

Lemma getCell_updateCell_same gm row col f :
  getCell (updateCell gm row col f) row col = f <$> getCell gm row col.
Proof.
  unfold getCell. rewrite isValidCoordinate_updateCell.
  destruct (isValidCoordinate gm row col); simpl; [| reflexivity].
  apply cellAt_alter_same.
Qed.

Lemma getCell_updateCell_other gm row col f row' col' :
  isValidCoordinate gm row col = true ->
  (row', col') <> (row, col) ->
  getCell (updateCell gm row col f) row' col' = getCell gm row' col'.
Proof.
  intros Hv Hne. unfold getCell. rewrite isValidCoordinate_updateCell.
  destruct (isValidCoordinate gm row' col') eqn:Hv'; simpl; [| reflexivity].
  apply isValidCoordinate_iff in Hv, Hv'.
  apply cellAt_alter_other; lia || assumption.
Qed.

(** Well-formedness: established by [initializeGrid], kept by the mutators. *)

Lemma wellFormed_updateCell gm row col f :
  (forall cell, coordinate (f cell) = coordinate cell) ->
  wellFormed gm -> wellFormed (updateCell gm row col f).
Proof.
  intros Hf Hwf row' col' Hv'.
  rewrite isValidCoordinate_updateCell in Hv'.
  destruct (Hwf row' col' Hv') as (cell & Hc & Hco). simpl.
  destruct (cellAt_alter_cases (_grid gm) (Z.to_nat row) (Z.to_nat col) f
              row' col') as [E | E]; rewrite E, Hc.
  - eauto.
  - exists (f cell). split; [reflexivity |]. now rewrite Hf.
Qed.

Lemma cellAt_initializeGrid gm row col :
  isValidCoordinate gm row col = true ->
  cellAt (_grid (initializeGrid gm)) row col
  = Some (createGridCell gm row col).
Proof.
  intros Hv. apply isValidCoordinate_iff in Hv. unfold cellAt. simpl.
  rewrite list_lookup_fmap, (lookup_seqZ_lt 0 (rows gm)) by lia. simpl.
  rewrite list_lookup_fmap, (lookup_seqZ_lt 0 (cols gm)) by lia. simpl.
  now rewrite !Z2Nat.id by lia.
Qed.

Lemma getCell_initializeGrid gm row col :
  isValidCoordinate gm row col = true ->
  getCell (initializeGrid gm) row col = Some (createGridCell gm row col).
Proof.
  intros Hv. apply getCell_Some. split; [exact Hv |].
  now apply cellAt_initializeGrid.
Qed.

Lemma configureCellByType_flags cell :
  flagsDerived (configureCellByType cell).
Proof.
  unfold flagsDerived, configureCellByType.
  destruct (cellType cell) eqn:E; cbn; now rewrite E.
Qed.

Lemma configureCellByType_frame cell :
  configureCellByType cell
  = mkCell (coordinate cell) (worldPosition cell) (localPosition cell)
      (occupied cell) (occupant cell) (cellType cell)
      (derivationTable (cellType cell)).1 (derivationTable (cellType cell)).2
      (data cell).
Proof.
  unfold configureCellByType. destruct cell as [? ? ? ? ? t ? ? ?].
  now destruct t.
Qed.

Lemma wellFormed_initializeGrid gm : wellFormed (initializeGrid gm).
Proof.
  intros row col Hv. exists (createGridCell gm row col). split.
  - now apply cellAt_initializeGrid.
  - unfold createGridCell. now rewrite configureCellByType_frame.
Qed.

Lemma wellFormed_setCellOccupied gm row col o :
  wellFormed gm -> wellFormed (setCellOccupied gm row col o).1.2.
Proof.
  intros Hwf. unfold setCellOccupied.
  destruct (getCell gm row col) as [cell|]; [| exact Hwf].
  destruct (_ && occupied cell); [exact Hwf |].
  destruct (_ && negb (buildable cell)); [exact Hwf |].
  now apply wellFormed_updateCell.
Qed.

Lemma wellFormed_setCellType gm row col t :
  wellFormed gm -> wellFormed (setCellType gm row col t).1.2.
Proof.
  intros Hwf. unfold setCellType.
  destruct (getCell gm row col) as [cell|]; [| exact Hwf].
  apply wellFormed_updateCell; [| exact Hwf].
  intros c. now rewrite configureCellByType_frame.
Qed.

Lemma setCellType_true gm row col t gm' evs :
  setCellType gm row col t = (true, gm', evs) ->
  exists cell, getCell gm row col = Some cell
    /\ gm' = updateCell gm row col
               (fun cell => configureCellByType (with_cellType cell t))
    /\ evs = [GridCellTypeChanged (mkCoord row col) t].
Proof.
  unfold setCellType. destruct (getCell gm row col) as [cell|]; intros H;
    inversion H; subst. eauto.
Qed.

Lemma occupant_given (o : Node) : bool_decide (Some o <> None) = true.
Proof. now apply bool_decide_eq_true_2. Qed.

Lemma occupant_null : bool_decide (@None Node <> None) = false.
Proof. apply bool_decide_eq_false_2. now intros H. Qed.

Lemma seqZ_nonpos m n : n <= 0 -> seqZ m n = [].
Proof.
  intros Hle. destruct (seqZ m n) eqn:E; [reflexivity |].
  apply (f_equal length) in E. rewrite length_seqZ in E. simpl in E. lia.
Qed.

Lemma initializeGrid_shape gm :
  length (_grid (initializeGrid gm)) = Z.to_nat (rows gm)
  /\ Forall (fun line => length line = Z.to_nat (cols gm))
       (_grid (initializeGrid gm))
  /\ (rows gm <= 0 -> _grid (initializeGrid gm) = [])
  /\ (cols gm <= 0 ->
      Forall (fun line => line = []) (_grid (initializeGrid gm))).
Proof.
  unfold initializeGrid, with_grid. cbn [_grid]. repeat split.
  - now rewrite length_map, length_seqZ.
  - apply Forall_forall. intros line Hin.
    apply list_elem_of_fmap in Hin as (r & -> & _).
    now rewrite length_map, length_seqZ.
  - intros Hle. now rewrite (seqZ_nonpos 0 (rows gm)).
  - intros Hle. apply Forall_forall. intros line Hin.
    apply list_elem_of_fmap in Hin as (r & -> & _).
    now rewrite (seqZ_nonpos 0 (cols gm)).
Qed.

(** *** Coordinate round trip *)











(** *** Derived flags *)

(** C3.  The walkable and buildable flags of a cell are exactly the entry
    of the fixed table for its cell type (Spawn, Goal, Path: walkable only;
    PlantZone: buildable only; Obstacle: neither; Empty, Special: both):
    configureCellByType produces them and leaves the type alone, every cell
    of a freshly built lattice has them, setCellType recomputes them for the
    new type, and it keeps them on all other cells. *)
Theorem flags_follow_derivation_table :
  (forall cell,
     flagsDerived (configureCellByType cell)
     /\ cellType (configureCellByType cell) = cellType cell)
  /\ (forall gm row col cell,
        getCell (initializeGrid gm) row col = Some cell -> flagsDerived cell)
  /\ (forall gm row col t gm' evs,
        setCellType gm row col t = (true, gm', evs) ->
        exists cell',
          getCell gm' row col = Some cell' /\ cellType cell' = t
          /\ (walkable cell', buildable cell') = derivationTable t)
  /\ (forall gm row col t gm' evs,
        (forall r c cell, getCell gm r c = Some cell -> flagsDerived cell) ->
        setCellType gm row col t = (true, gm', evs) ->
        forall r c cell, getCell gm' r c = Some cell -> flagsDerived cell).
Proof.
  split; [| split; [| split]].
  - intros cell. split; [apply configureCellByType_flags |].
    now rewrite configureCellByType_frame.
  - intros gm row col cell H.
    assert (Hv : isValidCoordinate gm row col = true).
    { apply getCell_Some in H. tauto. }
    rewrite (getCell_initializeGrid _ _ _ Hv) in H. inversion H; subst.
    apply configureCellByType_flags.
  - intros gm row col t gm' evs H.
    apply setCellType_true in H as (cell & Hc & -> & _).
    rewrite getCell_updateCell_same, Hc. simpl.
    eexists; split; [reflexivity |].
    rewrite configureCellByType_frame. simpl. split; [reflexivity |].
    now destruct (derivationTable t).
  - intros gm row col t gm' evs Hall H r c cell Hg.
    apply setCellType_true in H as (cell0 & Hc & -> & _).
    destruct (decide ((r, c) = (row, col))) as [E | E].
    + inversion E; subst.
      rewrite getCell_updateCell_same, Hc in Hg. inversion Hg; subst.
      apply configureCellByType_flags.
    + rewrite getCell_updateCell_other in Hg; eauto.
      apply getCell_Some in Hc. tauto.
Qed.

Lemma flags_follow_derivation_table_witness :
  exists gm' evs cell',
    setCellType grid5x9 1 1 OBSTACLE = (true, gm', evs)
    /\ getCell gm' 1 1 = Some cell' /\ cellType cell' = OBSTACLE
    /\ (walkable cell', buildable cell') = (false, false).
Proof.
  destruct (setCellType grid5x9 1 1 OBSTACLE) as [[ok gm'] evs] eqn:E.
  assert (Hok : ok = true) by (now inversion E). subst ok.
  destruct flags_follow_derivation_table as (_ & _ & H & _).
  destruct (H grid5x9 1 1 OBSTACLE gm' evs E) as (cell' & Hc & Ht & Hf).
  exists gm', evs, cell'. auto.
Defined.

(** *** Occupancy *)

(** C4.  On a well-formed grid, setCellOccupied with a non-null occupant
    returns true exactly when the coordinate is valid and its cell is
    buildable and not occupied; it then marks the cell occupied by that
    occupant, and otherwise returns false, leaves the grid as it was and
    emits nothing.  With a null occupant it succeeds on every valid
    coordinate and clears the occupancy.  canPlaceAt is true exactly when
    the non-null call succeeds. *)
Theorem setCellOccupied_agrees_with_canPlaceAt
  gm row col (o : Node) ok gm' evs :
  wellFormed gm ->
  setCellOccupied gm row col (Some o) = (ok, gm', evs) ->
  (ok = true
   <-> isValidCoordinate gm row col = true
       /\ exists cell, getCell gm row col = Some cell
                       /\ buildable cell = true /\ occupied cell = false)
  /\ (ok = true ->
      exists cell', getCell gm' row col = Some cell'
                    /\ occupied cell' = true /\ occupant cell' = Some o)
  /\ (ok = false -> gm' = gm /\ evs = [])
  /\ (isValidCoordinate gm row col = true ->
      exists gm0 evs0 cell0,
        setCellOccupied gm row col None = (true, gm0, evs0)
        /\ getCell gm0 row col = Some cell0
        /\ occupied cell0 = false /\ occupant cell0 = None)
  /\ (canPlaceAt gm row col = JsBool true <-> ok = true).
Proof.
  intros Hwf Hset. unfold setCellOccupied, canPlaceAt in *.
  rewrite occupant_given in Hset. rewrite ?occupant_null.
  destruct (getCell gm row col) as [cell|] eqn:Hc.
  - assert (Hv : isValidCoordinate gm row col = true).
    { apply getCell_Some in Hc. tauto. }
    assert (Hclear :
      exists gm0 evs0 cell0,
        (true, updateCell gm row col (fun cell => with_occupant cell None),
         [GridCellOccupied (mkCoord row col) false None])
        = (true, gm0, evs0)
        /\ getCell gm0 row col = Some cell0
        /\ occupied cell0 = false /\ occupant cell0 = None).
    { do 3 eexists. split; [reflexivity |].
      rewrite getCell_updateCell_same, Hc. simpl.
      rewrite ?occupant_null. eauto. }
    simpl in *.
    destruct (occupied cell) eqn:Ho, (buildable cell) eqn:Hb; simpl in *;
      inversion Hset; subst; clear Hset.
    + repeat split; try discriminate; auto.
      intros (_ & cell0 & E & _ & Hocc). congruence.
    + repeat split; try discriminate; auto.
      intros (_ & cell0 & E & _ & Hocc). congruence.
    + repeat split; auto; try discriminate.
      * eauto.
      * intros _. rewrite getCell_updateCell_same, Hc. simpl.
        rewrite ?occupant_given. eauto.
    + repeat split; try discriminate; auto.
      intros (_ & cell0 & E & Hbb & _). congruence.
  - inversion Hset; subst; clear Hset.
    repeat split; try discriminate; auto.
    + intros (_ & cell0 & E & _). discriminate.
    + intros Hv. destruct (getCell_wellFormed _ _ _ Hwf Hv) as (c0 & E & _).
      congruence.
Qed.

Lemma setCellOccupied_agrees_with_canPlaceAt_witness :
  wellFormed grid5x9
  /\ (setCellOccupied grid5x9 2 3 (Some 7%positive)).1.1 = true
  /\ (canPlaceAt grid5x9 2 3 = JsBool true
      <-> (setCellOccupied grid5x9 2 3 (Some 7%positive)).1.1 = true).
Proof.
  split; [apply wellFormed_initializeGrid |]. split; [reflexivity |].
  destruct (setCellOccupied grid5x9 2 3 (Some 7%positive))
    as [[ok gm'] evs] eqn:E.
  apply (setCellOccupied_agrees_with_canPlaceAt grid5x9 2 3 7%positive
           ok gm' evs (wellFormed_initializeGrid declared) E).
Defined.

(** C10.  setCellType on a coordinate that holds a cell succeeds, emits the
    type-changed event, and rewrites only cellType, walkable and buildable
    of that cell: its occupied flag, occupant, coordinate, positions and
    data, every other cell and the configuration are as before.  Hence an
    occupied cell turned into an Obstacle stays occupied by the same
    occupant while it is no longer buildable. *)
Theorem setCellType_keeps_occupancy gm row col cell :
  getCell gm row col = Some cell ->
  (forall t, exists gm',
      setCellType gm row col t
      = (true, gm', [GridCellTypeChanged (mkCoord row col) t])
      /\ getCell gm' row col
         = Some (mkCell (coordinate cell) (worldPosition cell)
                   (localPosition cell) (occupied cell) (occupant cell) t
                   (derivationTable t).1 (derivationTable t).2 (data cell))
      /\ (forall row' col', (row', col') <> (row, col) ->
            getCell gm' row' col' = getCell gm row' col')
      /\ rows gm' = rows gm /\ cols gm' = cols gm
      /\ cellWidth gm' = cellWidth gm /\ cellHeight gm' = cellHeight gm
      /\ startPosition gm' = startPosition gm)
  /\ (occupied cell = true ->
      exists gm' evs cell',
        setCellType gm row col OBSTACLE = (true, gm', evs)
        /\ getCell gm' row col = Some cell'
        /\ occupied cell' = true /\ occupant cell' = occupant cell
        /\ buildable cell' = false
        /\ canPlaceAt gm' row col = JsBool false).
Proof.
  intros Hc.
  assert (Hv : isValidCoordinate gm row col = true).
  { apply getCell_Some in Hc. tauto. }
  assert (Hnew : forall t,
    getCell (updateCell gm row col
               (fun cell => configureCellByType (with_cellType cell t)))
      row col
    = Some (mkCell (coordinate cell) (worldPosition cell)
              (localPosition cell) (occupied cell) (occupant cell) t
              (derivationTable t).1 (derivationTable t).2 (data cell))).
  { intros t. rewrite getCell_updateCell_same, Hc. simpl.
    now rewrite configureCellByType_frame. }
  split.
  - intros t. eexists. unfold setCellType. rewrite Hc.
    split; [reflexivity |]. split; [apply Hnew |].
    split; [| now repeat split].
    intros row' col' Hne. now apply getCell_updateCell_other.
  - intros Hocc. do 3 eexists. unfold setCellType, canPlaceAt. rewrite Hc.
    split; [reflexivity |]. rewrite Hnew. simpl. rewrite Hocc.
    repeat split; reflexivity.
Qed.

Lemma setCellType_keeps_occupancy_witness :
  let planted := (setCellOccupied grid5x9 2 3 (Some 7%positive)).1.2 in
  exists gm' evs cell',
    setCellType planted 2 3 OBSTACLE = (true, gm', evs)
    /\ getCell gm' 2 3 = Some cell'
    /\ occupied cell' = true /\ occupant cell' = Some 7%positive
    /\ buildable cell' = false
    /\ canPlaceAt gm' 2 3 = JsBool false.
Proof.
  intros planted.
  destruct (getCell planted 2 3) as [cell|] eqn:Hc; [| discriminate Hc].
  destruct (setCellType_keeps_occupancy planted 2 3 cell Hc) as [_ H].
  assert (Hocc : occupied cell = true).
  { vm_compute in Hc. now inversion Hc. }
  destruct (H Hocc) as (gm' & evs & cell' & E & Eg & Eo & Eoc & Eb & Ep).
  exists gm', evs, cell'. repeat split; auto.
  rewrite Eoc. vm_compute in Hc. now inversion Hc.
Defined.

(** *** Reconfiguration *)

(** C8, as stated, fails: reconfiguring the declared 5 x 9 grid with
    rows = 0 is not rejected; the new row count is stored and the lattice is
    rebuilt, empty. *)
Lemma reconfigureGrid_zero_rows_applied :
  let gm' := reconfigureGrid grid5x9 (onlyRows 0) in
  rows grid5x9 = 5 /\ length (_grid grid5x9) = 5%nat
  /\ rows gm' = 0 /\ _grid gm' = [] /\ gm' <> grid5x9.
Proof.
  cbv zeta. repeat split; try reflexivity.
  intros E. apply (f_equal rows) in E. discriminate E.
Qed.

(** C8, amended.  reconfigureGrid checks nothing and cannot fail: every
    supplied field, whatever its sign, replaces the stored one, and the
    lattice is rebuilt from scratch for the resulting configuration, one
    fresh cell per valid coordinate; it is empty when rows <= 0 and made of
    empty rows when cols <= 0. *)
Theorem reconfigureGrid_applies_unchecked gm config :
  let gm' := reconfigureGrid gm config in
  rows gm' = default (rows gm) (cfg_rows config)
  /\ cols gm' = default (cols gm) (cfg_cols config)
  /\ cellWidth gm' = default (cellWidth gm) (cfg_cellWidth config)
  /\ cellHeight gm' = default (cellHeight gm) (cfg_cellHeight config)
  /\ startPosition gm' = default (startPosition gm) (cfg_startPosition config)
  /\ wellFormed gm'
  /\ (forall row col,
        isValidCoordinate gm' row col = true ->
        getCell gm' row col = Some (createGridCell gm' row col))
  /\ length (_grid gm') = Z.to_nat (rows gm')
  /\ Forall (fun line => length line = Z.to_nat (cols gm')) (_grid gm')
  /\ (rows gm' <= 0 -> _grid gm' = [])
  /\ (cols gm' <= 0 -> Forall (fun line => line = []) (_grid gm')).
Proof.
  cbv zeta. unfold reconfigureGrid.
  set (gm1 := mkGrid _ _ _ _ _ _ _ _ _ _).
  destruct (initializeGrid_shape gm1) as (H1 & H2 & H3 & H4).
  repeat split; try assumption.
  - apply wellFormed_initializeGrid.
  - intros row col Hv. apply (getCell_initializeGrid gm1 row col Hv).
Qed.

Lemma reconfigureGrid_applies_unchecked_witness :
  rows (reconfigureGrid grid5x9 (onlyRows 0)) <= 0
  /\ _grid (reconfigureGrid grid5x9 (onlyRows 0)) = [].
Proof.
  assert (Hle : rows (reconfigureGrid grid5x9 (onlyRows 0)) <= 0).
  { simpl. lia. }
  split; [exact Hle |].
  destruct (reconfigureGrid_applies_unchecked grid5x9 (onlyRows 0))
    as (_ & _ & _ & _ & _ & _ & _ & _ & _ & H & _).
  exact (H Hle).
Defined.

(** *** Neighbours *)

(** C9, as stated, fails: with diagonals requested the centre of a 3 x 3
    grid gets its eight neighbours row by row, so the diagonal (0,0) stands
    before the orthogonal (0,1). *)
Lemma getNeighborCells_diagonal_before_orthogonal :
  map coordinate (getNeighborCells grid3x3 1 1 true)
  = [mkCoord 0 0; mkCoord 0 1; mkCoord 0 2; mkCoord 1 0; mkCoord 1 2;
     mkCoord 2 0; mkCoord 2 1; mkCoord 2 2]
  /\ ~ orthogonalFirst 1 1
         (map coordinate (getNeighborCells grid3x3 1 1 true)).
Proof.
  split; [reflexivity |].
  intros H.
  specialize (H 0%nat 1%nat (mkCoord 0 0) (mkCoord 0 1) eq_refl eq_refl).
  assert (Hlt : (1 < 0)%nat).
  { apply H; unfold diagonalTo, orthogonalTo; simpl; lia. }
  lia.
Qed.

Lemma neighbours_along gm row col (ds : list (Z * Z)) :
  wellFormed gm ->
  let cells := omap (fun '(dr, dc) => getCell gm (row + dr) (col + dc)) ds in
  map coordinate cells = List.filter (inBounds gm) (offsetsFrom row col ds)
  /\ Forall (fun cell =>
               getCell gm (GridManager.row (coordinate cell))
                 (GridManager.col (coordinate cell)) = Some cell) cells.
Proof.
  intros Hwf. cbv zeta. induction ds as [| [dr dc] ds [IH1 IH2]].
  - split; [reflexivity | constructor].
  - simpl. unfold inBounds at 1. simpl.
    destruct (isValidCoordinate gm (row + dr) (col + dc)) eqn:Hv.
    + destruct (getCell_wellFormed _ _ _ Hwf Hv) as (cell & Hc & Hco).
      rewrite Hc. cbn [map]. split.
      * rewrite Hco. f_equal. exact IH1.
      * constructor; [| exact IH2]. now rewrite Hco.
    + assert (Hn : getCell gm (row + dr) (col + dc) = None).
      { unfold getCell. now rewrite Hv. }
      rewrite Hn. split; [exact IH1 | exact IH2].
Qed.

(** C9, amended.  On a well-formed grid getNeighborCells returns exactly
    the in-bounds neighbour cells, each the grid's own cell at its
    coordinate, in the order of the fixed direction list: up, left, right,
    down for four directions; and for eight directions the offsets row by
    row, (-1,-1) (-1,0) (-1,1) (0,-1) (0,1) (1,-1) (1,0) (1,1), diagonals
    interleaved with the orthogonal ones. *)
Theorem getNeighborCells_direction_order gm row col includeDiagonal :
  wellFormed gm ->
  directions false = [(-1,0); (0,-1); (0,1); (1,0)]
  /\ directions true
     = [(-1,-1); (-1,0); (-1,1); (0,-1); (0,1); (1,-1); (1,0); (1,1)]
  /\ map coordinate (getNeighborCells gm row col includeDiagonal)
     = List.filter (inBounds gm)
         (offsetsFrom row col (directions includeDiagonal))
  /\ Forall (fun cell =>
               getCell gm (GridManager.row (coordinate cell))
                 (GridManager.col (coordinate cell)) = Some cell)
       (getNeighborCells gm row col includeDiagonal).
Proof.
  intros Hwf. split; [reflexivity |]. split; [reflexivity |].
  apply (neighbours_along gm row col (directions includeDiagonal) Hwf).
Qed.

Lemma getNeighborCells_direction_order_witness :
  wellFormed grid3x3
  /\ map coordinate (getNeighborCells grid3x3 0 0 true)
     = [mkCoord 0 1; mkCoord 1 0; mkCoord 1 1].
Proof.
  split; [apply wellFormed_initializeGrid |].
  destruct (getNeighborCells_direction_order grid3x3 0 0 true
              (wellFormed_initializeGrid _)) as (_ & _ & H & _).
  rewrite H. reflexivity.
Defined.

End GridFacts.

(** ** Path search *)

Module PathFacts.
Import GridManager GridProps.

(** *** What findPath returns *)

(** The g-score of the start node is 0, which [|| Infinity] reads as
    Infinity: no neighbour of the start node is ever relaxed. *)
Lemma relaxNeighbor_from_zero current end_ st neighborCell :
  gScore st !! getKey current = Some (Finite 0) ->
  relaxNeighbor current end_ st neighborCell = st.
Proof.
  intros Hg. unfold relaxNeighbor. rewrite Hg.
  destruct (walkable neighborCell); reflexivity.
Qed.

Lemma relax_all_from_zero current end_ neighbors st :
  gScore st !! getKey current = Some (Finite 0) ->
  fold_left (relaxNeighbor current end_) neighbors st = st.
Proof.
  intros Hg. induction neighbors as [| n ns IH]; [reflexivity |].
  simpl. now rewrite relaxNeighbor_from_zero.
Qed.

Lemma findPath_out_of_bounds fuel gm start end_ :
  isValidCoordinate gm (row start) (col start) = false
  \/ isValidCoordinate gm (row end_) (col end_) = false ->
  findPath fuel gm start end_ = Returned None.
Proof.
  intros [H | H]; unfold findPath; rewrite H; simpl; [reflexivity |].
  now rewrite orb_true_r.
Qed.

Lemma findPath_same_cell k gm start end_ :
  isValidCoordinate gm (row start) (col start) = true ->
  isValidCoordinate gm (row end_) (col end_) = true ->
  sameCoordinate start end_ = true ->
  findPath (S k) gm start end_ = Returned (Some [start]).
Proof.
  intros Hs He Hsame. unfold findPath. rewrite Hs, He. simpl.
  rewrite Hsame. destruct k; reflexivity.
Qed.

(** Two loop turns suffice, on every grid: the first removes the start node
    and adds nothing, the second finds the open set empty. *)
Lemma findPath_distinct_cells k gm start end_ :
  isValidCoordinate gm (row start) (col start) = true ->
  isValidCoordinate gm (row end_) (col end_) = true ->
  sameCoordinate start end_ = false ->
  findPath (S (S k)) gm start end_ = Returned None.
Proof.
  intros Hs He Hdiff. unfold findPath. rewrite Hs, He.
  cbn [negb orb searchLoop openSet scanOpenSet fScore cameFrom gScore].
  rewrite Hdiff.
  rewrite relax_all_from_zero; [reflexivity |].
  cbn [gScore]. apply lookup_insert_eq.
Qed.

(** C1.  On the 1 x 2 grid as built by initializeGrid both cells are
    walkable and 4-adjacent, so the claim asks for the two-element path
    from (0,1) to (0,0); findPath returns null, after two loop turns and
    with any larger allowance. *)
Theorem findPath_adjacent_walkable_null :
  (walkable <$> getCell grid1x2 0 1) = Some true
  /\ (walkable <$> getCell grid1x2 0 0) = Some true
  /\ adjacent4 (mkCoord 0 1) (mkCoord 0 0)
  /\ forall k, findPath (2 + k) grid1x2 (mkCoord 0 1) (mkCoord 0 0)
               = Returned None.
Proof.
  split; [reflexivity |]. split; [reflexivity |]. split; [reflexivity |].
  intros k. now apply findPath_distinct_cells.
Qed.

(** *** Occupancy is invisible to the search *)

Lemma sameButOccupancy_refl cell : sameButOccupancy cell cell.
Proof. now repeat split. Qed.

Lemma sameButOccupancy_with_occupant cell o :
  sameButOccupancy cell (with_occupant cell o).
Proof. now repeat split. Qed.

Lemma relaxNeighbor_same current end_ st c1 c2 :
  sameButOccupancy c1 c2 ->
  relaxNeighbor current end_ st c1 = relaxNeighbor current end_ st c2.
Proof.
  intros (Hco & _ & _ & _ & Hw & _). unfold relaxNeighbor.
  now rewrite Hco, Hw.
Qed.

Lemma relax_all_same current end_ ns1 ns2 :
  Forall2 sameButOccupancy ns1 ns2 ->
  forall st,
    fold_left (relaxNeighbor current end_) ns1 st
    = fold_left (relaxNeighbor current end_) ns2 st.
Proof.
  induction 1 as [| c1 c2 ns1 ns2 Hc _ IH]; intros st; [reflexivity |].
  simpl. rewrite (relaxNeighbor_same _ _ _ _ _ Hc). apply IH.
Qed.

Lemma sameGrid_valid g1 g2 row col :
  sameGridButOccupancy g1 g2 ->
  isValidCoordinate g1 row col = isValidCoordinate g2 row col.
Proof.
  intros (Hr & Hc & _). unfold isValidCoordinate. now rewrite Hr, Hc.
Qed.

Lemma sameGrid_getCell g1 g2 row col :
  sameGridButOccupancy g1 g2 ->
  option_Forall2 sameButOccupancy (getCell g1 row col) (getCell g2 row col).
Proof.
  intros Hsame. unfold getCell.
  rewrite <- (sameGrid_valid g1 g2 row col Hsame).
  destruct (isValidCoordinate g1 row col); simpl; [| constructor].
  destruct Hsame as (_ & _ & _ & _ & _ & Hcells). unfold cellAt.
  pose proof (proj1 (Forall2_lookup _ _ _) Hcells (Z.to_nat row)) as Hline.
  destruct Hline as [l1 l2 Hl |]; simpl; [| constructor].
  apply (proj1 (Forall2_lookup _ _ _) Hl).
Qed.

Lemma sameGrid_neighbors g1 g2 row col includeDiagonal :
  sameGridButOccupancy g1 g2 ->
  Forall2 sameButOccupancy (getNeighborCells g1 row col includeDiagonal)
    (getNeighborCells g2 row col includeDiagonal).
Proof.
  intros Hsame. unfold getNeighborCells.
  induction (directions includeDiagonal) as [| [dr dc] ds IH]; simpl;
    [constructor |].
  destruct (sameGrid_getCell g1 g2 (row + dr) (col + dc) Hsame);
    [constructor |]; assumption.
Qed.

Lemma searchLoop_same fuel g1 g2 end_ :
  sameGridButOccupancy g1 g2 ->
  forall st, searchLoop fuel g1 end_ st = searchLoop fuel g2 end_ st.
Proof.
  intros Hsame. induction fuel as [| fuel IH]; intros st; [reflexivity |].
  cbn [searchLoop]. destruct (openSet st) as [| first rest]; [reflexivity |].
  destruct (scanOpenSet (fScore st) rest 1 first 0) as [current currentIndex].
  destruct (sameCoordinate current end_); [reflexivity |].
  rewrite (relax_all_same current end_ _ _
             (sameGrid_neighbors g1 g2 (row current) (col current) false
                Hsame)).
  apply IH.
Qed.

Lemma findPath_same fuel g1 g2 start end_ :
  sameGridButOccupancy g1 g2 ->
  findPath fuel g1 start end_ = findPath fuel g2 start end_.
Proof.
  intros Hsame. unfold findPath.
  rewrite !(sameGrid_valid g1 g2 _ _ Hsame).
  destruct (_ || _); [reflexivity |]. now apply searchLoop_same.
Qed.

Lemma sameGrid_refl gm : sameGridButOccupancy gm gm.
Proof.
  repeat split. apply Forall2_same_length_lookup_2; [reflexivity |].
  intros i l1 l2 H1 H2. rewrite H1 in H2. inversion H2; subst.
  apply Forall2_same_length_lookup_2; [reflexivity |].
  intros j c1 c2 E1 E2. rewrite E1 in E2. inversion E2; subst.
  apply sameButOccupancy_refl.
Qed.

Lemma sameGrid_setCellOccupied gm row col o :
  sameGridButOccupancy gm (setCellOccupied gm row col o).1.2.
Proof.
  unfold setCellOccupied.
  destruct (getCell gm row col) as [cell|]; [| apply sameGrid_refl].
  destruct (_ && occupied cell); [apply sameGrid_refl |].
  destruct (_ && negb (buildable cell)); [apply sameGrid_refl |].
  cbn [fst snd]. destruct (sameGrid_refl gm) as (_ & _ & _ & _ & _ & Hcells).
  repeat split. cbn [_grid updateCell with_grid].
  apply Forall2_alter_r; [exact Hcells |].
  intros l1 l2 _ _ Hl. apply Forall2_alter_r; [exact Hl |].
  intros c1 c2 _ _ (H1 & H2 & H3 & H4 & H5 & H6 & H7).
  now repeat split.
Qed.

(** What the neighbour loop does with a walkable neighbour that has no
    g-score yet, when the g-score of the current node is a number other
    than 0: the neighbour is recorded and queued. *)
Lemma relaxNeighbor_queues current end_ st cell n :
  walkable cell = true ->
  gScore st !! getKey current = Some (Finite n) -> n <> 0 ->
  gScore st !! getKey (coordinate cell) = None ->
  relaxNeighbor current end_ st cell
  = mkSearch
      (if existsb (sameCoordinate (coordinate cell)) (openSet st)
       then openSet st else openSet st ++ [coordinate cell])
      (<[getKey (coordinate cell) := current]> (cameFrom st))
      (<[getKey (coordinate cell) := Finite (n + 1)]> (gScore st))
      (<[getKey (coordinate cell) :=
           Finite (n + 1 + heuristic (coordinate cell) end_)]> (fScore st)).
Proof.
  intros Hw Hg Hn Hnew. unfold relaxNeighbor. rewrite Hw, Hg, Hnew.
  cbn [negb]. destruct n; [now contradiction Hn | reflexivity | reflexivity].
Qed.

(** C5.  The first half of the claim holds: two grids that differ at most
    in the occupied and occupant fields of their cells give the same result
    for every start, end and loop allowance, and the neighbour loop skips a
    cell exactly for not being walkable, queueing an occupied walkable
    neighbour like a free one.  The second half fails: in the corridor
    goal - occupied walkable cell - spawn the search from the spawn point to
    the goal returns null instead of the path through the occupied cell,
    because the g-score 0 of the start node is read as Infinity and the
    search never leaves the start; only a search that starts and ends on
    the occupied cell returns it. *)
Theorem findPath_never_reaches_occupied_walkable_cell :
  ((walkable <$> getCell corridor 0 0) = Some true
   /\ (walkable <$> getCell corridor 0 1) = Some true
   /\ (occupied <$> getCell corridor 0 1) = Some true
   /\ (walkable <$> getCell corridor 0 2) = Some true)
  /\ (forall k, findPath (2 + k) corridor (mkCoord 0 2) (mkCoord 0 0)
                = Returned None)
  /\ (forall k, findPath (1 + k) corridor (mkCoord 0 1) (mkCoord 0 1)
                = Returned (Some [mkCoord 0 1]))
  /\ (forall fuel g1 g2 start end_,
        sameGridButOccupancy g1 g2 ->
        findPath fuel g1 start end_ = findPath fuel g2 start end_)
  /\ (forall current end_ st cell o n,
        walkable cell = true ->
        gScore st !! getKey current = Some (Finite n) -> n <> 0 ->
        gScore st !! getKey (coordinate cell) = None ->
        existsb (sameCoordinate (coordinate cell)) (openSet st) = false ->
        openSet (relaxNeighbor current end_ st (with_occupant cell o))
        = openSet st ++ [coordinate cell])
  /\ (forall current end_ st cell,
        walkable cell = false -> relaxNeighbor current end_ st cell = st).
Proof.
  split; [now repeat split |].
  split; [intros k; now apply findPath_distinct_cells |].
  split; [intros k; now apply findPath_same_cell |].
  split; [intros; now apply findPath_same |].
  split.
  - intros current end_ st cell o n Hw Hg Hn Hnew Hopen.
    rewrite (relaxNeighbor_queues current end_ st (with_occupant cell o) n);
      [| exact Hw | exact Hg | exact Hn | exact Hnew].
    cbn [openSet with_occupant coordinate]. now rewrite Hopen.
  - intros current end_ st cell Hw. unfold relaxNeighbor. now rewrite Hw.
Qed.

Lemma findPath_never_reaches_occupied_walkable_cell_witness :
  let planted := (setCellOccupied grid5x9 2 3 (Some 7%positive)).1.2 in
  sameGridButOccupancy grid5x9 planted
  /\ findPath 8 grid5x9 (mkCoord 2 8) (mkCoord 2 0)
     = findPath 8 planted (mkCoord 2 8) (mkCoord 2 0)
  /\ findPath 8 corridor (mkCoord 0 2) (mkCoord 0 0) = Returned None.
Proof.
  intros planted.
  assert (Hsame : sameGridButOccupancy grid5x9 planted).
  { apply sameGrid_setCellOccupied. }
  destruct findPath_never_reaches_occupied_walkable_cell
    as (_ & Hnull & _ & H & _).
  split; [exact Hsame |]. split.
  - exact (H 8%nat grid5x9 planted (mkCoord 2 8) (mkCoord 2 0) Hsame).
  - exact (Hnull 6%nat).
Defined.

End PathFacts.

(** ** Projectiles *)

Module BulletFacts.
Import WeaponType Bullet BulletProps.

Lemma shouldDestroyAfterHit_iff bl :
  shouldDestroyAfterHit bl = true
  <-> penetration bl <= 0 \/ penetration bl <= _hitCount bl.
Proof.
  unfold shouldDestroyAfterHit.
  destruct (isLaser bl); simpl;
    destruct (Z.ltb_spec 0 (penetration bl));
    destruct (Z.leb_spec (penetration bl) 0);
    destruct (Z.leb_spec (penetration bl) (_hitCount bl));
    split; intros; try discriminate; try reflexivity; lia.
Qed.

Lemma active_setActive v bl : active (setActive v bl) = v.
Proof. unfold setActive. destruct (active bl), v; reflexivity. Qed.

Lemma hitTarget_active bl target :
  active bl = true ->
  (active (hitTarget bl target).1 = false
   <-> penetration bl <= 0 \/ penetration bl <= _hitCount bl + 1).
Proof.
  intros Hact. unfold hitTarget.
  set (bl1 := with_hits bl (_hasHit bl) (_hitCount bl + 1) _ (active bl)).
  pose proof (shouldDestroyAfterHit_iff bl1) as Hiff.
  change (penetration bl1) with (penetration bl) in Hiff.
  change (_hitCount bl1) with (_hitCount bl + 1) in Hiff.
  destruct (shouldDestroyAfterHit bl1).
  - cbn [destroyBullet fst]. rewrite active_setActive.
    split; [intros _; now apply Hiff | reflexivity].
  - subst bl1. cbn [fst active with_hits]. rewrite Hact.
    split; [discriminate |]. intros H. apply Hiff in H. discriminate.
Qed.

Lemma hitTarget_survivor bl target :
  active (hitTarget bl target).1 = true ->
  active bl = true ->
  _hitCount (hitTarget bl target).1 = _hitCount bl + 1
  /\ _hitTargets (hitTarget bl target).1 = {[node target]} ∪ _hitTargets bl
  /\ _hasHit (hitTarget bl target).1 = true
  /\ penetration (hitTarget bl target).1 = penetration bl
  /\ ownerTag (hitTarget bl target).1 = ownerTag bl
  /\ targetTags (hitTarget bl target).1 = targetTags bl.
Proof.
  unfold hitTarget.
  set (bl1 := with_hits bl (_hasHit bl) (_hitCount bl + 1) _ (active bl)).
  destruct (shouldDestroyAfterHit bl1).
  - cbn [destroyBullet fst]. rewrite active_setActive. discriminate.
  - intros _ _. now repeat split.
Qed.

Lemma onBeginContact_hits bl other :
  node other ∉ _hitTargets bl ->
  isValidTarget bl (getNodeTag other) = true ->
  ~ (_hasHit bl = true /\ penetration bl <= 0) ->
  onBeginContact bl other = hitTarget bl other.
Proof.
  intros Hnew Hvalid Hgo. unfold onBeginContact.
  destruct (_hasHit bl && (penetration bl <=? 0)) eqn:E.
  - apply andb_true_iff in E as [E1 E2]. apply Z.leb_le in E2. tauto.
  - rewrite bool_decide_eq_false_2 by assumption. now rewrite Hvalid.
Qed.

Lemma onBeginContact_repeat bl other :
  node other ∈ _hitTargets bl -> onBeginContact bl other = (bl, []).
Proof.
  intros Hin. unfold onBeginContact.
  destruct (_hasHit bl && (penetration bl <=? 0)); [reflexivity |].
  now rewrite bool_decide_eq_true_2.
Qed.

(** C7.  A contact of an active projectile with a valid target that is not
    yet in its hit-set (and that the early-exit guard lets through) is a
    hit, and after it the projectile is deactivated, that is recycled, if
    and only if penetration <= 0 or the hit count, this hit included, has
    reached penetration.  A contact with a target already in the hit-set
    changes nothing and emits nothing.  A freshly enabled projectile with
    penetration 2 is still active after its first distinct valid hit, also
    if the same target touches it again, and is inactive right after the
    second distinct valid hit. *)
Theorem projectile_destroyed_when_penetration_spent :
  (forall bl other,
     active bl = true ->
     node other ∉ _hitTargets bl ->
     isValidTarget bl (getNodeTag other) = true ->
     ~ (_hasHit bl = true /\ penetration bl <= 0) ->
     onBeginContact bl other = hitTarget bl other
     /\ (active (onBeginContact bl other).1 = false
         <-> penetration bl <= 0 \/ penetration bl <= _hitCount bl + 1))
  /\ (forall bl other,
        node other ∈ _hitTargets bl -> onBeginContact bl other = (bl, []))
  /\ (forall bl0 t1 t2,
        let bl := onEnable bl0 in
        active bl0 = true -> penetration bl0 = 2 ->
        isValidTarget bl0 (getNodeTag t1) = true ->
        isValidTarget bl0 (getNodeTag t2) = true ->
        node t1 <> node t2 ->
        active (contacts bl [t1]) = true
        /\ active (contacts bl [t1; t1]) = true
        /\ active (contacts bl [t1; t2]) = false
        /\ active (contacts bl [t1; t1; t2]) = false).
Proof.
  split; [| split].
  - intros bl other Hact Hnew Hvalid Hgo.
    rewrite (onBeginContact_hits bl other Hnew Hvalid Hgo).
    split; [reflexivity |]. now apply hitTarget_active.
  - apply onBeginContact_repeat.
  - intros bl0 t1 t2 bl Hact Hpen Hv1 Hv2 Hne.
    assert (Hbl : active bl = true /\ penetration bl = 2 /\ _hitCount bl = 0
                  /\ _hitTargets bl = ∅ /\ _hasHit bl = false
                  /\ ownerTag bl = ownerTag bl0
                  /\ targetTags bl = targetTags bl0).
    { now repeat split. }
    destruct Hbl as (Ha & Hp & Hc & Ht & Hh & Ho & Htt).
    assert (Hvalid : forall b t, ownerTag b = ownerTag bl0 ->
              targetTags b = targetTags bl0 ->
              isValidTarget b (getNodeTag t)
              = isValidTarget bl0 (getNodeTag t)).
    { intros b t E1 E2. unfold isValidTarget. now rewrite E1, E2. }
    assert (H1 : onBeginContact bl t1 = hitTarget bl t1).
    { apply onBeginContact_hits.
      - rewrite Ht. apply not_elem_of_empty.
      - now rewrite Hvalid.
      - rewrite Hh. intros [? _]. discriminate. }
    assert (A1 : active (hitTarget bl t1).1 = true).
    { destruct (active (hitTarget bl t1).1) eqn:E; [reflexivity |].
      apply hitTarget_active in E; [| exact Ha]. lia. }
    destruct (hitTarget_survivor bl t1 A1 Ha)
      as (Hc1 & Ht1 & Hh1 & Hp1 & Ho1 & Htt1).
    set (b1 := (hitTarget bl t1).1) in *.
    assert (H11 : onBeginContact b1 t1 = (b1, [])).
    { apply onBeginContact_repeat. rewrite Ht1.
      apply elem_of_union_l. now apply elem_of_singleton. }
    assert (H2 : onBeginContact b1 t2 = hitTarget b1 t2).
    { apply onBeginContact_hits.
      - rewrite Ht1, Ht, elem_of_union, elem_of_singleton, elem_of_empty.
        intros [E | []]. now apply Hne.
      - rewrite Hvalid; congruence.
      - rewrite Hp1, Hp. lia. }
    assert (A2 : active (hitTarget b1 t2).1 = false).
    { apply hitTarget_active; [exact A1 |]. lia. }
    unfold contacts. cbn [fold_left]. rewrite H1. fold b1.
    rewrite H11. cbn [fst]. rewrite H2. auto.
Qed.

Lemma projectile_destroyed_when_penetration_spent_witness :
  active piercing = true /\ penetration piercing = 2
  /\ isValidTarget piercing (getNodeTag enemy1) = true
  /\ isValidTarget piercing (getNodeTag enemy2) = true
  /\ node enemy1 <> node enemy2
  /\ active (contacts (onEnable piercing) [enemy1]) = true
  /\ active (contacts (onEnable piercing) [enemy1; enemy1]) = true
  /\ active (contacts (onEnable piercing) [enemy1; enemy2]) = false
  /\ active (contacts (onEnable piercing) [enemy1; enemy1; enemy2]) = false.
Proof.
  assert (Hne : node enemy1 <> node enemy2) by discriminate.
  repeat (split; [first [reflexivity | exact Hne] |]).
  destruct projectile_destroyed_when_penetration_spent as (_ & _ & H).
  apply (H piercing enemy1 enemy2 eq_refl eq_refl eq_refl eq_refl Hne).
Defined.

End BulletFacts.

(** ** Weapon energy *)

Module WeaponFacts.
Import WeaponType WeaponsSystem WeaponProps.

Lemma Qltb_false p q : Qltb p q = false <-> (q <= p)%Q.
Proof.
  unfold Qltb. rewrite negb_false_iff. apply Qle_bool_iff.
Qed.

(** *** The pool operations leave energy, settings and timers alone *)

Lemma core_getBulletFromPool ws t :
  core (getBulletFromPool ws t).2 = core ws.
Proof.
  unfold getBulletFromPool.
  destruct (_bulletPools ws !! ordinal t) as [pool|]; [| reflexivity].
  destruct (firstInactive pool 0); [reflexivity |].
  destruct (bulletPrefabs ws !! ordinal t) as [[prefab|]|]; reflexivity.
Qed.

Lemma core_fireSingleBullet ws config now :
  core (fireSingleBullet ws config now) = core ws.
Proof.
  unfold fireSingleBullet.
  pose proof (core_getBulletFromPool ws (type config)) as H.
  destruct (getBulletFromPool ws (type config)) as [[ref|] ws1]; exact H.
Qed.

Lemma core_fireCannonBullet ws config now :
  core (fireCannonBullet ws config now) = core ws.
Proof.
  unfold fireCannonBullet.
  pose proof (core_getBulletFromPool ws (type config)) as H.
  destruct (getBulletFromPool ws (type config)) as [[ref|] ws1]; exact H.
Qed.

Lemma core_fireLaserBullet ws config now :
  core (fireLaserBullet ws config now) = core ws.
Proof.
  unfold fireLaserBullet.
  pose proof (core_getBulletFromPool ws (type config)) as H.
  destruct (getBulletFromPool ws (type config)) as [[ref|] ws1]; exact H.
Qed.

Lemma core_fireMultipleBullets ws config now :
  core (fireMultipleBullets ws config now) = core ws.
Proof.
  unfold fireMultipleBullets.
  generalize (seqZ 0 (bulletCount config)). intros shots. revert ws.
  induction shots as [| s shots IH]; intros ws; [reflexivity |].
  simpl. rewrite IH. apply core_fireSingleBullet.
Qed.

Lemma core_executeFirePattern ws config now :
  core (executeFirePattern ws config now) = core ws.
Proof.
  unfold executeFirePattern. destruct (type config).
  - apply core_fireSingleBullet.
  - apply core_fireCannonBullet.
  - apply core_fireMultipleBullets.
  - apply core_fireLaserBullet.
Qed.

Lemma core_updateBullets ws dt now :
  core (updateBullets ws dt now).1 = core ws.
Proof.
  unfold updateBullets. cbn [fst].
  generalize (List.filter (expired ws now) (_activeBullets ws)).
  intros refs. revert ws.
  induction refs as [| ref refs IH]; intros ws; [reflexivity |].
  simpl. now rewrite IH.
Qed.

Lemma settings_of_core ws ws' :
  core ws' = core ws -> settings ws' = settings ws.
Proof. unfold core, settings. intros H. now inversion H. Qed.

Lemma energy_of_core ws ws' :
  core ws' = core ws -> currentEnergy ws' = currentEnergy ws.
Proof. unfold core. intros H. now inversion H. Qed.

(** *** One call keeps the bounds *)

Lemma currentCost_nonneg ws :
  costsNonNegative ws -> (0 <= energyCost (getCurrentWeaponConfig ws))%Q.
Proof.
  intros Hcost. unfold getCurrentWeaponConfig.
  destruct (_weaponConfigs ws !! ordinal (currentWeaponType ws)) as [config|]
    eqn:E; simpl.
  - exact (Hcost _ _ E).
  - discriminate.
Qed.

Lemma canFire_energy ws now :
  canFire ws now = true ->
  (energyCost (getCurrentWeaponConfig ws) <= currentEnergy ws)%Q.
Proof.
  unfold canFire.
  destruct (Double.lt now (_cooldownEndTime ws)); [discriminate |].
  destruct (Double.lt _ _); [discriminate |].
  destruct (Qltb (currentEnergy ws) _) eqn:E; [discriminate |].
  intros _. now apply Qltb_false.
Qed.

Lemma fire_keeps_bounds ws now :
  energyInBounds ws -> costsNonNegative ws ->
  energyInBounds (fire ws now).1.2
  /\ settings (fire ws now).1.2 = settings ws.
Proof.
  intros [Hlo Hhi] Hcost. unfold fire.
  destruct (canFire ws now) eqn:Hcan; simpl; [| now repeat split].
  pose proof (canFire_energy ws now Hcan) as Henough.
  pose proof (currentCost_nonneg ws Hcost) as Hnn.
  set (config := getCurrentWeaponConfig ws) in *.
  set (ws2 := with_times _ _ _).
  pose proof (core_executeFirePattern ws2 config now) as Hcore.
  split; [| now rewrite (settings_of_core _ _ Hcore)].
  unfold energyInBounds.
  assert (Hmax : maxEnergy (executeFirePattern ws2 config now) = maxEnergy ws).
  { pose proof (settings_of_core _ _ Hcore) as Hs. now inversion Hs. }
  rewrite (energy_of_core _ _ Hcore), Hmax.
  change (currentEnergy ws2) with (currentEnergy ws - energyCost config)%Q.
  split.
  - unfold Qminus. rewrite <- (Qplus_opp_r (energyCost config)).
    now apply Qplus_le_l.
  - eapply Qle_trans; [| exact Hhi].
    rewrite <- (Qplus_0_r (currentEnergy ws)) at 2.
    unfold Qminus. apply Qplus_le_r.
    apply (Qopp_le_compat 0). exact Hnn.
Qed.

Lemma updateEnergyRegen_keeps_bounds ws deltaTime :
  energyInBounds ws -> (0 <= energyRegenRate ws)%Q -> (0 <= deltaTime)%Q ->
  energyInBounds (updateEnergyRegen ws deltaTime)
  /\ settings (updateEnergyRegen ws deltaTime) = settings ws.
Proof.
  intros [Hlo Hhi] Hrate Hdt. unfold updateEnergyRegen.
  destruct (Qltb (currentEnergy ws) (maxEnergy ws)); [| now repeat split].
  split; [| reflexivity]. unfold energyInBounds.
  cbn [currentEnergy maxEnergy with_energy]. split.
  - apply Q.min_glb.
    + exact (Qle_trans _ _ _ Hlo Hhi).
    + apply (Qle_trans _ (currentEnergy ws + 0)).
      * now rewrite Qplus_0_r.
      * apply Qplus_le_r. now apply Qmult_le_0_compat.
  - apply Q.le_min_l.
Qed.

Lemma update_keeps_bounds ws deltaTime now :
  energyInBounds ws -> costsNonNegative ws ->
  (0 <= energyRegenRate ws)%Q -> (0 <= deltaTime)%Q ->
  energyInBounds (update ws deltaTime now).1
  /\ settings (update ws deltaTime now).1 = settings ws.
Proof.
  intros Hb Hcost Hrate Hdt. unfold update.
  destruct (updateEnergyRegen_keeps_bounds ws deltaTime Hb Hrate Hdt)
    as [Hb1 Hs1].
  set (ws1 := updateEnergyRegen ws deltaTime) in *.
  pose proof (core_updateBullets ws1 deltaTime now) as Hcore.
  set (ws2 := (updateBullets ws1 deltaTime now).1) in *.
  assert (Hs2 : settings ws2 = settings ws).
  { now rewrite (settings_of_core _ _ Hcore). }
  assert (Hb2 : energyInBounds ws2).
  { unfold energyInBounds. rewrite (energy_of_core _ _ Hcore).
    replace (maxEnergy ws2) with (maxEnergy ws1); [exact Hb1 |].
    pose proof (settings_of_core _ _ Hcore) as Hs. now inversion Hs. }
  destruct (autoFire ws2 && canFire ws2 now); [| now split].
  assert (Hcost2 : costsNonNegative ws2).
  { unfold costsNonNegative.
    replace (_weaponConfigs ws2) with (_weaponConfigs ws); [exact Hcost |].
    now inversion Hs2. }
  destruct (fire_keeps_bounds ws2 now Hb2 Hcost2) as [Hb3 Hs3].
  destruct (fire ws2 now) as [[ok ws3] evs]. simpl in *.
  split; [exact Hb3 | congruence].
Qed.

Lemma step_keeps_bounds ws c :
  energyInBounds ws -> costsNonNegative ws ->
  (0 <= energyRegenRate ws)%Q -> tickNonNegative c ->
  energyInBounds (step ws c) /\ settings (step ws c) = settings ws.
Proof.
  intros Hb Hcost Hrate Htick. destruct c as [deltaTime now | now]; simpl.
  - now apply update_keeps_bounds.
  - now apply fire_keeps_bounds.
Qed.

(** The catalogue loaded at start-up has non-negative costs. *)
Lemma costsNonNegative_start ws : costsNonNegative (start ws).
Proof.
  intros t config. cbn [start _weaponConfigs]. unfold loadWeaponConfigs.
  cbn [map list_to_map foldr ordinal fst snd uncurry].
  intros H.
  repeat (rewrite lookup_insert in H;
          destruct (decide _) in H; [inversion H; subst; discriminate |]).
  rewrite lookup_empty in H. discriminate H.
Qed.

(** C6.  From a state with 0 <= currentEnergy <= maxEnergy, with
    non-negative energy costs in every registered configuration and a
    non-negative regeneration rate, any finite sequence of update calls
    with deltaTime >= 0 and of fire calls, at any clock readings, leaves
    currentEnergy within [0, maxEnergy], and maxEnergy itself unchanged. *)
Theorem energy_stays_in_bounds ws calls :
  (0 <= currentEnergy ws)%Q -> (currentEnergy ws <= maxEnergy ws)%Q ->
  costsNonNegative ws -> (0 <= energyRegenRate ws)%Q ->
  Forall tickNonNegative calls ->
  (0 <= currentEnergy (run ws calls))%Q
  /\ (currentEnergy (run ws calls) <= maxEnergy ws)%Q
  /\ maxEnergy (run ws calls) = maxEnergy ws.
Proof.
  intros Hlo Hhi Hcost Hrate Hticks.
  assert (Hb : energyInBounds ws) by (split; assumption).
  clear Hlo Hhi.
  assert (Hgoal : energyInBounds (run ws calls)
                  /\ settings (run ws calls) = settings ws).
  { revert ws Hb Hcost Hrate.
    induction Hticks as [| c calls Hc _ IH]; intros ws Hb Hcost Hrate;
      [now split |].
    destruct (step_keeps_bounds ws c Hb Hcost Hrate Hc) as [Hb1 Hs1].
    unfold run. cbn [fold_left]. fold (run (step ws c) calls).
    inversion Hs1 as [[Hm Hr Hw]].
    destruct (IH (step ws c)) as [Hb2 Hs2].
    - exact Hb1.
    - unfold costsNonNegative. rewrite Hw. exact Hcost.
    - rewrite Hr. exact Hrate.
    - split; [exact Hb2 | congruence]. }
  destruct Hgoal as [[Hlo Hhi] Hs].
  assert (Hm : maxEnergy (run ws calls) = maxEnergy ws).
  { exact (f_equal (fun s => s.1.1) Hs). }
  split; [exact Hlo | split; [rewrite <- Hm; exact Hhi | exact Hm]].
Qed.

Lemma energy_stays_in_bounds_witness :
  (0 <= currentEnergy armed)%Q /\ (currentEnergy armed <= maxEnergy armed)%Q
  /\ (0 <= energyRegenRate armed)%Q
  /\ Forall tickNonNegative session
  /\ (0 <= currentEnergy (run armed session))%Q
  /\ (currentEnergy (run armed session) <= maxEnergy armed)%Q
  /\ maxEnergy (run armed session) = maxEnergy armed.
Proof.
  assert (Hlo : (0 <= currentEnergy armed)%Q) by discriminate.
  assert (Hhi : (currentEnergy armed <= maxEnergy armed)%Q) by discriminate.
  assert (Hrate : (0 <= energyRegenRate armed)%Q) by discriminate.
  assert (Hticks : Forall tickNonNegative session).
  { repeat constructor; discriminate. }
  split; [exact Hlo |]. split; [exact Hhi |]. split; [exact Hrate |].
  split; [exact Hticks |].
  exact (energy_stays_in_bounds armed session Hlo Hhi
           (costsNonNegative_start _) Hrate Hticks).
Defined.

End WeaponFacts.

(** ** The lattice: transforms, layout, queries and census *)

Module GridExtras.
Import GridManager GridProps GridScanProps GridFacts.

(** *** Coordinates *)

Lemma quotient_is (n w k : Z) :
  0 < w -> (n / w = k <-> k * w <= n < (k + 1) * w).
Proof.
  intros Hw. split.
  - intros <-. pose proof (Z.div_mod n w ltac:(lia)).
    pose proof (Z.mod_pos_bound n w Hw). nia.
  - intros H. symmetry. apply Z.div_unique with (n - k * w); [lia | ring].
Qed.

(** X1.  On a grid whose start position and cell sizes are integers, the
    sizes positive and one cell beyond the far corner within 2^51 of the
    axes, worldToGridPosition maps a point with integer coordinates of
    magnitude at most 2^51 to (row, col) if and only if (row, col) lies
    within the lattice and the point lies in the rectangle of that cell,
    the left and the top edge included:
    startX + col * cellWidth <= x < startX + (col + 1) * cellWidth and
    startY - (row + 1) * cellHeight < y <= startY - row * cellHeight.
    For a point of no such rectangle the answer is null.  The arithmetic is
    that of binary64: here the differences are exact, and the rounded
    quotient floors as the exact one. *)
Theorem worldToGridPosition_cell gm sx sy w h worldPos px py row col :
  onIntegers gm sx sy w h ->
  DoubleProps.numberIs (x worldPos) (inject_Z px) ->
  DoubleProps.numberIs (y worldPos) (inject_Z py) ->
  Z.abs px <= 2 ^ 51 -> Z.abs py <= 2 ^ 51 ->
  worldToGridPosition gm worldPos = Some (mkCoord row col)
  <-> isValidCoordinate gm row col = true
      /\ sx + col * w <= px < sx + (col + 1) * w
      /\ sy - (row + 1) * h < py <= sy - row * h.
Proof.
  intros (Hx & Hy & Hw & Hh & Pw & Ph & Bx & By) Hpx Hpy Bpx Bpy.
  destruct (Z_lt_le_dec 0 (cols gm)) as [Hc | Hc];
    [destruct (Z_lt_le_dec 0 (rows gm)) as [Hr | Hr] |].
  2, 3: split;
    [ unfold worldToGridPosition;
      destruct (Double.toIndex _) as [r|]; [| discriminate];
      destruct (Double.toIndex _) as [c|]; [| discriminate];
      destruct (isValidCoordinate gm r c) eqn:Hv; [| discriminate];
      apply isValidCoordinate_iff in Hv; lia
    | intros (Hv & _); apply isValidCoordinate_iff in Hv; lia ].
  assert (Bw : w <= 2 ^ 50) by nia.
  assert (Bh : h <= 2 ^ 50) by nia.
  assert (Bsx : Z.abs sx <= 2 ^ 51) by nia.
  assert (Bsy : Z.abs sy <= 2 ^ 51) by nia.
  assert (Rx : DoubleProps.numberIs
                 (x worldPos - x (startPosition gm))%number
                 (inject_Z (px - sx))).
  { eapply DoubleFacts.numberIs_eq.
    - apply DoubleFacts.sub_exact; [exact Hpx | exact Hx |].
      apply DoubleFacts.representable_eq with (inject_Z (px - sx));
        [apply DoubleFacts.representable_Z; lia |].
      unfold Z.sub. now rewrite inject_Z_plus, inject_Z_opp.
    - unfold Z.sub. now rewrite inject_Z_plus, inject_Z_opp. }
  assert (Ry : DoubleProps.numberIs
                 (y (startPosition gm) - y worldPos)%number
                 (inject_Z (sy - py))).
  { eapply DoubleFacts.numberIs_eq.
    - apply DoubleFacts.sub_exact; [exact Hy | exact Hpy |].
      apply DoubleFacts.representable_eq with (inject_Z (sy - py));
        [apply DoubleFacts.representable_Z; lia |].
      unfold Z.sub. now rewrite inject_Z_plus, inject_Z_opp.
    - unfold Z.sub. now rewrite inject_Z_plus, inject_Z_opp. }
  assert (Sw : DoubleProps.numberIs (Double.ofQ (cellWidth gm)) (inject_Z w)).
  { apply DoubleFacts.ofQ_exact; [exact Hw |].
    apply DoubleFacts.representable_Z. lia. }
  assert (Sh : DoubleProps.numberIs (Double.ofQ (cellHeight gm)) (inject_Z h)).
  { apply DoubleFacts.ofQ_exact; [exact Hh |].
    apply DoubleFacts.representable_Z. lia. }
  unfold worldToGridPosition. cbv zeta.
  rewrite (DoubleFacts.div_floor _ _ (sy - py) h Ry Sh) by lia.
  rewrite (DoubleFacts.div_floor _ _ (px - sx) w Rx Sw) by lia.
  split.
  - destruct (isValidCoordinate gm _ _) eqn:Hv; [| discriminate].
    intros E. injection E as Er Ec. rewrite Er, Ec in Hv.
    apply (quotient_is _ _ _ Ph) in Er. apply (quotient_is _ _ _ Pw) in Ec.
    split; [exact Hv |]. lia.
  - intros (Hv & Hcol & Hrow).
    assert (Er : (sy - py) / h = row) by (apply quotient_is; lia).
    assert (Ec : (px - sx) / w = col) by (apply quotient_is; lia).
    now rewrite Er, Ec, Hv.
Qed.

Lemma worldToGridPosition_cell_witness :
  worldToGridPosition grid5x9 (mkVec3 (-400) 200 0) = Some (mkCoord 0 0)
  /\ worldToGridPosition grid5x9 (mkVec3 499 (-299) 0) = Some (mkCoord 4 8)
  /\ ~ worldToGridPosition grid5x9 (mkVec3 500 (-299) 0)
       = Some (mkCoord 4 8).
Proof.
  assert (H : onIntegers grid5x9 (-400) 200 100 100).
  { unfold onIntegers. cbn. repeat split; try reflexivity; lia. }
  split; [| split].
  - apply (worldToGridPosition_cell grid5x9 (-400) 200 100 100
             (mkVec3 (-400) 200 0) (-400) 200 0 0 H);
      [reflexivity | reflexivity | lia | lia |].
    split; [reflexivity | lia].
  - apply (worldToGridPosition_cell grid5x9 (-400) 200 100 100
             (mkVec3 499 (-299) 0) 499 (-299) 4 8 H);
      [reflexivity | reflexivity | lia | lia |].
    split; [reflexivity | lia].
  - intros E.
    apply (worldToGridPosition_cell grid5x9 (-400) 200 100 100
             (mkVec3 500 (-299) 0) 500 (-299) 4 8 H) in E;
      [lia | reflexivity | reflexivity | lia | lia].
Defined.

(** *** The freshly built lattice *)

Lemma determineCellType_in_bounds gm row col :
  0 <= col < cols gm -> determineCellType gm row col = columnType gm col.
Proof.
  intros Hc. unfold determineCellType, columnType.
  destruct (col =? cols gm - 1) eqn:E1; [reflexivity |].
  destruct (col =? 0) eqn:E2; [reflexivity |].
  apply Z.eqb_neq in E1, E2.
  replace ((1 <=? col) && (col <=? cols gm - 2)) with true; [reflexivity |].
  symmetry. apply andb_true_iff. split; [apply Z.leb_le | apply Z.leb_le]; lia.
Qed.

(** X2.  Every valid coordinate of a freshly built lattice holds a cell
    with that coordinate and the world position gridToWorldPosition gives
    it, free, without occupant or data.  Its type depends on the column
    alone: SPAWN in the last column, otherwise GOAL in column 0, otherwise
    PLANT_ZONE, never EMPTY; its flags are those of the derivation table. *)
Theorem initializeGrid_layout gm row col :
  isValidCoordinate gm row col = true ->
  exists cell,
    getCell (initializeGrid gm) row col = Some cell
    /\ coordinate cell = mkCoord row col
    /\ worldPosition cell = gridToWorldPosition gm row col
    /\ occupied cell = false /\ occupant cell = None /\ data cell = []
    /\ cellType cell = columnType gm col
    /\ cellType cell <> EMPTY
    /\ (walkable cell, buildable cell) = derivationTable (columnType gm col).
Proof.
  intros Hv. exists (createGridCell gm row col).
  split; [now apply getCell_initializeGrid |].
  apply isValidCoordinate_iff in Hv as [_ Hc].
  unfold createGridCell. rewrite configureCellByType_frame.
  cbn [coordinate worldPosition occupied occupant data cellType walkable
       buildable].
  rewrite (determineCellType_in_bounds gm row col Hc).
  repeat split.
  - unfold columnType. destruct (col =? cols gm - 1); [discriminate |].
    destruct (col =? 0); discriminate.
  - now destruct (derivationTable (columnType gm col)).
Qed.

Lemma initializeGrid_layout_witness :
  exists cell,
    getCell (initializeGrid (blank 4 1)) 2 0 = Some cell
    /\ cellType cell = SPAWN /\ walkable cell = true.
Proof.
  destruct (initializeGrid_layout (blank 4 1) 2 0 eq_refl)
    as (cell & Hc & _ & _ & _ & _ & _ & Ht & _ & Hf).
  exists cell. split; [exact Hc |]. split; [exact Ht |].
  now inversion Hf.
Defined.

(** *** Scans *)

Lemma elem_of_scanCells gm cell :
  cell ∈ scanCells gm
  <-> exists row col, getCell gm row col = Some cell.
Proof.
  unfold scanCells. rewrite list_elem_of_In, in_concat.
  setoid_rewrite <- list_elem_of_In. split.
  - intros (line & Hline & Hin).
    apply list_elem_of_fmap in Hline as (row & -> & Hrow).
    apply list_elem_of_omap in Hin as (col & Hcol & Hc).
    apply elem_of_seqZ in Hrow, Hcol.
    exists row, col. apply getCell_Some. split; [| exact Hc].
    apply isValidCoordinate_iff. lia.
  - intros (row & col & Hc). apply getCell_Some in Hc as [Hv Hc].
    apply isValidCoordinate_iff in Hv.
    exists (omap (fun col => cellAt (_grid gm) row col) (seqZ 0 (cols gm))).
    split.
    + apply list_elem_of_fmap. exists row. split; [reflexivity |].
      apply elem_of_seqZ. lia.
    + apply list_elem_of_omap. exists col. split; [| exact Hc].
      apply elem_of_seqZ. lia.
Qed.

Lemma elem_of_List_filter {A} (f : A -> bool) (l : list A) (a : A) :
  a ∈ List.filter f l <-> a ∈ l /\ f a = true.
Proof. rewrite !list_elem_of_In. apply filter_In. Qed.

Lemma List_filter_sublist {A} (f : A -> bool) (l : list A) :
  List.filter f l `sublist_of` l.
Proof.
  induction l as [| a l IH]; simpl; [constructor |].
  destruct (f a); [now constructor | now apply sublist_cons].
Qed.

Lemma map_List_filter_sublist {A B} (g : A -> B) (f : A -> bool)
  (l : list A) :
  map g (List.filter f l) `sublist_of` map g l.
Proof.
  induction l as [| a l IH]; simpl; [constructor |].
  destruct (f a); simpl; [now constructor | now apply sublist_cons].
Qed.

Lemma omap_all_Some {A B} (f : A -> option B) (g : A -> B) (l : list A) :
  (forall a, a ∈ l -> f a = Some (g a)) -> omap f l = map g l.
Proof.
  induction l as [| a l IH]; intros H; [reflexivity |]. simpl.
  rewrite (H a) by (now left). f_equal. apply IH.
  intros b Hb. apply H. now right.
Qed.

Lemma map_ext_elem {A B} (f g : A -> B) (l : list A) :
  (forall a, a ∈ l -> f a = g a) -> map f l = map g l.
Proof.
  intros H. apply map_ext_in. intros a Ha. apply H.
  now apply list_elem_of_In.
Qed.

Lemma map_omap_known {A B C} (f : A -> option B) (g : B -> C) (h : A -> C)
  (l : list A) :
  (forall a, a ∈ l -> exists b, f a = Some b /\ g b = h a) ->
  map g (omap f l) = map h l.
Proof.
  induction l as [| a l IH]; intros H; [reflexivity |]. simpl.
  destruct (H a) as (b & Hb & Hg); [now left |].
  rewrite Hb. simpl. rewrite Hg. f_equal. apply IH.
  intros a' Ha'. apply H. now right.
Qed.

Lemma scanCells_coordinates gm :
  wellFormed gm -> map coordinate (scanCells gm) = rowMajor gm.
Proof.
  intros Hwf. unfold scanCells, rowMajor.
  rewrite concat_map, map_map. f_equal.
  apply map_ext_elem. intros row Hrow. apply elem_of_seqZ in Hrow.
  apply map_omap_known. intros col Hcol. apply elem_of_seqZ in Hcol.
  apply Hwf. apply isValidCoordinate_iff. lia.
Qed.

(** X3.  getCellsByType(t) returns exactly the cells of the lattice whose
    type is t, on a well-formed lattice in row-major order; the cell whose
    type setCellType has just set to t is among them. *)
Theorem getCellsByType_members gm t :
  (forall cell,
     cell ∈ getCellsByType gm t
     <-> exists row col, getCell gm row col = Some cell /\ cellType cell = t)
  /\ (wellFormed gm ->
      map coordinate (getCellsByType gm t) `sublist_of` rowMajor gm)
  /\ (forall row col gm' evs,
        setCellType gm row col t = (true, gm', evs) ->
        exists cell', getCell gm' row col = Some cell'
                      /\ cell' ∈ getCellsByType gm' t).
Proof.
  assert (Hmem : forall g cell,
    cell ∈ getCellsByType g t
    <-> exists row col, getCell g row col = Some cell /\ cellType cell = t).
  { intros g cell. unfold getCellsByType.
    rewrite elem_of_List_filter, elem_of_scanCells, bool_decide_eq_true.
    split.
    - intros [(row & col & Hc) Ht]. eauto.
    - intros (row & col & Hc & Ht). eauto. }
  split; [apply Hmem |]. split.
  - intros Hwf. rewrite <- (scanCells_coordinates gm Hwf).
    apply map_List_filter_sublist.
  - intros row col gm' evs H.
    apply setCellType_true in H as (cell & Hc & -> & _).
    eexists. split.
    + rewrite getCell_updateCell_same, Hc. reflexivity.
    + apply Hmem. exists row, col. split.
      * rewrite getCell_updateCell_same, Hc. reflexivity.
      * now rewrite configureCellByType_frame.
Qed.

Lemma getCellsByType_members_witness :
  wellFormed grid3x3
  /\ map coordinate (getCellsByType grid3x3 GOAL) `sublist_of` rowMajor grid3x3
  /\ map coordinate (getCellsByType grid3x3 GOAL)
     = [mkCoord 0 0; mkCoord 1 0; mkCoord 2 0].
Proof.
  assert (Hwf : wellFormed grid3x3) by apply wellFormed_initializeGrid.
  split; [exact Hwf |]. split; [| reflexivity].
  destruct (getCellsByType_members grid3x3 GOAL) as (_ & H & _).
  exact (H Hwf).
Defined.

(** X4.  getAvailableBuildCells returns exactly the cells at which
    canPlaceAt answers true.  After setCellOccupied has placed an occupant
    at (row, col), the available cells are the former ones without the cell
    at (row, col). *)
Theorem getAvailableBuildCells_canPlaceAt gm :
  (forall cell,
     cell ∈ getAvailableBuildCells gm
     <-> exists row col,
           getCell gm row col = Some cell
           /\ canPlaceAt gm row col = JsBool true)
  /\ (wellFormed gm ->
      forall row col (o : Node) gm' evs,
        setCellOccupied gm row col (Some o) = (true, gm', evs) ->
        forall cell',
          cell' ∈ getAvailableBuildCells gm'
          <-> cell' ∈ getAvailableBuildCells gm
              /\ coordinate cell' <> mkCoord row col).
Proof.
  assert (Hmem : forall g cell,
    cell ∈ getAvailableBuildCells g
    <-> exists row col,
          getCell g row col = Some cell
          /\ canPlaceAt g row col = JsBool true).
  { intros g cell. unfold getAvailableBuildCells, canPlaceAt.
    rewrite elem_of_List_filter, elem_of_scanCells. split.
    - intros [(row & col & Hc) Hf]. exists row, col. rewrite Hc.
      split; [reflexivity |]. f_equal. now rewrite andb_comm.
    - intros (row & col & Hc & Hp). rewrite Hc in Hp.
      split; [eauto |]. inversion Hp as [Hb]. rewrite Hb.
      now rewrite andb_comm. }
  split; [apply Hmem |].
  intros Hwf row col o gm' evs Hset cell'.
  unfold setCellOccupied in Hset.
  destruct (getCell gm row col) as [cell|] eqn:Hc; [| discriminate].
  destruct (_ && occupied cell); [discriminate |].
  destruct (_ && negb (buildable cell)); [discriminate |].
  inversion Hset; subst gm' evs; clear Hset.
  assert (Hv : isValidCoordinate gm row col = true).
  { apply getCell_Some in Hc. tauto. }
  assert (Hcoord : forall r c cl, getCell gm r c = Some cl ->
                                  coordinate cl = mkCoord r c).
  { intros r c cl Hcl. apply getCell_Some in Hcl as [Hv' Hcl].
    destruct (Hwf r c Hv') as (cl' & Hcl' & Hco). congruence. }
  rewrite !Hmem. unfold canPlaceAt. split.
  - intros (r & c & Hg & Hp).
    destruct (decide ((r, c) = (row, col))) as [E | E].
    + inversion E; subst r c.
      rewrite getCell_updateCell_same, Hc in Hg, Hp. simpl in Hg, Hp.
      rewrite ?occupant_given in Hp. discriminate.
    + rewrite getCell_updateCell_other in Hg, Hp by assumption.
      split; [eauto |]. rewrite (Hcoord r c cell' Hg).
      intros E'. inversion E'. now apply E; f_equal.
  - intros [(r & c & Hg & Hp) Hne].
    assert (E : (r, c) <> (row, col)).
    { intros E. inversion E; subst r c. apply Hne. now apply Hcoord. }
    exists r, c. now rewrite !getCell_updateCell_other by assumption.
Qed.

Lemma getAvailableBuildCells_canPlaceAt_witness :
  let planted := (setCellOccupied grid3x3 1 1 (Some 7%positive)).1.2 in
  wellFormed grid3x3
  /\ map coordinate (getAvailableBuildCells grid3x3)
     = [mkCoord 0 1; mkCoord 1 1; mkCoord 2 1]
  /\ forall cell',
       cell' ∈ getAvailableBuildCells planted
       <-> cell' ∈ getAvailableBuildCells grid3x3
           /\ coordinate cell' <> mkCoord 1 1.
Proof.
  intros planted.
  assert (Hwf : wellFormed grid3x3) by apply wellFormed_initializeGrid.
  split; [exact Hwf |]. split; [reflexivity |].
  destruct (getAvailableBuildCells_canPlaceAt grid3x3) as [_ H].
  destruct (setCellOccupied grid3x3 1 1 (Some 7%positive))
    as [[ok gm'] evs] eqn:E.
  assert (Hok : ok = true) by (now inversion E). subst ok.
  exact (H Hwf 1 1 7%positive gm' evs E).
Defined.

(** *** Occupy, then clear *)

Lemma with_grid_same gm : with_grid gm (_grid gm) = gm.
Proof. now destruct gm. Qed.

Lemma updateCell_twice gm row col f g :
  updateCell (updateCell gm row col f) row col g
  = updateCell gm row col (g ∘ f).
Proof.
  unfold updateCell, with_grid. cbn [rows cols cellWidth cellHeight
    startPosition showGrid gridColor highlightColor gridContainer _grid].
  f_equal. rewrite list_alter_alter_eq.
  apply list_alter_ext; [| reflexivity].
  intros line _. simpl. apply list_alter_alter_eq.
Qed.

Lemma updateCell_fixed gm row col f cell :
  getCell gm row col = Some cell -> f cell = cell ->
  updateCell gm row col f = gm.
Proof.
  intros Hc Hf. apply getCell_Some in Hc as [_ Hc]. unfold cellAt in Hc.
  destruct (_grid gm !! Z.to_nat row) as [line|] eqn:Hline;
    [| discriminate]. simpl in Hc.
  assert (E : alter (alter f (Z.to_nat col)) (Z.to_nat row) (_grid gm)
              = _grid gm).
  { transitivity (alter id (Z.to_nat row) (_grid gm));
      [| now apply list_alter_id].
    apply list_alter_ext; [| reflexivity].
    intros line' Hline'. rewrite Hline in Hline'. inversion Hline'; subst.
    transitivity (alter id (Z.to_nat col) line');
      [| now apply list_alter_id].
    apply list_alter_ext; [| reflexivity].
    intros cell' Hcell'. rewrite Hc in Hcell'. inversion Hcell'; subst.
    exact Hf. }
  unfold updateCell. rewrite E. apply with_grid_same.
Qed.

(** X5.  Occupying a free buildable cell and clearing it again restores
    the grid exactly; each of the two calls succeeds and emits one
    grid-cell-occupied event.  Clearing a cell that is free already
    succeeds too: it changes nothing and still emits the event. *)
Theorem occupy_then_clear gm row col (o : Node) cell :
  getCell gm row col = Some cell ->
  buildable cell = true -> occupied cell = false -> occupant cell = None ->
  exists gm1,
    setCellOccupied gm row col (Some o)
    = (true, gm1, [GridCellOccupied (mkCoord row col) true (Some o)])
    /\ clearCell gm1 row col
       = (true, gm, [GridCellOccupied (mkCoord row col) false None])
    /\ clearCell gm row col
       = (true, gm, [GridCellOccupied (mkCoord row col) false None]).
Proof.
  intros Hc Hb Ho Hn.
  assert (Hfree : with_occupant cell None = cell).
  { destruct cell; simpl in *. subst. reflexivity. }
  exists (updateCell gm row col (fun cell => with_occupant cell (Some o))).
  unfold clearCell, setCellOccupied.
  rewrite getCell_updateCell_same, Hc, Ho, Hb.
  rewrite ?occupant_given, ?occupant_null. simpl.
  rewrite ?occupant_given, ?occupant_null.
  split; [reflexivity |]. split.
  - rewrite updateCell_twice.
    now rewrite (updateCell_fixed gm row col _ cell Hc).
  - now rewrite (updateCell_fixed gm row col _ cell Hc).
Qed.

Lemma occupy_then_clear_witness :
  exists gm1,
    setCellOccupied grid5x9 2 3 (Some 7%positive)
    = (true, gm1, [GridCellOccupied (mkCoord 2 3) true (Some 7%positive)])
    /\ clearCell gm1 2 3
       = (true, grid5x9, [GridCellOccupied (mkCoord 2 3) false None]).
Proof.
  destruct (getCell grid5x9 2 3) as [cell|] eqn:Hc; [| discriminate Hc].
  assert (H : buildable cell = true /\ occupied cell = false
              /\ occupant cell = None).
  { vm_compute in Hc. inversion Hc. now repeat split. }
  destruct H as (Hb & Ho & Hn).
  destruct (occupy_then_clear grid5x9 2 3 7%positive cell Hc Hb Ho Hn)
    as (gm1 & H1 & H2 & _).
  exists gm1. now split.
Defined.

(** *** Census of a freshly built lattice *)

Lemma scanCells_initializeGrid gm :
  scanCells (initializeGrid gm)
  = concat (map (fun row => map (createGridCell gm row) (seqZ 0 (cols gm)))
              (seqZ 0 (rows gm))).
Proof.
  unfold scanCells. f_equal. apply map_ext_elem. intros row Hrow.
  apply elem_of_seqZ in Hrow. apply omap_all_Some. intros col Hcol.
  apply elem_of_seqZ in Hcol. apply cellAt_initializeGrid.
  apply isValidCoordinate_iff. lia.
Qed.

Lemma map_constant {A B} (f : A -> B) (v : B) (l : list A) :
  (forall a, a ∈ l -> f a = v) -> map f l = replicate (length l) v.
Proof.
  induction l as [| a l IH]; intros H; [reflexivity |]. simpl.
  rewrite (H a) by (now left). f_equal. apply IH.
  intros b Hb. apply H. now right.
Qed.

Lemma seqZ_ends n :
  2 <= n -> seqZ 0 n = 0 :: seqZ 1 (n - 2) ++ [n - 1].
Proof.
  intros Hn. rewrite (seqZ_cons 0 n) by lia. f_equal.
  replace (Z.pred n) with ((n - 2) + 1) by lia.
  change (Z.succ 0) with 1.
  rewrite seqZ_app by lia. f_equal.
  rewrite seqZ_cons by lia. rewrite seqZ_nil by lia. f_equal. lia.
Qed.

Lemma columnTypes gm :
  2 <= cols gm ->
  map (columnType gm) (seqZ 0 (cols gm))
  = GOAL :: replicate (Z.to_nat (cols gm - 2)) PLANT_ZONE ++ [SPAWN].
Proof.
  intros Hc. rewrite (seqZ_ends (cols gm) Hc). simpl. rewrite map_app.
  simpl. f_equal; [| f_equal].
  - unfold columnType.
    replace (0 =? cols gm - 1) with false; [reflexivity |].
    symmetry. apply Z.eqb_neq. lia.
  - rewrite <- (length_seqZ 1 (cols gm - 2)). apply map_constant.
    intros c Hin. apply elem_of_seqZ in Hin. unfold columnType.
    replace (c =? cols gm - 1) with false
      by (symmetry; apply Z.eqb_neq; lia).
    replace (c =? 0) with false by (symmetry; apply Z.eqb_neq; lia).
    reflexivity.
  - unfold columnType. now rewrite Z.eqb_refl.
Qed.

(** In a fresh lattice every row shows the same cell types, and a
    predicate on the type and flags of a cell is counted row by row. *)
Lemma fresh_count gm (p : GridCell -> bool) (q : GridCellType -> bool) :
  (forall row col, p (createGridCell gm row col)
                   = q (determineCellType gm row col)) ->
  2 <= cols gm ->
  length (List.filter p (scanCells (initializeGrid gm)))
  = (Z.to_nat (rows gm)
     * length (List.filter q
                 (GOAL :: replicate (Z.to_nat (cols gm - 2)) PLANT_ZONE
                  ++ [SPAWN])))%nat.
Proof.
  intros Hpq Hc. rewrite scanCells_initializeGrid.
  rewrite <- (columnTypes gm Hc).
  assert (Hrow : forall row,
    length (List.filter p (map (createGridCell gm row) (seqZ 0 (cols gm))))
    = length (List.filter q (map (columnType gm) (seqZ 0 (cols gm))))).
  { intros row.
    assert (Hin : forall c, c ∈ seqZ 0 (cols gm) -> 0 <= c < cols gm).
    { intros c H. apply elem_of_seqZ in H. lia. }
    induction (seqZ 0 (cols gm)) as [| c cs IH]; [reflexivity |].
    cbn [map List.filter].
    rewrite Hpq, determineCellType_in_bounds by (apply Hin; now left).
    destruct (q (columnType gm c)); cbn [length]; rewrite IH;
      try reflexivity; intros c' Hc'; apply Hin; now right. }
  set (X := length (List.filter q (map (columnType gm) (seqZ 0 (cols gm)))))
    in *.
  rewrite <- (length_seqZ 0 (rows gm)).
  induction (seqZ 0 (rows gm)) as [| row rs IH]; [reflexivity |].
  cbn [map concat length]. rewrite List.filter_app, length_app, IH, Hrow.
  lia.
Qed.

Lemma filter_row (q : GridCellType -> bool) n :
  length (List.filter q (GOAL :: replicate n PLANT_ZONE ++ [SPAWN]))
  = ((if q GOAL then 1 else 0) + (if q PLANT_ZONE then n else 0)
     + (if q SPAWN then 1 else 0))%nat.
Proof.
  simpl. rewrite (List.filter_app q (replicate n PLANT_ZONE) [SPAWN]).
  assert (E : length (List.filter q (replicate n PLANT_ZONE))
              = if q PLANT_ZONE then n else 0%nat).
  { induction n as [| n IH]; simpl; [now destruct (q PLANT_ZONE) |].
    destruct (q PLANT_ZONE); simpl; now rewrite IH. }
  destruct (q GOAL); simpl; rewrite length_app, E; simpl;
    destruct (q SPAWN); simpl; lia.
Qed.

(** X6.  On a freshly built lattice with rows >= 0 and cols >= 2 there are
    rows SPAWN cells, rows GOAL cells, rows * (cols - 2) PLANT_ZONE cells
    and no cell of any other type. *)
Theorem getCellsByType_fresh gm :
  0 <= rows gm -> 2 <= cols gm ->
  let fresh := initializeGrid gm in
  Z.of_nat (length (getCellsByType fresh SPAWN)) = rows gm
  /\ Z.of_nat (length (getCellsByType fresh GOAL)) = rows gm
  /\ Z.of_nat (length (getCellsByType fresh PLANT_ZONE))
     = rows gm * (cols gm - 2)
  /\ getCellsByType fresh EMPTY = []
  /\ getCellsByType fresh PATH = []
  /\ getCellsByType fresh OBSTACLE = []
  /\ getCellsByType fresh SPECIAL = [].
Proof.
  intros Hr Hc fresh. subst fresh.
  assert (Hcount : forall t,
    length (getCellsByType (initializeGrid gm) t)
    = (Z.to_nat (rows gm)
       * ((if bool_decide (GOAL = t) then 1 else 0)
          + (if bool_decide (PLANT_ZONE = t) then Z.to_nat (cols gm - 2)
             else 0)
          + (if bool_decide (SPAWN = t) then 1 else 0)))%nat).
  { intros t. unfold getCellsByType.
    rewrite (fresh_count gm _ (fun t' => bool_decide (t' = t))); [| | exact Hc].
    - now rewrite filter_row.
    - intros row col. unfold createGridCell.
      now rewrite configureCellByType_frame. }
  assert (Hnil : forall t, t <> GOAL -> t <> PLANT_ZONE -> t <> SPAWN ->
                           getCellsByType (initializeGrid gm) t = []).
  { intros t H1 H2 H3. apply length_zero_iff_nil. rewrite Hcount.
    rewrite !bool_decide_eq_false_2 by congruence. lia. }
  repeat split; try (apply Hnil; discriminate);
    rewrite Hcount; simpl; nia.
Qed.

Lemma getCellsByType_fresh_witness :
  Z.of_nat (length (getCellsByType grid5x9 SPAWN)) = 5
  /\ Z.of_nat (length (getCellsByType grid5x9 PLANT_ZONE)) = 35.
Proof.
  destruct (getCellsByType_fresh declared) as (H1 & _ & H3 & _);
    [discriminate | discriminate |].
  split; [exact H1 | exact H3].
Defined.

Lemma stats_fold cells stats :
  let result := fold_left countCell cells stats in
  totalCells result = totalCells stats
  /\ occupiedCells result
     = occupiedCells stats + Z.of_nat (length (List.filter occupied cells))
  /\ buildableCells result
     = buildableCells stats + Z.of_nat (length (List.filter buildable cells))
  /\ walkableCells result
     = walkableCells stats + Z.of_nat (length (List.filter walkable cells)).
Proof.
  revert stats. induction cells as [| cell cells IH]; intros stats.
  - simpl. repeat split; lia.
  - cbn [fold_left]. cbv zeta in *.
    destruct (IH (countCell stats cell)) as (H1 & H2 & H3 & H4).
    rewrite H1, H2, H3, H4. simpl.
    destruct (occupied cell), (buildable cell), (walkable cell); simpl;
      repeat split; lia.
Qed.

(** X7.  getGridStats of a freshly built lattice with rows >= 0 and
    cols >= 2: rows * cols cells in all, none occupied, rows * (cols - 2)
    buildable (the plant zone) and 2 * rows walkable (the spawn and goal
    columns). *)
Theorem getGridStats_fresh gm :
  0 <= rows gm -> 2 <= cols gm ->
  let stats := getGridStats (initializeGrid gm) in
  totalCells stats = rows gm * cols gm
  /\ occupiedCells stats = 0
  /\ buildableCells stats = rows gm * (cols gm - 2)
  /\ walkableCells stats = 2 * rows gm.
Proof.
  intros Hr Hc stats. subst stats. unfold getGridStats.
  destruct (stats_fold (scanCells (initializeGrid gm))
              (mkStats (rows (initializeGrid gm) * cols (initializeGrid gm))
                 0 0 0 ∅)) as (H1 & H2 & H3 & H4).
  rewrite H1, H2, H3, H4. cbn [totalCells occupiedCells buildableCells
    walkableCells initializeGrid with_grid rows cols].
  split; [reflexivity |].
  rewrite (fresh_count gm occupied (fun _ => false)),
          (fresh_count gm buildable (fun t => (derivationTable t).2)),
          (fresh_count gm walkable (fun t => (derivationTable t).1));
    try exact Hc;
    try (intros row col; unfold createGridCell;
         now rewrite configureCellByType_frame).
  rewrite !filter_row. simpl. repeat split; nia.
Qed.

Lemma getGridStats_fresh_witness :
  let stats := getGridStats grid5x9 in
  totalCells stats = 45 /\ occupiedCells stats = 0
  /\ buildableCells stats = 35 /\ walkableCells stats = 10.
Proof.
  apply (getGridStats_fresh declared); discriminate.
Defined.

End GridExtras.

(** ** Levels *)

Module LevelFacts.
Import GridManager GridProps GridFacts GridExtras LevelManager LevelProps.

Lemma existsb_eqb_elem_of (s : string) (l : list string) :
  existsb (String.eqb s) l = true <-> s ∈ l.
Proof.
  induction l as [| k l IH]; simpl.
  - split; [discriminate | intros H; inversion H].
  - rewrite orb_true_iff, IH, elem_of_cons.
    now destruct (String.eqb_spec s k); intuition.
Qed.

Lemma stringToCellType_member s :
  s ∉ objectPrototypeKeys -> exists t, stringToCellType s = Member t.
Proof.
  intros Hs. unfold stringToCellType.
  repeat match goal with
  | |- context [String.eqb s ?k] =>
    destruct (String.eqb s k); [now eexists |]
  end.
  destruct (existsb _ _) eqn:E; [| now eexists].
  now apply existsb_eqb_elem_of in E.
Qed.

(** X8.  stringToCellType maps the string value of each GridCellType member
    back to that member.  A name that typeMap inherits from Object.prototype
    (constructor, toString, __proto__ and the like) is mapped to the
    inherited value, which is no GridCellType.  Every other string (the
    match is exact, so also a member's name in other letter case) is mapped
    to EMPTY. *)
Theorem stringToCellType_typeString :
  (forall t, stringToCellType (typeString t) = Member t)
  /\ (forall s, (forall t, s <> typeString t) -> s ∉ objectPrototypeKeys ->
        stringToCellType s = Member EMPTY)
  /\ (forall s, s ∈ objectPrototypeKeys -> stringToCellType s = Inherited s).
Proof.
  split; [| split].
  - intros t. now destruct t.
  - intros s Hs Hown. unfold stringToCellType.
    repeat match goal with
    | |- context [String.eqb s ?k] =>
      destruct (String.eqb_spec s k) as [E | _];
        [exfalso; subst s;
         first [ exact (Hs EMPTY eq_refl) | exact (Hs PLANT_ZONE eq_refl)
               | exact (Hs PATH eq_refl) | exact (Hs SPAWN eq_refl)
               | exact (Hs GOAL eq_refl) | exact (Hs OBSTACLE eq_refl)
               | exact (Hs SPECIAL eq_refl) ] |]
    end.
    destruct (existsb _ _) eqn:E; [| reflexivity].
    now apply existsb_eqb_elem_of in E.
  - intros s Hin. unfold objectPrototypeKeys in Hin.
    repeat (apply elem_of_cons in Hin as [-> | Hin]; [reflexivity |]).
    inversion Hin.
Qed.

Lemma stringToCellType_typeString_witness :
  stringToCellType "Obstacle" = Member EMPTY
  /\ stringToCellType "constructor" = Inherited "constructor".
Proof.
  destruct stringToCellType_typeString as (_ & Hother & Hkey). split.
  - apply Hother.
    + intros t. destruct t; discriminate.
    + apply (bool_decide_unpack _). vm_compute. exact I.
  - apply Hkey. apply (bool_decide_unpack _). vm_compute. exact I.
Defined.

Lemma configureSpecialCell_typedGrid gm sc :
  sc_type sc ∉ objectPrototypeKeys ->
  configureSpecialCell gm sc = Some (typedGrid gm sc).
Proof.
  intros Hown. destruct (stringToCellType_member _ Hown) as [t Ht].
  unfold configureSpecialCell, typedGrid, setCellType, typed, typeNamed.
  rewrite Ht.
  destruct (getCell gm (sc_row sc) (sc_col sc)) as [cell|] eqn:Hc;
    cbn [fst snd].
  - rewrite getCell_updateCell_same, Hc. cbn [fmap option_fmap option_map].
    destruct (sc_properties sc) as [props|]; [| reflexivity].
    f_equal. apply updateCell_twice.
  - rewrite Hc. now destruct (sc_properties sc).
Qed.

Lemma configureSpecialCells_typedGrid gm cells :
  noInheritedKey cells ->
  configureSpecialCells gm cells = Some (fold_left typedGrid cells gm).
Proof.
  revert gm. induction cells as [| sc cells IH]; intros gm Hown;
    [reflexivity |].
  simpl. rewrite configureSpecialCell_typedGrid.
  - apply IH. intros sc' Hin. apply Hown. now right.
  - apply Hown. now left.
Qed.

Lemma configureSpecialCell_inherited gm sc :
  sc_type sc ∈ objectPrototypeKeys -> configureSpecialCell gm sc = None.
Proof.
  intros Hin. unfold configureSpecialCell.
  destruct stringToCellType_typeString as (_ & _ & Hkey).
  now rewrite (Hkey _ Hin).
Qed.

Lemma typedGrid_valid gm sc row col :
  isValidCoordinate (typedGrid gm sc) row col = isValidCoordinate gm row col.
Proof.
  unfold typedGrid. now destruct (getCell gm (sc_row sc) (sc_col sc)).
Qed.

Lemma typedGrid_other gm sc row col :
  (row, col) <> (sc_row sc, sc_col sc) ->
  getCell (typedGrid gm sc) row col = getCell gm row col.
Proof.
  intros Hne. unfold typedGrid.
  destruct (getCell gm (sc_row sc) (sc_col sc)) as [cell|] eqn:Hc;
    [| reflexivity].
  apply getCell_updateCell_other; [| exact Hne].
  apply getCell_Some in Hc. tauto.
Qed.

Lemma typedGrid_same gm sc :
  getCell (typedGrid gm sc) (sc_row sc) (sc_col sc)
  = typed sc <$> getCell gm (sc_row sc) (sc_col sc).
Proof.
  unfold typedGrid.
  destruct (getCell gm (sc_row sc) (sc_col sc)) as [cell|] eqn:Hc.
  - now rewrite getCell_updateCell_same, Hc.
  - now rewrite Hc.
Qed.

Lemma typed_fields sc cell :
  cellType (typed sc cell) = typeNamed sc
  /\ (walkable (typed sc cell), buildable (typed sc cell))
     = derivationTable (typeNamed sc)
  /\ occupied (typed sc cell) = occupied cell
  /\ occupant (typed sc cell) = occupant cell
  /\ coordinate (typed sc cell) = coordinate cell.
Proof.
  unfold typed. rewrite configureCellByType_frame.
  destruct (sc_properties sc); cbn; repeat split;
    now destruct (derivationTable _).
Qed.

Lemma typedGrids_valid gm cells row col :
  isValidCoordinate (fold_left typedGrid cells gm) row col
  = isValidCoordinate gm row col.
Proof.
  revert gm.
  induction cells as [| sc cells IH]; intros gm; [reflexivity |].
  simpl. rewrite IH. apply typedGrid_valid.
Qed.

Lemma typedGrids_untouched gm cells row col :
  (forall sc, sc ∈ cells -> (row, col) <> (sc_row sc, sc_col sc)) ->
  getCell (fold_left typedGrid cells gm) row col = getCell gm row col.
Proof.
  revert gm.
  induction cells as [| sc cells IH]; intros gm H; [reflexivity |].
  simpl. rewrite IH.
  - apply typedGrid_other. apply H. now left.
  - intros sc' Hin. apply H. now right.
Qed.

Lemma typedGrids_is_Some gm cells row col :
  is_Some (getCell gm row col) ->
  is_Some (getCell (fold_left typedGrid cells gm) row col).
Proof.
  revert gm.
  induction cells as [| sc cells IH]; intros gm H; [exact H |].
  simpl. apply IH.
  destruct (decide ((row, col) = (sc_row sc, sc_col sc))) as [E | E].
  - inversion E; subst. rewrite typedGrid_same.
    destruct H as [cell ->]. now eexists.
  - now rewrite typedGrid_other.
Qed.

Lemma typedGrids_dims gm cells :
  rows (fold_left typedGrid cells gm) = rows gm
  /\ cols (fold_left typedGrid cells gm) = cols gm.
Proof.
  revert gm.
  induction cells as [| sc cs IH]; intros g; [now split |]. simpl.
  destruct (IH (typedGrid g sc)) as [E1 E2].
  rewrite E1, E2. unfold typedGrid.
  now destruct (getCell g (sc_row sc) (sc_col sc)).
Qed.

(** X9.  For a level that validateLevelData accepts and whose special-cell
    entries name no member that typeMap inherits, applyLevelConfiguration
    completes and gives the grid the rows and cols of the level, both
    positive.  The cell at the coordinate of a special-cell entry has the
    type the entry names and the flags of the derivation table, the last
    entry winning when several name one coordinate; every cell that no
    entry names is the fresh cell of the reconfigured grid.  Validation
    does not look at the type strings: it accepts a level with an entry of
    type toString, and applying that level leaves a grid with a cell whose
    type is no GridCellType (no result in this model). *)
Theorem validated_level_is_applied :
  (forall gm levelData gridConfig cells,
     validateLevelData (Some levelData) = true ->
     grid levelData = Some gridConfig ->
     specialCells levelData = Some cells ->
     noInheritedKey cells ->
     exists gm',
       applyLevelConfiguration gm levelData = Some gm'
       /\ rows gm' = lg_rows gridConfig /\ 0 < rows gm'
       /\ cols gm' = lg_cols gridConfig /\ 0 < cols gm'
       /\ (forall before sc after,
             cells = before ++ sc :: after ->
             (forall sc', sc' ∈ after ->
                (sc_row sc, sc_col sc) <> (sc_row sc', sc_col sc')) ->
             exists cell t,
               getCell gm' (sc_row sc) (sc_col sc) = Some cell
               /\ namesType sc t
               /\ cellType cell = t
               /\ (walkable cell, buildable cell) = derivationTable t)
       /\ (forall row col,
             isValidCoordinate gm' row col = true ->
             (forall sc, sc ∈ cells -> (row, col) <> (sc_row sc, sc_col sc)) ->
             getCell gm' row col
             = Some (createGridCell (configureGrid gm gridConfig) row col)))
  /\ validateLevelData (Some thicket) = true
  /\ (forall gm, applyLevelConfiguration gm thicket = None).
Proof.
  split; [| split; [reflexivity | intros gm; reflexivity]].
  intros gm levelData gridConfig cells Hvalid Hgrid Hcells Hown.
  unfold applyLevelConfiguration. rewrite Hgrid, Hcells.
  unfold validateLevelData in Hvalid. rewrite Hgrid, Hcells in Hvalid.
  destruct (negb (nonEmpty (id levelData))); [discriminate |].
  destruct (negb (nonEmpty (name levelData))); [discriminate |].
  destruct ((lg_rows gridConfig <=? 0) || (lg_cols gridConfig <=? 0)) eqn:Hdim;
    [discriminate |].
  apply orb_false_iff in Hdim as [Hr Hc].
  apply Z.leb_gt in Hr, Hc.
  set (gm1 := configureGrid gm gridConfig).
  rewrite (configureSpecialCells_typedGrid gm1 cells Hown).
  eexists. split; [reflexivity |].
  assert (Hrows : rows gm1 = lg_rows gridConfig) by reflexivity.
  assert (Hcols : cols gm1 = lg_cols gridConfig) by reflexivity.
  assert (Hsame : forall row col,
            isValidCoordinate (fold_left typedGrid cells gm1) row col
            = isValidCoordinate gm1 row col).
  { intros. apply typedGrids_valid. }
  assert (Hfresh : forall row col, isValidCoordinate gm1 row col = true ->
            getCell gm1 row col = Some (createGridCell gm1 row col)).
  { intros row col Hv. clear Hsame. subst gm1.
    unfold configureGrid, reconfigureGrid in *.
    set (g0 := mkGrid _ _ _ _ _ _ _ _ _ _) in *.
    now rewrite (getCell_initializeGrid g0 row col Hv). }
  pose proof (typedGrids_dims gm1 cells) as Hdims'.
  destruct Hdims' as [Hr' Hc'].
  split; [congruence |]. split; [lia |]. split; [congruence |].
  split; [lia |]. split.
  - intros before sc after Hsplit Hlast. subst cells.
    rewrite fold_left_app. cbn [fold_left].
    set (gm2 := fold_left typedGrid before gm1).
    rewrite typedGrids_untouched by exact Hlast.
    assert (Hin : inRange gridConfig sc = true).
    { rewrite forallb_app in Hvalid. apply andb_true_iff in Hvalid as [_ H].
      simpl in H. now apply andb_true_iff in H as [H _]. }
    assert (Hv : isValidCoordinate gm1 (sc_row sc) (sc_col sc) = true).
    { apply isValidCoordinate_iff. rewrite Hrows, Hcols.
      unfold inRange in Hin. apply negb_true_iff in Hin.
      repeat (apply orb_false_iff in Hin as [Hin ?]).
      repeat match goal with
      | H : (_ <? _) = false |- _ => apply Z.ltb_ge in H
      | H : (_ <=? _) = false |- _ => apply Z.leb_gt in H
      end. lia. }
    destruct (typedGrids_is_Some gm1 before (sc_row sc) (sc_col sc))
      as [cell Hcell].
    { rewrite (Hfresh _ _ Hv). now eexists. }
    fold gm2 in Hcell. rewrite typedGrid_same, Hcell. simpl.
    destruct (stringToCellType_member (sc_type sc)) as [t Ht].
    { apply Hown. apply elem_of_app. right. now left. }
    exists (typed sc cell), t. split; [reflexivity |].
    split; [exact Ht |].
    destruct (typed_fields sc cell) as (H1 & H2 & _).
    unfold typeNamed in H1, H2. rewrite Ht in H1, H2. now split.
  - intros row col Hv Hnone.
    rewrite typedGrids_untouched by exact Hnone.
    apply Hfresh. now rewrite <- Hsame.
Qed.

Lemma validated_level_is_applied_witness :
  validateLevelData (Some meadow) = true
  /\ noInheritedKey meadowCells
  /\ exists gm' cell,
       applyLevelConfiguration grid3x3 meadow = Some gm'
       /\ rows gm' = 2
       /\ getCell gm' 0 1 = Some cell
       /\ cellType cell = SPECIAL.
Proof.
  assert (Hv : validateLevelData (Some meadow) = true) by reflexivity.
  assert (Hown : noInheritedKey meadowCells).
  { intros sc Hin. unfold meadowCells in Hin.
    repeat (apply elem_of_cons in Hin as [-> | Hin];
            [apply (bool_decide_unpack _); vm_compute; exact I |]).
    inversion Hin. }
  destruct validated_level_is_applied as [Happlied _].
  destruct (Happlied grid3x3 meadow meadowGrid meadowCells
              Hv eq_refl eq_refl Hown)
    as (gm' & Hrun & H1 & _ & _ & _ & H5 & _).
  split; [exact Hv |]. split; [exact Hown |].
  destruct (H5 [mkSpecial 0 1 "obstacle" None;
                mkSpecial 1 1 "path" (Some [("speed", "2")])]
              (mkSpecial 0 1 "special" None) [] eq_refl)
    as (cell & t & Hc & Hn & Ht & _).
  - intros sc' Hin. inversion Hin.
  - exists gm', cell. split; [exact Hrun |]. split; [exact H1 |].
    split; [exact Hc |].
    rewrite Ht. unfold namesType in Hn. cbn in Hn. congruence.
Defined.

End LevelFacts.

(** ** The event manager *)

Module EventFacts.
Import EventManager EventProps.

Lemma filter_none_all {A} (p : A -> bool) (l : list A) :
  List.filter p l = [] -> List.filter (fun a => negb (p a)) l = l.
Proof.
  induction l as [| a l IH]; [reflexivity |]. simpl.
  destruct (p a); [discriminate |]. simpl. intros H. f_equal. now apply IH.
Qed.

Lemma emit_trace throws em eventType :
  (emit throws em eventType).1 = map callback (listenersOf em eventType).
Proof.
  unfold emit, listenersOf.
  destruct (_eventListeners em !! eventType) as [[| l ls]|]; reflexivity.
Qed.

Lemma emit_listeners throws em eventType eventType' :
  listenersOf (emit throws em eventType).2 eventType'
  = if decide (eventType = eventType')
    then List.filter (survives throws) (listenersOf em eventType')
    else listenersOf em eventType'.
Proof.
  unfold emit, listenersOf.
  destruct (_eventListeners em !! eventType) as [[| l ls]|] eqn:E.
  - cbn [snd]. destruct (decide _) as [<- |]; [| reflexivity].
    now rewrite E.
  - cbn [snd].
    destruct (List.filter (fun l => once l && negb (throws (callback l)))
                (l :: ls)) as [| r rs] eqn:Hrem.
    + destruct (decide _) as [<- |]; [| reflexivity]. rewrite E.
      cbn [default]. symmetry. now apply filter_none_all.
    + cbn [_eventListeners with_listeners]. rewrite lookup_insert.
      destruct (decide (eventType = eventType')) as [<- |]; [| reflexivity].
      now rewrite E.
  - cbn [snd]. destruct (decide _) as [<- |]; [| reflexivity].
    now rewrite E.
Qed.

Lemma listenersOf_addListener em eventType listener eventType' :
  listenersOf (addListener em eventType listener) eventType'
  = if decide (eventType = eventType')
    then listenersOf em eventType' ++ [listener]
    else listenersOf em eventType'.
Proof.
  unfold addListener, listenersOf. cbn [_eventListeners with_listeners].
  rewrite lookup_insert. destruct (decide _) as [<- |]; reflexivity.
Qed.

(** X10.  A listener added with on is called last: emit calls the callbacks
    registered before for the event, in their order, and then the new one.
    The listener count of the event grows by one, and the emission of any
    other event is unaffected. *)
Theorem on_then_emit throws em eventType cb tg :
  (emit throws (on em eventType cb tg) eventType).1
  = (emit throws em eventType).1 ++ [cb]
  /\ getEventListenerCount (on em eventType cb tg) eventType
     = S (getEventListenerCount em eventType)
  /\ (forall other, other <> eventType ->
        (emit throws (on em eventType cb tg) other).1
        = (emit throws em other).1).
Proof.
  unfold on. split; [| split].
  - rewrite !emit_trace, listenersOf_addListener.
    destruct (decide _); [| congruence]. now rewrite map_app.
  - unfold getEventListenerCount, addListener.
    cbn [_eventListeners with_listeners]. rewrite lookup_insert_eq.
    rewrite length_app. simpl.
    destruct (_eventListeners em !! eventType); simpl; lia.
  - intros other Hne. rewrite !emit_trace, listenersOf_addListener.
    destruct (decide _); [congruence | reflexivity].
Qed.

Lemma on_then_emit_witness :
  (emit neverThrows (on hub "hit" 4%positive None) "hit").1
  = [1; 2; 3; 4]%positive
  /\ (emit neverThrows (on hub "hit" 4%positive None) "miss").1 = [].
Proof.
  destruct (on_then_emit neverThrows hub "hit" 4%positive None)
    as (H1 & _ & H3).
  split; [etrans; [exact H1 | reflexivity] |].
  etrans; [apply H3; discriminate | reflexivity].
Defined.

(** X11.  With each callback registered once for the event: emit calls
    every listener of the event, in registration order, and removes the
    one-time listeners whose callback returned; a one-time listener whose
    callback threw stays registered.  The next emission calls exactly the
    listeners that are left, and removes in turn the one-time ones whose
    callback returns this time; whether a callback throws may differ
    between the two emissions, so a one-time listener that threw at the
    first is removed by the second if it returns then.  The listeners of
    other events are untouched. *)
Theorem emit_drops_one_time_listeners throws1 throws2 em eventType :
  NoDup (map callback (listenersOf em eventType)) ->
  let '(first, em1) := emit throws1 em eventType in
  let '(second, em2) := emit throws2 em1 eventType in
  first = map callback (listenersOf em eventType)
  /\ listenersOf em1 eventType
     = List.filter (survives throws1) (listenersOf em eventType)
  /\ second
     = map callback (List.filter (survives throws1) (listenersOf em eventType))
  /\ listenersOf em2 eventType
     = List.filter (survives throws2)
         (List.filter (survives throws1) (listenersOf em eventType))
  /\ (forall other, other <> eventType ->
        listenersOf em2 other = listenersOf em other).
Proof.
  intros _.
  pose proof (emit_trace throws1 em eventType) as T1.
  pose proof (emit_listeners throws1 em eventType) as L1.
  destruct (emit throws1 em eventType) as [first em1]. cbn [fst snd] in *.
  pose proof (emit_trace throws2 em1 eventType) as T2.
  pose proof (emit_listeners throws2 em1 eventType) as L2.
  destruct (emit throws2 em1 eventType) as [second em2]. cbn [fst snd] in *.
  assert (E1 : listenersOf em1 eventType
               = List.filter (survives throws1) (listenersOf em eventType)).
  { rewrite L1. now destruct (decide _). }
  split; [exact T1 |]. split; [exact E1 |]. split; [| split].
  - now rewrite T2, E1.
  - rewrite L2. destruct (decide _); [| congruence]. now rewrite E1.
  - intros other Hne. rewrite L2, L1.
    destruct (decide _); [congruence | reflexivity].
Qed.

Lemma emit_drops_one_time_listeners_witness :
  NoDup (map callback (listenersOf hub "hit"))
  /\ (emit (onlyThrows 3%positive) hub "hit").1 = [1; 2; 3]%positive
  /\ (emit neverThrows (emit (onlyThrows 3%positive) hub "hit").2 "hit").1
     = [1; 2; 3]%positive
  /\ map callback
       (listenersOf
          (emit neverThrows (emit (onlyThrows 3%positive) hub "hit").2 "hit").2 "hit")
     = [1; 2]%positive
  /\ (emit neverThrows (emit neverThrows hub "hit").2 "hit").1
     = [1; 2]%positive.
Proof.
  assert (Hd : NoDup (map callback (listenersOf hub "hit"))).
  { apply (bool_decide_unpack _). vm_compute. exact I. }
  split; [exact Hd |].
  pose proof (emit_drops_one_time_listeners (onlyThrows 3%positive) neverThrows
                hub "hit" Hd) as H.
  pose proof (emit_drops_one_time_listeners neverThrows neverThrows
                hub "hit" Hd) as K.
  destruct (emit (onlyThrows 3%positive) hub "hit") as [first em1]. cbn [fst snd].
  destruct (emit neverThrows em1 "hit") as [second em2]. cbn [fst snd].
  destruct (emit neverThrows hub "hit") as [first' em1']. cbn [fst snd].
  destruct (emit neverThrows em1' "hit") as [second' em2']. cbn [fst snd].
  destruct H as (H1 & _ & H2 & H3 & _). destruct K as (_ & _ & K2 & _).
  split; [rewrite H1; reflexivity |].
  split; [rewrite H2; reflexivity |].
  split; [rewrite H3; reflexivity | rewrite K2; reflexivity].
Defined.

Lemma map_filter_callback (cb : Callback) (ls : list EventListener) :
  map callback
    (List.filter (fun l => negb (Pos.eqb (callback l) cb)) ls)
  = List.filter (fun c => negb (Pos.eqb c cb)) (map callback ls).
Proof.
  induction ls as [| l ls IH]; [reflexivity |]. simpl.
  destruct (negb (Pos.eqb (callback l) cb)); simpl; now rewrite IH.
Qed.

(** X12.  off(eventType, callback) removes every listener of the event that
    has this callback: the next emission calls the remaining callbacks in
    their order and never this one.  off(eventType) alone removes all
    listeners of the event.  Whatever its arguments, off leaves the
    listeners of other events alone. *)
Theorem off_silences throws em eventType cb :
  (emit throws (off em eventType (Some cb) None) eventType).1
  = List.filter (fun c => negb (Pos.eqb c cb)) (emit throws em eventType).1
  /\ (cb ∉ fst (emit throws (off em eventType (Some cb) None) eventType))
  /\ (emit throws (off em eventType None None) eventType).1 = []
  /\ getEventListenerCount (off em eventType None None) eventType = 0%nat
  /\ (forall other cb' tg, other <> eventType ->
        listenersOf (off em eventType cb' tg) other = listenersOf em other).
Proof.
  assert (H1 : (emit throws (off em eventType (Some cb) None) eventType).1
    = List.filter (fun c => negb (Pos.eqb c cb))
        (emit throws em eventType).1).
  { rewrite !emit_trace. unfold off, listenersOf.
    destruct (_eventListeners em !! eventType) as [ls|] eqn:E.
    - cbn [_eventListeners with_listeners]. rewrite lookup_insert_eq.
      apply map_filter_callback.
    - now rewrite E. }
  split; [exact H1 |]. split; [| split; [| split]].
  - rewrite H1, list_elem_of_In, filter_In. intros [_ H].
    now rewrite Pos.eqb_refl in H.
  - rewrite emit_trace. unfold off, listenersOf.
    destruct (_eventListeners em !! eventType) as [ls|] eqn:E.
    + cbn [_eventListeners with_listeners]. now rewrite lookup_delete_eq.
    + now rewrite E.
  - unfold getEventListenerCount, off.
    destruct (_eventListeners em !! eventType) as [ls|] eqn:E.
    + cbn [_eventListeners with_listeners]. now rewrite lookup_delete_eq.
    + now rewrite E.
  - intros other cb' tg Hne. unfold off, listenersOf.
    destruct (_eventListeners em !! eventType) as [ls|] eqn:E;
      [| reflexivity].
    destruct cb' as [c|], tg as [t|]; cbn [_eventListeners with_listeners];
      rewrite ?lookup_insert_ne, ?lookup_delete_ne by congruence;
      reflexivity.
Qed.

Lemma off_silences_witness :
  (emit neverThrows (off hub "hit" (Some 2%positive) None) "hit").1
  = [1; 3]%positive
  /\ (forall tg, listenersOf (off hub "hit" None tg) "miss"
                 = listenersOf hub "miss").
Proof.
  destruct (off_silences neverThrows hub "hit" 2%positive)
    as (H1 & _ & _ & _ & H5).
  split; [etrans; [exact H1 | reflexivity] |].
  intros tg. apply H5. discriminate.
Defined.

(** X13.  clearTargetListeners(target) removes, from every event, every
    click id and the global click handlers, exactly the entries bound to
    the target and keeps the others in their order; afterwards no listener
    and no click handler is bound to it. *)
Theorem clearTargetListeners_removes em tg :
  let em' := clearTargetListeners em tg in
  (forall eventType,
     listenersOf em' eventType
     = List.filter (fun l => differs (target l) tg)
         (listenersOf em eventType))
  /\ (forall clickId,
        handlersOf em' clickId
        = List.filter (fun h => differs (handlerTarget h) tg)
            (handlersOf em clickId))
  /\ _globalClickHandlers em'
     = List.filter (fun h => differs (handlerTarget h) tg)
         (_globalClickHandlers em)
  /\ (forall eventType l, l ∈ listenersOf em' eventType -> target l <> tg)
  /\ (forall clickId h, h ∈ handlersOf em' clickId -> handlerTarget h <> tg).
Proof.
  cbv zeta.
  assert (L : forall eventType,
    listenersOf (clearTargetListeners em tg) eventType
    = List.filter (fun l => differs (target l) tg)
        (listenersOf em eventType)).
  { intros eventType. unfold listenersOf, clearTargetListeners.
    cbn [_eventListeners]. rewrite lookup_fmap.
    now destruct (_eventListeners em !! eventType). }
  assert (H : forall clickId,
    handlersOf (clearTargetListeners em tg) clickId
    = List.filter (fun h => differs (handlerTarget h) tg)
        (handlersOf em clickId)).
  { intros clickId. unfold handlersOf, clearTargetListeners.
    cbn [_clickHandlers]. rewrite lookup_fmap.
    now destruct (_clickHandlers em !! clickId). }
  split; [exact L |]. split; [exact H |]. split; [reflexivity |]. split.
  - intros eventType l. rewrite L, list_elem_of_In, filter_In.
    intros [_ Hd] E. unfold differs in Hd.
    now rewrite bool_decide_eq_true_2 in Hd.
  - intros clickId h. rewrite H, list_elem_of_In, filter_In.
    intros [_ Hd] E. unfold differs in Hd.
    now rewrite bool_decide_eq_true_2 in Hd.
Qed.

Lemma clearTargetListeners_removes_witness :
  map callback (listenersOf (clearTargetListeners hub (Some 9%positive)) "hit")
  = [2; 3]%positive
  /\ (forall l,
        l ∈ listenersOf (clearTargetListeners hub (Some 9%positive)) "hit" ->
        target l <> Some 9%positive).
Proof.
  destruct (clearTargetListeners_removes hub (Some 9%positive))
    as (H1 & _ & _ & H4 & _).
  split; [| intros l; apply H4].
  etrans; [exact (f_equal (map callback) (H1 "hit")) | reflexivity].
Defined.

Lemma click_routes_differ clickId : "click" <> "click:" +:+ clickId.
Proof. discriminate. Qed.

Lemma setClickHandlerEnabled_effect em clickId e :
  handlersOf (setClickHandlerEnabled em clickId e) clickId
  = map (setEnabled e) (handlersOf em clickId)
  /\ _globalClickHandlers (setClickHandlerEnabled em clickId e)
     = _globalClickHandlers em
  /\ _eventListeners (setClickHandlerEnabled em clickId e)
     = _eventListeners em.
Proof.
  unfold setClickHandlerEnabled, handlersOf.
  destruct (_clickHandlers em !! clickId) as [hs|] eqn:E.
  - cbn [_clickHandlers with_handlers _globalClickHandlers _eventListeners].
    now rewrite lookup_insert_eq.
  - now rewrite E.
Qed.

(** X14.  handleClick(clickId) calls, in this order: the enabled handlers
    registered for clickId, the enabled global handlers, the listeners of
    the event click, and the listeners of the event click:<clickId>.  After
    setClickHandlerEnabled(clickId, false) the handlers of clickId are
    skipped and the rest is called as before; the handlers of other click
    ids are not affected by it. *)
Theorem handleClick_order throws em clickId :
  (handleClick throws em clickId).1
  = map handler (List.filter enabled (handlersOf em clickId))
    ++ map handler (List.filter enabled (_globalClickHandlers em))
    ++ map callback (listenersOf em "click")
    ++ map callback (listenersOf em ("click:" +:+ clickId))
  /\ (handleClick throws (setClickHandlerEnabled em clickId false) clickId).1
     = map handler (List.filter enabled (_globalClickHandlers em))
       ++ map callback (listenersOf em "click")
       ++ map callback (listenersOf em ("click:" +:+ clickId))
  /\ (forall other enabled', other <> clickId ->
        handlersOf (setClickHandlerEnabled em clickId enabled') other
        = handlersOf em other).
Proof.
  assert (H : forall m,
    (handleClick throws m clickId).1
    = map handler (List.filter enabled (handlersOf m clickId))
      ++ map handler (List.filter enabled (_globalClickHandlers m))
      ++ map callback (listenersOf m "click")
      ++ map callback (listenersOf m ("click:" +:+ clickId))).
  { intros m. unfold handleClick.
    pose proof (emit_trace throws m "click") as T1.
    pose proof (emit_listeners throws m "click" ("click:" +:+ clickId)) as L1.
    destruct (emit throws m "click") as [generic m1]. cbn [fst snd] in *.
    pose proof (emit_trace throws m1 ("click:" +:+ clickId)) as T2.
    destruct (emit throws m1 ("click:" +:+ clickId)) as [routed m2].
    cbn [fst snd] in *. rewrite T1, T2, L1.
    destruct (decide _) as [E |]; [now apply click_routes_differ in E |].
    reflexivity. }
  split; [apply H |]. split.
  - rewrite H.
    destruct (setClickHandlerEnabled_effect em clickId false)
      as (E1 & E2 & E3).
    unfold listenersOf. rewrite E1, E2, E3.
    assert (Hoff : forall hs,
              List.filter enabled (map (setEnabled false) hs) = []).
    { induction hs as [| h hs IH]; [reflexivity |]. exact IH. }
    now rewrite Hoff.
  - intros other enabled' Hne. unfold setClickHandlerEnabled, handlersOf.
    destruct (_clickHandlers em !! clickId) as [hs|]; [| reflexivity].
    cbn [_clickHandlers with_handlers]. now rewrite lookup_insert_ne.
Qed.

Lemma handleClick_order_witness :
  (handleClick neverThrows desk "start").1 = [7; 8; 5; 6]%positive
  /\ handlersOf (setClickHandlerEnabled desk "start" false) "stop"
     = handlersOf desk "stop".
Proof.
  destruct (handleClick_order neverThrows desk "start") as (H1 & _ & H3).
  split; [etrans; [exact H1 | reflexivity] |].
  apply H3. discriminate.
Defined.

End EventFacts.

(** ** The log *)

Module LoggerFacts.
Import Logger LoggerProps.

Lemma output_frame lg now l m msg :
  _config (output lg now l m msg) = _config lg
  /\ _moduleFilters (output lg now l m msg) = _moduleFilters lg.
Proof.
  unfold output, recordLog. now destruct (negb (shouldLog lg l m)).
Qed.

Lemma outputs_frame lg calls :
  _config (outputs lg calls) = _config lg
  /\ _moduleFilters (outputs lg calls) = _moduleFilters lg.
Proof.
  unfold outputs. revert lg.
  induction calls as [| [[[now l] m] msg] calls IH]; intros lg; [now split |].
  cbn [fold_left]. destruct (IH (output lg now l m msg)) as [E1 E2].
  destruct (output_frame lg now l m msg) as [F1 F2].
  split; congruence.
Qed.

Lemma output_history lg now l m msg :
  _logHistory (output lg now l m msg)
  = if shouldLog lg l m
    then
      if Z.of_nat (length (_logHistory lg)) <? maxLogHistory (_config lg)
      then _logHistory lg ++ [mkRecord now l m msg]
      else drop 1 (_logHistory lg ++ [mkRecord now l m msg])
    else _logHistory lg.
Proof.
  unfold output, recordLog. destruct (shouldLog lg l m); [| reflexivity].
  cbn [negb _logHistory]. rewrite length_app. cbn [length].
  destruct (Z.ltb_spec (Z.of_nat (length (_logHistory lg)))
              (maxLogHistory (_config lg)));
    destruct (Z.ltb_spec (maxLogHistory (_config lg))
                (Z.of_nat (length (_logHistory lg) + 1)));
    try reflexivity; lia.
Qed.

(** X15.  The log history is a bounded first-in first-out buffer: when it
    holds at most maxLogHistory records it still does after any sequence of
    output calls; a record that passes the filters becomes the newest one
    (for a positive limit), and when the history is full the oldest record
    is the one dropped. *)
Theorem history_stays_within_limit lg calls :
  withinLimit lg ->
  withinLimit (outputs lg calls)
  /\ (forall now l m msg,
        shouldLog lg l m = true -> 0 < maxLogHistory (_config lg) ->
        last (_logHistory (output lg now l m msg))
        = Some (mkRecord now l m msg))
  /\ (forall now l m msg,
        shouldLog lg l m = true ->
        Z.of_nat (length (_logHistory lg)) = maxLogHistory (_config lg) ->
        _logHistory (output lg now l m msg)
        = drop 1 (_logHistory lg) ++ [mkRecord now l m msg]
        \/ _logHistory lg = []).
Proof.
  intros Hlim. split; [| split].
  - unfold outputs. revert lg Hlim.
    induction calls as [| [[[now l] m] msg] calls IH]; intros lg Hlim;
      [exact Hlim |].
    cbn [fold_left]. apply IH. unfold withinLimit in *.
    destruct (output_frame lg now l m msg) as [-> _].
    rewrite output_history.
    destruct (shouldLog lg l m); [| exact Hlim].
    destruct (Z.ltb_spec (Z.of_nat (length (_logHistory lg)))
                (maxLogHistory (_config lg))).
    + rewrite length_app. cbn [length]. lia.
    + rewrite length_drop, length_app. cbn [length]. lia.
  - intros now l m msg Hlog Hpos. rewrite output_history, Hlog.
    unfold withinLimit in Hlim.
    destruct (Z.ltb_spec (Z.of_nat (length (_logHistory lg)))
                (maxLogHistory (_config lg))).
    + apply last_snoc.
    + destruct (_logHistory lg) as [| r rs] eqn:E; [simpl in *; lia |].
      cbn [app drop]. apply last_snoc.
  - intros now l m msg Hlog Hfull. rewrite output_history, Hlog.
    destruct (Z.ltb_spec (Z.of_nat (length (_logHistory lg)))
                (maxLogHistory (_config lg))); [lia |].
    destruct (_logHistory lg) as [| r rs]; [now right | now left].
Qed.

Lemma history_stays_within_limit_witness :
  withinLimit tight
  /\ _logHistory (outputs tight chatter) = [mkRecord 3 ERROR "Bullet" "c"]
  /\ withinLimit (outputs tight chatter).
Proof.
  assert (H : withinLimit tight) by (vm_compute; discriminate).
  split; [exact H |]. split; [reflexivity |].
  destruct (history_stays_within_limit tight chatter H) as [H1 _].
  exact H1.
Defined.

(** X16.  Lowering maxLogHistory to or below the current length of the
    history never trims it: recordLog drops one record per record it
    stores, so the history keeps its length under every later sequence of
    output calls, whatever they log. *)
Theorem history_over_limit_is_never_trimmed lg config calls :
  let lg' := setConfig lg config in
  maxLogHistory (_config lg') <= Z.of_nat (length (_logHistory lg)) ->
  _logHistory lg' = _logHistory lg
  /\ length (_logHistory (outputs lg' calls)) = length (_logHistory lg).
Proof.
  intros lg' Hover. split; [reflexivity |].
  change (_logHistory lg) with (_logHistory lg') in *.
  clearbody lg'. clear lg config. revert lg' Hover. unfold outputs.
  induction calls as [| [[[now l] m] msg] calls IH]; intros lg Hover;
    [reflexivity |].
  cbn [fold_left].
  assert (Hlen : length (_logHistory (output lg now l m msg))
                 = length (_logHistory lg)).
  { rewrite output_history. destruct (shouldLog lg l m); [| reflexivity].
    destruct (Z.ltb_spec (Z.of_nat (length (_logHistory lg)))
                (maxLogHistory (_config lg))); [lia |].
    rewrite length_drop, length_app. cbn [length]. lia. }
  rewrite IH; [exact Hlen |].
  destruct (output_frame lg now l m msg) as [-> _]. now rewrite Hlen.
Qed.

Lemma history_over_limit_is_never_trimmed_witness :
  let full := outputs initial chatter in
  let cut := setConfig full (mkLogOverride None None None None None (Some 2)) in
  length (_logHistory full) = 4%nat
  /\ length (_logHistory (outputs cut chatter)) = 4%nat.
Proof.
  intros full cut. split; [reflexivity |].
  destruct (history_over_limit_is_never_trimmed full
              (mkLogOverride None None None None None (Some 2)) chatter)
    as [_ H]; [vm_compute; discriminate |].
  exact H.
Defined.

(** X17.  No record below the configured level is stored: if the history
    holds none, it holds none after any sequence of output calls; a call
    below the level leaves the logger exactly as it is, and at level NONE
    every debug, log, warn and error call does. *)
Theorem records_respect_level lg calls :
  atLevel lg ->
  atLevel (outputs lg calls)
  /\ (forall now l m msg,
        levelValue l < levelValue (level (_config lg)) ->
        output lg now l m msg = lg)
  /\ (forall now l m msg,
        l <> NONE -> output (setLevel lg NONE) now l m msg = setLevel lg NONE).
Proof.
  intros Hat. split; [| split].
  - unfold outputs. revert lg Hat.
    induction calls as [| [[[now l] m] msg] calls IH]; intros lg Hat;
      [exact Hat |].
    cbn [fold_left]. apply IH. unfold atLevel in *.
    destruct (output_frame lg now l m msg) as [-> _].
    rewrite output_history.
    destruct (shouldLog lg l m) eqn:Hlog; [| exact Hat].
    assert (Hl : levelValue (level (_config lg)) <= levelValue l).
    { unfold shouldLog in Hlog.
      destruct (Z.ltb_spec (levelValue l) (levelValue (level (_config lg))));
        [discriminate | lia]. }
    assert (Hall : Forall (fun r => levelValue (level (_config lg))
                                    <= levelValue (recordLevel r))
                     (_logHistory lg ++ [mkRecord now l m msg])).
    { apply Forall_app. split; [exact Hat |]. now constructor. }
    destruct (_ <? _); [exact Hall |]. now apply Forall_drop.
  - intros now l m msg Hlt. unfold output, shouldLog.
    now rewrite (proj2 (Z.ltb_lt _ _) Hlt).
  - intros now l m msg Hne. unfold output, shouldLog. cbn.
    destruct l; try reflexivity. now contradiction Hne.
Qed.

Lemma records_respect_level_witness :
  atLevel tight
  /\ atLevel (outputs tight chatter)
  /\ output tight 5 LOG "GridManager" "quiet" = tight.
Proof.
  assert (H : atLevel tight) by constructor.
  destruct (records_respect_level tight chatter H) as (H1 & H2 & _).
  split; [exact H |]. split; [exact H1 |].
  apply H2. reflexivity.
Defined.

End LoggerFacts.

(** ** Actor health *)

Module ActorFacts.
Import ActorController ActorProps.

Lemma setHealth_health ac health :
  _currentHealth (setHealth ac health).1
  = Qmax 0 (Qmin health (maxHealth ac))
  /\ maxHealth (setHealth ac health).1 = maxHealth ac.
Proof.
  unfold setHealth. cbn [_currentHealth].
  now destruct (Qle_bool (Qmax 0 (Qmin health (maxHealth ac))) 0).
Qed.

Lemma health_clamped ac health :
  (0 <= maxHealth ac)%Q ->
  (0 <= _currentHealth (setHealth ac health).1)%Q
  /\ (_currentHealth (setHealth ac health).1 <= maxHealth ac)%Q.
Proof.
  intros Hmax. destruct (setHealth_health ac health) as [-> _]. split.
  - apply Q.le_max_l.
  - apply Q.max_lub; [exact Hmax | apply Q.le_min_r].
Qed.

Lemma takeAll_maxHealth ac damages :
  maxHealth (takeAll ac damages) = maxHealth ac.
Proof.
  unfold takeAll. revert ac.
  induction damages as [| d ds IH]; intros ac; [reflexivity |].
  cbn [fold_left]. rewrite IH. unfold takeDamage.
  now destruct (setHealth_health ac (_currentHealth ac - d)%Q).
Qed.

(** X18.  With maxHealth >= 0 the health of an actor stays between 0 and
    maxHealth under any sequence of hits, healing (negative damage)
    included.  A hit either leaves the actor alive, with its autoAttack
    setting, and then the damage was below the health; or it brings the
    health to 0, switches autoAttack off and announces the death, again at
    every further hit on a dead actor, and then the damage was at least the
    health or maxHealth is 0.  Damage that is not negative never raises
    the health. *)
Theorem health_stays_in_bounds ac damages :
  (0 <= maxHealth ac)%Q ->
  (0 <= _currentHealth ac)%Q -> (_currentHealth ac <= maxHealth ac)%Q ->
  ((0 <= _currentHealth (takeAll ac damages))%Q
   /\ (_currentHealth (takeAll ac damages) <= maxHealth ac)%Q)
  /\ (forall damage,
        let '(ac', evs) := takeDamage ac damage in
        (evs = [ActorDeath] /\ _currentHealth ac' == 0
         /\ autoAttack ac' = false
         /\ ((_currentHealth ac <= damage)%Q \/ maxHealth ac == 0))
        \/ (evs = [] /\ (0 < _currentHealth ac')%Q
            /\ autoAttack ac' = autoAttack ac
            /\ (damage < _currentHealth ac)%Q))
  /\ (forall damage,
        (0 <= damage)%Q ->
        (_currentHealth (takeDamage ac damage).1 <= _currentHealth ac)%Q).
Proof.
  intros Hmax Hlo Hhi. split; [| split].
  - unfold takeAll. revert ac Hmax Hlo Hhi.
    induction damages as [| d ds IH]; intros ac Hmax Hlo Hhi;
      [now split |].
    cbn [fold_left].
    destruct (health_clamped ac (_currentHealth ac - d)%Q Hmax) as [H1 H2].
    destruct (setHealth_health ac (_currentHealth ac - d)%Q) as [_ Hm].
    fold (takeDamage ac d) in H1, H2, Hm.
    rewrite <- Hm. apply IH; rewrite ?Hm; assumption.
  - intros damage. unfold takeDamage, setHealth, onDeath.
    cbn [_currentHealth maxHealth actorTag autoAttack].
    set (h := Qmax 0 (Qmin (_currentHealth ac - damage) (maxHealth ac))).
    assert (Hh : (0 <= h)%Q
                 /\ ((_currentHealth ac <= damage)%Q -> (h <= 0)%Q)
                 /\ ((damage < _currentHealth ac)%Q -> (0 < h)%Q
                     \/ maxHealth ac == 0)).
    { unfold h.
      destruct (Q.max_spec 0 (Qmin (_currentHealth ac - damage) (maxHealth ac)))
        as [[H1 H2] | [H1 H2]];
        destruct (Q.min_spec (_currentHealth ac - damage) (maxHealth ac))
          as [[H3 H4] | [H3 H4]];
        rewrite H2; rewrite H4 in H1; repeat split; intros; try lra;
        rewrite ?H4; try lra;
        destruct (Qlt_le_dec 0 (maxHealth ac)); solve [left; lra | right; lra]. }
    destruct Hh as (Hh0 & Hdead & Halive).
    destruct (Qle_bool h 0) eqn:E.
    + left. apply Qle_bool_iff in E.
      split; [reflexivity |]. split; [now apply Qle_antisym |].
      split; [reflexivity |].
      destruct (Qlt_le_dec damage (_currentHealth ac)) as [Hlt | Hge];
        [| now left].
      destruct (Halive Hlt) as [Hpos | Hzero]; [| now right].
      exfalso. exact (Qlt_not_le _ _ Hpos E).
    + right.
      assert (Hpos : (0 < h)%Q).
      { apply Qnot_le_lt. intros Hle. apply Qle_bool_iff in Hle. congruence. }
      split; [reflexivity |]. split; [exact Hpos |]. split; [reflexivity |].
      destruct (Qlt_le_dec damage (_currentHealth ac)) as [Hlt | Hge];
        [exact Hlt | exfalso; exact (Qlt_not_le _ _ Hpos (Hdead Hge))].
  - intros damage Hd. unfold takeDamage.
    destruct (setHealth_health ac (_currentHealth ac - damage)%Q) as [-> _].
    apply Q.max_lub; [exact Hlo |].
    eapply Qle_trans; [apply Q.le_min_l |]. lra.
Qed.

Lemma health_stays_in_bounds_witness :
  _currentHealth (takeAll chick [30; -50; 120; 10]%Q) == 0
  /\ (0 <= _currentHealth (takeAll chick [30; -50; 120; 10]%Q))%Q.
Proof.
  split; [reflexivity |].
  destruct (health_stays_in_bounds chick [30; -50; 120; 10]%Q) as [[H _] _];
    [discriminate | discriminate | discriminate |].
  exact H.
Defined.

End ActorFacts.

(** ** Projectiles: contacts, penetration and reuse *)

Module BulletExtras.
Import WeaponType Bullet BulletProps BulletScanProps BulletFacts.

Lemma isValidTarget_iff bl tag :
  isValidTarget bl tag = true
  <-> tag <> ownerTag bl /\ (tag ∈ targetTags bl \/ targetTags bl = []).
Proof.
  unfold isValidTarget. destruct (String.eqb_spec tag (ownerTag bl)) as [E | E].
  - split; [discriminate | tauto].
  - rewrite orb_true_iff, existsb_exists, Nat.eqb_eq. split.
    + intros [(x & Hin & Hx) | Hlen]; (split; [exact E |]).
      * left. apply String.eqb_eq in Hx. subst x. now apply list_elem_of_In.
      * right. now apply nil_length_inv.
    + intros [_ [Hin | Hnil]].
      * left. exists tag. split; [now apply list_elem_of_In | apply String.eqb_refl].
      * right. now rewrite Hnil.
Qed.

Lemma hitTarget_events_nonempty bl target : (hitTarget bl target).2 <> [].
Proof.
  unfold hitTarget. destruct (shouldDestroyAfterHit _); cbn;
    intros H; apply app_eq_nil in H as [H1 H2];
    [apply app_eq_nil in H1 as [_ H1] |]; discriminate.
Qed.

(** X19.  A contact is a hit exactly when the projectile still pierces or
    has not hit yet, the node is new to it, and the tag of the node is not
    the owner's and is on the allow-list, an empty allow-list letting through
    every tag.  Any other contact leaves the projectile as it is and emits
    nothing.  The tag of a node is that of its ActorController, or the node
    name when there is none or its tag is empty. *)
Theorem onBeginContact_hits_exactly bl other :
  let hit :=
    ~ (_hasHit bl = true /\ penetration bl <= 0)
    /\ (node other ∉ _hitTargets bl)
    /\ getNodeTag other <> ownerTag bl
    /\ (getNodeTag other ∈ targetTags bl \/ targetTags bl = []) in
  (hit -> onBeginContact bl other = hitTarget bl other
          /\ (onBeginContact bl other).2 <> [])
  /\ (~ hit -> onBeginContact bl other = (bl, []))
  /\ (actorController other = None -> getNodeTag other = nodeName other)
  /\ (actorController other = Some "" -> getNodeTag other = nodeName other)
  /\ (forall tag,
        actorController other = Some tag -> tag <> "" ->
        getNodeTag other = tag).
Proof.
  intros hit. split; [| split; [| split; [| split]]].
  - intros (Hgo & Hnew & Hown & Hlist).
    assert (E : onBeginContact bl other = hitTarget bl other).
    { apply onBeginContact_hits; [exact Hnew | | exact Hgo].
      apply isValidTarget_iff. now split. }
    split; [exact E |]. rewrite E. apply hitTarget_events_nonempty.
  - intros Hno. unfold onBeginContact.
    destruct (_hasHit bl && (penetration bl <=? 0)) eqn:E1; [reflexivity |].
    destruct (decide (node other ∈ _hitTargets bl)) as [Hin | Hnew].
    { now rewrite bool_decide_eq_true_2. }
    rewrite bool_decide_eq_false_2 by assumption.
    destruct (isValidTarget bl (getNodeTag other)) eqn:E2; [| reflexivity].
    exfalso. apply Hno. apply isValidTarget_iff in E2 as [H1 H2].
    split; [| now repeat split].
    intros [Hh Hp]. rewrite Hh in E1. apply Z.leb_le in Hp.
    rewrite Hp in E1. discriminate.
  - intros E. unfold getNodeTag. now rewrite E.
  - intros E. unfold getNodeTag. now rewrite E.
  - intros tag E Hne. unfold getNodeTag. rewrite E.
    destruct tag; [now contradiction Hne | reflexivity].
Qed.

Lemma onBeginContact_hits_exactly_witness :
  onBeginContact piercing enemy2 = hitTarget piercing enemy2
  /\ onBeginContact piercing (mkTarget 7%positive "Enemy" (Some "Player"))
     = (piercing, []).
Proof.
  destruct (onBeginContact_hits_exactly piercing enemy2) as ((H1 & _) & _).
  { split; [intros [H _]; discriminate |].
    split; [apply not_elem_of_empty |].
    split; [discriminate |]. left. apply list_elem_of_here. }
  split; [exact H1 |].
  destruct (onBeginContact_hits_exactly piercing
              (mkTarget 7%positive "Enemy" (Some "Player"))) as (_ & H2 & _).
  apply H2. intros (_ & _ & H & _). now apply H.
Defined.

Lemma counted_onBeginContact bl other :
  counted bl -> counted (onBeginContact bl other).1.
Proof.
  unfold counted. intros Hc. unfold onBeginContact.
  destruct (_hasHit bl && (penetration bl <=? 0)); [exact Hc |].
  destruct (decide (node other ∈ _hitTargets bl)) as [Hin | Hnew].
  { now rewrite bool_decide_eq_true_2. }
  rewrite bool_decide_eq_false_2 by assumption.
  destruct (isValidTarget bl (getNodeTag other)); [| exact Hc].
  unfold hitTarget.
  set (bl1 := with_hits bl (_hasHit bl) (_hitCount bl + 1) _ (active bl)).
  assert (H1 : _hitCount bl1 = Z.of_nat (size (_hitTargets bl1))).
  { cbn. rewrite size_union by (apply disjoint_singleton_l; exact Hnew).
    rewrite size_singleton. lia. }
  destruct (shouldDestroyAfterHit bl1); [| exact H1].
  cbn [destroyBullet fst]. unfold setActive.
  destruct (active bl1); cbn; try exact H1.
  now rewrite size_empty.
Qed.

(** X20.  From its activation on, and along any sequence of contacts, the
    hit counter of a projectile equals the number of distinct nodes in its
    hit-set: no node is counted twice.  A contact that takes an active
    projectile out of play resets its counter, its hit-set and its hit
    flag. *)
Theorem hit_count_counts_distinct_targets bl0 others :
  counted (contacts (onEnable bl0) others)
  /\ (forall bl, counted bl -> counted (contacts bl others))
  /\ (forall bl other,
        active bl = true -> active (onBeginContact bl other).1 = false ->
        _hitCount (onBeginContact bl other).1 = 0
        /\ _hitTargets (onBeginContact bl other).1 = ∅
        /\ _hasHit (onBeginContact bl other).1 = false).
Proof.
  assert (Hall : forall bl, counted bl -> counted (contacts bl others)).
  { unfold contacts. induction others as [| o os IH]; intros bl Hc;
      [exact Hc |].
    cbn [fold_left]. apply IH. now apply counted_onBeginContact. }
  split; [| split; [exact Hall |]].
  - apply Hall. unfold counted. cbn. now rewrite size_empty.
  - intros bl other Hact. unfold onBeginContact.
    destruct (_hasHit bl && (penetration bl <=? 0)); [cbn; congruence |].
    destruct (bool_decide _); [cbn; congruence |].
    destruct (isValidTarget _ _); [| cbn; congruence].
    unfold hitTarget.
    set (bl1 := with_hits bl (_hasHit bl) (_hitCount bl + 1) _ (active bl)).
    destruct (shouldDestroyAfterHit bl1).
    + cbn [destroyBullet fst]. unfold setActive.
      replace (active bl1) with true by (symmetry; exact Hact).
      now intros _.
    + cbn. congruence.
Qed.

Lemma hit_count_counts_distinct_targets_witness :
  counted (contacts lance crowd)
  /\ _hitCount (contacts lance crowd) = 2.
Proof.
  destruct (hit_count_counts_distinct_targets lance crowd) as (_ & H & _).
  split; [apply H; vm_compute; reflexivity | vm_compute; reflexivity].
Defined.

Lemma contacts_snoc bl others other :
  contacts bl (others ++ [other])
  = (onBeginContact (contacts bl others) other).1.
Proof. unfold contacts. now rewrite fold_left_app. Qed.

Lemma contacts_within_budget others : forall bl,
  active bl = true -> 1 <= penetration bl ->
  NoDup (map node others) ->
  Forall (fun t => isValidTarget bl (getNodeTag t) = true) others ->
  Forall (fun t => node t ∉ _hitTargets bl) others ->
  _hitCount bl + Z.of_nat (length others) < penetration bl ->
  active (contacts bl others) = true
  /\ _hitCount (contacts bl others) = _hitCount bl + Z.of_nat (length others)
  /\ _hitTargets (contacts bl others)
     = list_to_set (map node others) ∪ _hitTargets bl
  /\ penetration (contacts bl others) = penetration bl
  /\ ownerTag (contacts bl others) = ownerTag bl
  /\ targetTags (contacts bl others) = targetTags bl.
Proof.
  induction others as [| o os IH]; intros bl Hact Hpen Hnd Hvalid Hnew Hlt.
  - unfold contacts. cbn [fold_left length map list_to_set].
    split; [exact Hact |]. split; [lia |].
    split; [| now repeat split]. now rewrite union_empty_l_L.
  - cbn [map] in Hnd. apply NoDup_cons in Hnd as [Ho Hnd].
    apply Forall_cons in Hvalid as [Hv Hvalid].
    apply Forall_cons in Hnew as [Hn Hnew].
    cbn [length] in Hlt.
    unfold contacts. cbn [fold_left]. fold (contacts (onBeginContact bl o).1 os).
    assert (E : onBeginContact bl o = hitTarget bl o).
    { apply onBeginContact_hits; [exact Hn | exact Hv | lia]. }
    rewrite E.
    assert (Hact1 : active (hitTarget bl o).1 = true).
    { destruct (active (hitTarget bl o).1) eqn:Ea; [reflexivity |].
      apply (hitTarget_active bl o Hact) in Ea. lia. }
    destruct (hitTarget_survivor bl o Hact1 Hact)
      as (Hc & Ht & _ & Hp & Hown & Htags).
    destruct (IH (hitTarget bl o).1) as (I1 & I2 & I3 & I4 & I5 & I6).
    + exact Hact1.
    + now rewrite Hp.
    + exact Hnd.
    + eapply Forall_impl; [exact Hvalid |]. intros t Ht'. cbn in Ht'.
      unfold isValidTarget in *. now rewrite Hown, Htags.
    + rewrite Ht. apply Forall_forall. intros t Hin.
      rewrite not_elem_of_union, not_elem_of_singleton. split.
      * intros Heq. apply Ho. rewrite <- Heq. apply list_elem_of_fmap.
        now exists t.
      * revert t Hin. now apply Forall_forall.
    + rewrite Hc, Hp. lia.
    + split; [exact I1 |]. split; [rewrite I2, Hc; cbn [length]; lia |].
      split; [| now rewrite I4, I5, I6].
      rewrite I3, Ht. cbn [map list_to_set].
      rewrite (union_comm_L {[node o]} (list_to_set (map node os))).
      now rewrite union_assoc_L.
Qed.

(** X21.  A projectile activated with penetration k >= 1 goes through k - 1
    distinct valid targets and is taken out of play by the k-th: after
    fewer than k such contacts it is still active and has recorded every
    one of them, after exactly k it is inactive. *)
Theorem penetration_is_a_hit_budget bl0 others :
  active bl0 = true -> 1 <= penetration bl0 ->
  NoDup (map node others) ->
  Forall (fun t => isValidTarget bl0 (getNodeTag t) = true) others ->
  (Z.of_nat (length others) < penetration bl0 ->
   active (contacts (onEnable bl0) others) = true
   /\ _hitCount (contacts (onEnable bl0) others) = Z.of_nat (length others)
   /\ _hitTargets (contacts (onEnable bl0) others)
      = list_to_set (map node others))
  /\ (Z.of_nat (length others) = penetration bl0 ->
      active (contacts (onEnable bl0) others) = false).
Proof.
  intros Hact Hpen Hnd Hvalid.
  assert (Hzero : _hitCount (onEnable bl0) = 0) by reflexivity.
  assert (Hsame : penetration (onEnable bl0) = penetration bl0)
    by reflexivity.
  assert (Hnone : forall l : list Target,
            Forall (fun t => node t ∉ _hitTargets (onEnable bl0)) l).
  { intros l. apply Forall_forall. intros t _. apply not_elem_of_empty. }
  split.
  - intros Hlt.
    destruct (contacts_within_budget others (onEnable bl0)
                Hact ltac:(lia) Hnd Hvalid (Hnone _) ltac:(lia))
      as (H1 & H2 & H3 & _).
    split; [exact H1 |]. split; [lia |].
    rewrite H3. cbn. now rewrite union_empty_r_L.
  - intros Heq.
    destruct (decide (others = [])) as [-> | Hne]; [cbn in Heq; lia |].
    destruct (exists_last Hne) as (init & other & ->).
    rewrite length_app in Heq. cbn [length] in Heq.
    rewrite map_app in Hnd. apply NoDup_app in Hnd as (Hnd1 & Hsep & _).
    apply Forall_app in Hvalid as [Hv1 Hv2].
    apply Forall_cons in Hv2 as [Hv2 _].
    destruct (contacts_within_budget init (onEnable bl0)
                Hact ltac:(lia) Hnd1 Hv1 (Hnone _) ltac:(lia))
      as (H1 & H2 & H3 & H4 & H5 & H6).
    rewrite contacts_snoc.
    rewrite onBeginContact_hits.
    + apply hitTarget_active; [exact H1 |]. right. lia.
    + rewrite H3. cbn. rewrite union_empty_r_L, elem_of_list_to_set.
      intros Hin. apply (Hsep _ Hin). cbn. apply list_elem_of_here.
    + unfold isValidTarget in *. now rewrite H5, H6.
    + lia.
Qed.

Lemma penetration_is_a_hit_budget_witness :
  active (contacts (onEnable lance) (take 2 crowd)) = true
  /\ active (contacts (onEnable piercing) [enemy1; enemy2]) = false.
Proof.
  split.
  - destruct (penetration_is_a_hit_budget lance (take 2 crowd)) as [H _].
    + reflexivity.
    + cbn; lia.
    + apply (bool_decide_unpack _). vm_compute. exact I.
    + repeat constructor.
    + apply H. cbn. lia.
  - destruct (penetration_is_a_hit_budget piercing [enemy1; enemy2])
      as [_ H].
    + reflexivity.
    + cbn; lia.
    + apply (bool_decide_unpack _). vm_compute. exact I.
    + repeat constructor.
    + apply H. reflexivity.
Defined.

(** X22.  A pooled projectile that is deactivated, configured for a shot
    and activated again starts with a clean hit record and the damage,
    speed, lifetime, owner and weapon type of the shot.  Its penetration,
    blast radius and laser flag are reset to the values of the weapon type
    only when the type changes: a node reused for the same type keeps what
    it carried.  Activating a node that is active already leaves it as it
    is, hit record included. *)
Theorem reused_projectile_starts_clean bl dmg spd life owner t :
  let bl' :=
    setActive true (setBulletData (setActive false bl) dmg spd life owner t) in
  (active bl' = true /\ _hasHit bl' = false /\ _hitCount bl' = 0
   /\ _hitTargets bl' = ∅)
  /\ (damage bl' = dmg /\ speed bl' = spd /\ lifetime bl' = life
      /\ ownerTag bl' = owner /\ weaponType bl' = t
      /\ targetTags bl' = targetTags bl)
  /\ (weaponType bl = t ->
      (penetration bl', explosionRadius bl', isLaser bl')
      = (penetration bl, explosionRadius bl, isLaser bl))
  /\ (weaponType bl <> t ->
      (penetration bl', explosionRadius bl', isLaser bl') = kindTable t)
  /\ (active bl = true -> setActive true bl = bl).
Proof.
  destruct bl as [d0 s0 l0 o0 tags pen rad laser w hh hc ht act].
  destruct act, w, t; cbn;
    (split; [now repeat split |]); (split; [now repeat split |]);
    (split; [intros E; first [discriminate E | reflexivity] |]);
    (split; [intros E; first [now contradiction E | reflexivity] |]);
    intros E; first [discriminate E | reflexivity].
Qed.

Lemma reused_projectile_starts_clean_witness :
  let spent := contacts lance crowd in
  _hitCount spent = 2
  /\ _hitCount (setActive true
       (setBulletData (setActive false spent) 10 500 3 "Player"
          BULLET_TYPE_NORMAL)) = 0
  /\ penetration (setActive true
       (setBulletData (setActive false spent) 10 500 3 "Player"
          BULLET_TYPE_NORMAL)) = 0.
Proof.
  intros spent. split; [vm_compute; reflexivity |].
  destruct (reused_projectile_starts_clean spent 10 500 3 "Player"
              BULLET_TYPE_NORMAL) as ((_ & _ & H1 & _) & _ & _ & H2 & _).
  split; [exact H1 |].
  assert (Hne : weaponType spent <> BULLET_TYPE_NORMAL)
    by (vm_compute; discriminate).
  exact (f_equal (fun k => k.1.1) (H2 Hne)).
Defined.

End BulletExtras.

(** ** The weapon controller: firing, configurations and energy *)

Module WeaponExtras.
Import WeaponType WeaponsSystem WeaponProps WeaponScanProps WeaponFacts.

Lemma Qltb_true p q : Qltb p q = true <-> (p < q)%Q.
Proof.
  unfold Qltb. rewrite negb_true_iff. split.
  - intros H. apply Qnot_le_lt. intros Hle. apply Qle_bool_iff in Hle.
    congruence.
  - intros H. destruct (Qle_bool q p) eqn:E; [| reflexivity].
    apply Qle_bool_iff in E. exfalso. exact (Qlt_not_le _ _ H E).
Qed.

Lemma canFire_ready ws now : canFire ws now = true <-> ready ws now.
Proof.
  unfold canFire, ready, cooledDown, intervalPassed. cbv zeta.
  set (config := getCurrentWeaponConfig ws).
  destruct (Double.lt now (_cooldownEndTime ws)) eqn:E1.
  { split; [discriminate | now intros (H & _)]. }
  destruct (Double.lt (now - _lastFireTime ws)%number _) eqn:E2.
  { split; [discriminate | now intros (_ & H & _)]. }
  destruct (Qltb (currentEnergy ws) (energyCost config)) eqn:E4.
  { apply Qltb_true in E4. split; [discriminate |].
    intros (_ & _ & H & _). exfalso. exact (Qlt_not_le _ _ E4 H). }
  apply Qltb_false in E4.
  destruct (hasPrefab ws (ordinal (currentWeaponType ws))) eqn:E5; cbn.
  - split; [now intros _ | reflexivity].
  - split; [discriminate | now intros (_ & _ & _ & H)].
Qed.

Lemma core_fields ws ws' :
  core ws' = core ws ->
  currentWeaponType ws' = currentWeaponType ws
  /\ bulletPrefabs ws' = bulletPrefabs ws
  /\ currentEnergy ws' = currentEnergy ws
  /\ _weaponConfigs ws' = _weaponConfigs ws
  /\ _lastFireTime ws' = _lastFireTime ws
  /\ _cooldownEndTime ws' = _cooldownEndTime ws.
Proof.
  unfold core. intros H. injection H. intros. now repeat split.
Qed.

Lemma fire_success ws now :
  canFire ws now = true ->
  let config := getCurrentWeaponConfig ws in
  exists ws',
    fire ws now
    = (true, ws',
       [WeaponFire (currentWeaponType ws) config
          (currentEnergy ws - energyCost config)%Q])
    /\ core ws'
       = core (with_times
                 (with_energy ws (currentEnergy ws - energyCost config)%Q)
                 now (now + cooldown config)%number).
Proof.
  intros Hcan config. unfold fire. rewrite Hcan. cbn [negb]. cbv zeta.
  fold config.
  set (ws2 := with_times _ _ _).
  pose proof (core_executeFirePattern ws2 config now) as Hcore.
  exists (executeFirePattern ws2 config now). split; [| exact Hcore].
  destruct (core_fields _ _ Hcore) as (H1 & _ & H3 & _).
  now rewrite H1, H3.
Qed.

Lemma fire_charges_or_refuses_aux ws now :
  ((fire ws now).1.1 = true <-> ready ws now)
  /\ ((fire ws now).1.1 = false -> fire ws now = (false, ws, [])).
Proof.
  destruct (canFire ws now) eqn:Hcan.
  - destruct (fire_success ws now Hcan) as (ws' & E & _). rewrite E.
    cbn [fst snd].
    split; [split; [intros _; now apply canFire_ready | reflexivity] |].
    discriminate.
  - assert (E : fire ws now = (false, ws, [])).
    { unfold fire. now rewrite Hcan. }
    rewrite E. cbn [fst snd]. split; [| reflexivity].
    split; [discriminate |]. intros H. apply canFire_ready in H. congruence.
Qed.



Lemma canFire_cooling ws (now : Q) :
  (now <? _cooldownEndTime ws)%number = true -> canFire ws now = false.
Proof. intros H. unfold canFire. now rewrite H. Qed.

Lemma fire_refused ws now : canFire ws now = false -> fire ws now = (false, ws, []).
Proof. intros H. unfold fire. now rewrite H. Qed.

(** X24.  After a shot, the next call of fire succeeds exactly when the
    clock is not before the end of the cool-down of the weapon fired, the
    difference of the clock and the time of the shot is not below the
    quotient 1 / fireRate (both as binary64 arithmetic computes them), and
    the energy left covers the cost once more; otherwise fire is refused
    and changes nothing.  The cool-down belongs to the controller, not to
    the weapon: switching to another weapon does not lift it. *)
Theorem shot_blocks_next_shot ws now later w :
  (fire ws now).1.1 = true ->
  let config := getCurrentWeaponConfig ws in
  let ws1 := (fire ws now).1.2 in
  ((fire ws1 later).1.1 = true
   <-> cooledDown (now + cooldown config)%number later
       /\ intervalPassed config now later
       /\ (energyCost config <= currentEnergy ws - energyCost config)%Q)
  /\ ((fire ws1 later).1.1 = false -> fire ws1 later = (false, ws1, []))
  /\ (~ cooledDown (now + cooldown config)%number later ->
      let ws2 := (switchWeapon ws1 w).1.2 in
      fire ws2 later = (false, ws2, [])).
Proof.
  intros Hok config ws1.
  assert (Hcan : canFire ws now = true).
  { destruct (canFire ws now) eqn:E; [reflexivity |].
    rewrite (fire_refused ws now E) in Hok. discriminate. }
  pose proof (proj1 (canFire_ready ws now) Hcan) as (_ & _ & _ & Hprefab).
  destruct (fire_success ws now Hcan) as (ws' & E & Hcore).
  assert (Hws1 : ws1 = ws') by (unfold ws1; now rewrite E).
  destruct (core_fields _ _ Hcore) as (H1 & H2 & H3 & H7 & H8 & H9).
  cbn [with_times with_energy currentWeaponType _weaponConfigs _lastFireTime
       _cooldownEndTime bulletPrefabs currentEnergy] in H1, H2, H3, H7, H8, H9.
  fold config in H3, H9. rewrite <- Hws1 in *. clear E Hcore.
  assert (Hcfg : getCurrentWeaponConfig ws1 = config).
  { unfold getCurrentWeaponConfig. now rewrite H1, H7. }
  assert (Hready : ready ws1 later
                   <-> cooledDown (now + cooldown config)%number later
                       /\ intervalPassed config now later
                       /\ (energyCost config
                           <= currentEnergy ws - energyCost config)%Q).
  { unfold ready. cbv zeta. rewrite Hcfg, H9, H8, H3.
    unfold hasPrefab. rewrite H1, H2. fold (hasPrefab ws (ordinal (currentWeaponType ws))).
    rewrite Hprefab. tauto. }
  destruct (fire_charges_or_refuses_aux ws1 later) as [F1 F2].
  split; [now rewrite F1 |]. split; [exact F2 |].
  intros Hc ws2. apply fire_refused. apply canFire_cooling.
  assert (Hend : _cooldownEndTime ws2 = _cooldownEndTime ws1).
  { unfold ws2, switchWeapon.
    destruct (sameType w (currentWeaponType ws1)); [reflexivity |].
    now destruct (negb (hasPrefab ws1 (ordinal w))). }
  rewrite Hend, H9. unfold cooledDown in Hc.
  now destruct (Double.lt later (now + cooldown config)%number).
Qed.

Lemma shot_blocks_next_shot_witness :
  (fire cannon 2).1.1 = true
  /\ (fire (fire cannon 2).1.2 (5 # 2)).1.1 = false
  /\ (fire (switchWeapon (fire cannon 2).1.2 BULLET_TYPE_LASER).1.2
        (5 # 2)).1.1 = false
  /\ (fire volley afterThird).1.1 = true
  /\ (fire (fire volley afterThird).1.2 (afterThird + third)).1.1 = true.
Proof.
  assert (E : (fire cannon 2).1.1 = true) by (vm_compute; reflexivity).
  destruct (shot_blocks_next_shot cannon 2 (5 # 2) BULLET_TYPE_LASER E)
    as (_ & _ & H2).
  split; [exact E |]. split; [vm_compute; reflexivity |]. split.
  - cbv zeta in H2. rewrite H2; [reflexivity |]. vm_compute. discriminate.
  - assert (E' : (fire volley afterThird).1.1 = true)
      by (vm_compute; reflexivity).
    split; [exact E' |].
    destruct (shot_blocks_next_shot volley afterThird (afterThird + third)
                BULLET_TYPE_LASER E') as (H1 & _).
    apply H1. vm_compute. repeat split; discriminate.
Defined.

Lemma loadWeaponConfigs_lookup t :
  loadWeaponConfigs !! ordinal t = Some (DEFAULT_WEAPON_CONFIGS t).
Proof. now destruct t. Qed.

Lemma ordinal_inj s t : ordinal s = ordinal t -> s = t.
Proof. now destruct s, t. Qed.

(** X25.  start registers the default configuration of each of the four
    weapon types, so that the current configuration is the default of the
    current type.  setWeaponConfig then replaces exactly the fields the
    override gives, for exactly the type named, and writes nothing but the
    configuration map.  On a type that is not registered (every type,
    before start) it does nothing; and without a registered configuration
    the current one reads as the default of the normal bullet, whatever the
    current type is. *)
Theorem weapon_configs_registered_by_start ws t config :
  getCurrentWeaponConfig (start ws)
  = DEFAULT_WEAPON_CONFIGS (currentWeaponType ws)
  /\ (forall t',
        _weaponConfigs (setWeaponConfig (start ws) t config) !! ordinal t'
        = Some (if sameType t t'
                then mergeConfig (DEFAULT_WEAPON_CONFIGS t) config
                else DEFAULT_WEAPON_CONFIGS t'))
  /\ setWeaponConfig ws t config
     = with_configs ws (_weaponConfigs (setWeaponConfig ws t config))
  /\ (_weaponConfigs ws !! ordinal t = None ->
      setWeaponConfig ws t config = ws)
  /\ (_weaponConfigs ws !! ordinal (currentWeaponType ws) = None ->
      getCurrentWeaponConfig ws = DEFAULT_WEAPON_CONFIGS BULLET_TYPE_NORMAL).
Proof.
  split; [| split; [| split; [| split]]].
  - unfold getCurrentWeaponConfig. cbn [start _weaponConfigs currentWeaponType].
    now rewrite loadWeaponConfigs_lookup.
  - intros t'. unfold setWeaponConfig. cbn [start _weaponConfigs].
    rewrite loadWeaponConfigs_lookup. cbn [with_configs _weaponConfigs].
    unfold sameType. destruct (Nat.eqb_spec (ordinal t) (ordinal t')) as [E | E].
    + rewrite E. now rewrite lookup_insert_eq.
    + rewrite lookup_insert_ne by exact E. apply loadWeaponConfigs_lookup.
  - unfold setWeaponConfig.
    destruct (_weaponConfigs ws !! ordinal t); [reflexivity |].
    now destruct ws.
  - intros E. unfold setWeaponConfig. now rewrite E.
  - intros E. unfold getCurrentWeaponConfig. now rewrite E.
Qed.

Lemma weapon_configs_registered_by_start_witness :
  let bare :=
    mkSystem BULLET_TYPE_LASER [] false 0 100 5 ∅ ∅ [] 0 0 "Player" in
  setWeaponConfig bare BULLET_TYPE_LASER
    (mkOverride None None (Some 99%Q) None None None None None None None
       None None None) = bare
  /\ getCurrentWeaponConfig bare = DEFAULT_WEAPON_CONFIGS BULLET_TYPE_NORMAL
  /\ getCurrentWeaponConfig (start bare)
     = DEFAULT_WEAPON_CONFIGS BULLET_TYPE_LASER.
Proof.
  intros bare.
  destruct (weapon_configs_registered_by_start bare BULLET_TYPE_LASER
              (mkOverride None None (Some 99%Q) None None None None None None
                 None None None None)) as (H1 & _ & _ & H2 & H3).
  split; [apply H2; reflexivity |]. split; [apply H3; reflexivity | exact H1].
Defined.



Lemma shotAngle_sum config i :
  bulletCount config - 1 <> 0 ->
  exists a b,
    shotAngle config i = Some a
    /\ shotAngle config (bulletCount config - 1 - i) = Some b
    /\ a + b == 0.
Proof.
  intros Hn. unfold shotAngle.
  rewrite (proj2 (Z.eqb_neq _ _) Hn).
  eexists. eexists. split; [reflexivity |]. split; [reflexivity |].
  set (n := bulletCount config - 1) in *.
  assert (Hq : ~ inject_Z n == 0).
  { intros H. apply Hn. unfold Qeq in H. cbn in H. lia. }
  unfold Z.sub at 1. rewrite inject_Z_plus, inject_Z_opp. field. exact Hq.
Qed.

(** X27.  The angle offsets of a multiple shot with at least 2 bullets, over
    exact rationals: one per bullet, the first at minus half the spread,
    the last at plus half the spread, and mirrored about the aiming
    direction (the offsets of shot i and shot bulletCount - 1 - i add up to
    0).  With a bullet count of 1 the single offset is not a number: the
    step divides by zero. *)
Theorem fan_is_centred_on_the_aim config :
  (2 <= bulletCount config ->
   length (shotAngles config) = Z.to_nat (bulletCount config)
   /\ (exists a, shotAngles config !! 0%nat = Some (Some a)
                 /\ a == - spreadAngle config / 2)
   /\ (exists b, last (shotAngles config) = Some (Some b)
                 /\ b == spreadAngle config / 2)
   /\ (forall i, 0 <= i < bulletCount config ->
         exists a b,
           shotAngles config !! Z.to_nat i = Some (Some a)
           /\ shotAngles config !! Z.to_nat (bulletCount config - 1 - i)
              = Some (Some b)
           /\ a + b == 0))
  /\ (bulletCount config = 1 -> shotAngles config = [None]).
Proof.
  split.
  - intros Hn. unfold shotAngles.
    assert (Hlook : forall i, 0 <= i < bulletCount config ->
              map (shotAngle config) (seqZ 0 (bulletCount config))
                !! Z.to_nat i = Some (shotAngle config i)).
    { intros i Hi. rewrite list_lookup_fmap.
      rewrite lookup_seqZ_lt by lia. cbn. f_equal. f_equal. lia. }
    split; [now rewrite length_map, length_seqZ |].
    split; [| split].
    + destruct (shotAngle_sum config 0) as (a & b & Ha & _ & _); [lia |].
      exists a. split.
      * change 0%nat with (Z.to_nat 0). rewrite Hlook by lia. now rewrite Ha.
      * unfold shotAngle in Ha.
        destruct (bulletCount config - 1 =? 0); [discriminate |].
        injection Ha as <-. change (inject_Z 0) with 0%Q. ring.
    + destruct (shotAngle_sum config 0) as (a & b & Ha & Hb & Hab); [lia |].
      exists b. split.
      * rewrite last_lookup, length_map, length_seqZ.
        replace (Init.Nat.pred (Z.to_nat (bulletCount config)))
          with (Z.to_nat (bulletCount config - 1 - 0)) by lia.
        rewrite Hlook by lia. now rewrite Hb.
      * assert (H0 : a == - spreadAngle config / 2).
        { unfold shotAngle in Ha.
          destruct (bulletCount config - 1 =? 0); [discriminate |].
          injection Ha as <-. change (inject_Z 0) with 0%Q. ring. }
        clear Ha Hb.
        apply (Qplus_inj_l _ _ (- spreadAngle config / 2)).
        rewrite <- H0 at 1. rewrite Hab. field.
    + intros i Hi.
      destruct (shotAngle_sum config i) as (a & b & Ha & Hb & Hab); [lia |].
      exists a, b. rewrite !Hlook by lia. now rewrite Ha, Hb.
  - intros H1. unfold shotAngles, shotAngle. rewrite H1. reflexivity.
Qed.

Lemma fan_is_centred_on_the_aim_witness :
  shotAngles (DEFAULT_WEAPON_CONFIGS BULLET_TYPE_MULTIPLE)
  = [Some (- (30) / 2 + 30 / inject_Z 2 * inject_Z 0)%Q;
     Some (- (30) / 2 + 30 / inject_Z 2 * inject_Z 1)%Q;
     Some (- (30) / 2 + 30 / inject_Z 2 * inject_Z 2)%Q]
  /\ length (shotAngles (DEFAULT_WEAPON_CONFIGS BULLET_TYPE_MULTIPLE))
     = 3%nat.
Proof.
  split; [reflexivity |].
  destruct (fan_is_centred_on_the_aim
              (DEFAULT_WEAPON_CONFIGS BULLET_TYPE_MULTIPLE)) as [H _].
  destruct H as [H _]; [cbn; lia | exact H].
Defined.

End WeaponExtras.

(** ** The weapon controller: pools and bullets in flight *)

Module PoolFacts.
Import WeaponType WeaponsSystem WeaponProps WeaponScanProps PoolProps
  WeaponFacts WeaponExtras.





Lemma nodeAt_updateNode ws r f ref :
  nodeAt (updateNode ws r f) ref
  = if decide (ref = r) then f <$> nodeAt ws ref else nodeAt ws ref.
Proof.
  destruct ref as [t i], r as [t' i']. unfold nodeAt, updateNode.
  cbn [fst snd with_pools _bulletPools].
  destruct (decide (t = t')) as [-> | Ht].
  - rewrite lookup_alter_eq.
    destruct (_bulletPools ws !! t') as [pool|]; cbn.
    + destruct (decide (i = i')) as [-> | Hi].
      * rewrite decide_True by reflexivity. apply list_lookup_alter_eq.
      * rewrite decide_False by congruence.
        now apply list_lookup_alter_ne.
    + now destruct (decide _).
  - rewrite lookup_alter_ne by congruence.
    now rewrite decide_False by congruence.
Qed.

Lemma recycled_twice n : recycled (recycled n) = recycled n.
Proof.
  unfold recycled. cbn [bullet]. f_equal.
  destruct (bullet n) as [d s l o tags pen rad laser w hh hc ht act].
  now destruct act.
Qed.

Lemma recycleBullet_effect ws r :
  _activeBullets (recycleBullet ws r)
  = filter (fun x => x <> r) (_activeBullets ws)
  /\ forall ref,
       nodeAt (recycleBullet ws r) ref
       = if decide (ref = r) then recycled <$> nodeAt ws ref
         else nodeAt ws ref.
Proof.
  split; [reflexivity |]. intros ref.
  exact (nodeAt_updateNode ws r recycled ref).
Qed.

Lemma recycle_all refs : forall ws,
  _activeBullets (fold_left recycleBullet refs ws)
  = filter (fun x => x ∉ refs) (_activeBullets ws)
  /\ forall ref,
       nodeAt (fold_left recycleBullet refs ws) ref
       = if decide (ref ∈ refs) then recycled <$> nodeAt ws ref
         else nodeAt ws ref.
Proof.
  induction refs as [| r rs IH]; intros ws.
  - cbn [fold_left]. split.
    + symmetry. induction (_activeBullets ws) as [| x l IHl]; [reflexivity |].
      rewrite filter_cons_True by apply not_elem_of_nil. now f_equal.
    + intros ref. rewrite decide_False by apply not_elem_of_nil. reflexivity.
  - cbn [fold_left]. destruct (IH (recycleBullet ws r)) as [IH1 IH2].
    destruct (recycleBullet_effect ws r) as [R1 R2]. split.
    + rewrite IH1, R1, list_filter_filter. apply list_filter_iff.
      intros x. rewrite not_elem_of_cons. tauto.
    + intros ref. rewrite IH2, R2.
      destruct (decide (ref = r)) as [-> | Hne].
      * rewrite (decide_True (P := r ∈ r :: rs)) by apply list_elem_of_here.
        destruct (decide (r ∈ rs)); [| reflexivity].
        destruct (nodeAt ws r); cbn; [| reflexivity].
        now rewrite recycled_twice.
      * destruct (decide (ref ∈ rs)) as [Hin | Hout].
        -- now rewrite decide_True by (now apply list_elem_of_further).
        -- rewrite decide_False; [reflexivity |].
           rewrite elem_of_cons. tauto.
Qed.

Lemma filter_as_bool {A} (P : A -> Prop) `{!forall x, Decision (P x)}
  (f : A -> bool) (l : list A) :
  (forall x, x ∈ l -> (P x <-> f x = true)) ->
  filter P l = List.filter f l.
Proof.
  induction l as [| x l IH]; intros Hall; [reflexivity |].
  assert (IH' : filter P l = List.filter f l).
  { apply IH. intros y Hy. apply Hall. now apply list_elem_of_further. }
  cbn [List.filter]. pose proof (Hall x (list_elem_of_here _ _)) as Hx.
  destruct (f x) eqn:E.
  - rewrite filter_cons_True by (now apply Hx). now f_equal.
  - rewrite filter_cons_False; [exact IH' |].
    intros HP. apply Hx in HP. discriminate.
Qed.

Lemma elem_of_expired ws now ref :
  ref ∈ List.filter (expired ws now) (_activeBullets ws)
  <-> ref ∈ _activeBullets ws /\ expired ws now ref = true.
Proof.
  rewrite !list_elem_of_In. apply filter_In.
Qed.

Lemma moved_moves ws deltaTime now refs :
  map moved
    (omap (moveOf ws deltaTime) (List.filter (inFlight ws now) refs))
  = List.filter (hasFlightData ws)
      (List.filter (fun ref => negb (expired ws now ref)) refs).
Proof.
  induction refs as [| ref refs IH]; [reflexivity |].
  cbn [List.filter]. unfold inFlight at 1, expired at 1.
  destruct (nodeAt ws ref ≫= bulletData) as [d|] eqn:E.
  - destruct (Double.lt _ _); cbn [negb]; [exact IH |].
    cbn [List.filter omap list_omap]. unfold moveOf at 1, hasFlightData at 1.
    rewrite E. cbn [map moved]. f_equal. exact IH.
  - cbn [negb List.filter]. unfold hasFlightData at 1. rewrite E. exact IH.
Qed.

Lemma elem_of_moves ws deltaTime now refs m :
  m ∈ omap (moveOf ws deltaTime) (List.filter (inFlight ws now) refs) ->
  moved m ∈ refs
  /\ expired ws now (moved m) = false
  /\ exists d,
       nodeAt ws (moved m) ≫= bulletData = Some d
       /\ distance m = (speed d * deltaTime)%number.
Proof.
  intros H. apply list_elem_of_omap in H as (ref & Hin & Hm).
  apply list_elem_of_In, filter_In in Hin as [Hin Hfly].
  unfold moveOf in Hm. unfold inFlight in Hfly. unfold expired.
  destruct (nodeAt ws ref ≫= bulletData) as [d|] eqn:E; [| discriminate].
  injection Hm as <-. cbn [moved distance]. rewrite E.
  split; [now apply list_elem_of_In |].
  split; [now apply negb_true_iff |]. now exists d.
Qed.

(** X29.  A frame retires exactly the bullets in flight whose time of
    flight, the difference of the clock and the start time as binary64
    arithmetic computes it, exceeds their lifetime: they leave the active
    set, and their nodes are deactivated and lose their flight data.  The
    other bullets in flight stay, in their order; the Bullet component and
    the flight data of every other node are untouched; and afterwards no
    bullet in flight has outlived its lifetime.  The bullets that stay in
    flight and carry flight data are moved, each once and in their order,
    by speed * deltaTime along their direction.  (The position of a node
    is not part of the model; its writes are returned as a list of
    moves.) *)
Theorem expired_bullets_are_recycled ws deltaTime now :
  let ws' := (updateBullets ws deltaTime now).1 in
  let moves := (updateBullets ws deltaTime now).2 in
  _activeBullets ws'
  = List.filter (fun ref => negb (expired ws now ref)) (_activeBullets ws)
  /\ (forall ref,
        ref ∈ _activeBullets ws -> expired ws now ref = true ->
        exists n,
          nodeAt ws ref = Some n /\ nodeAt ws' ref = Some (recycled n)
          /\ Bullet.active (bullet (recycled n)) = false)
  /\ (forall ref,
        ~ (ref ∈ _activeBullets ws /\ expired ws now ref = true) ->
        bullet <$> nodeAt ws' ref = bullet <$> nodeAt ws ref
        /\ bulletData <$> nodeAt ws' ref = bulletData <$> nodeAt ws ref)
  /\ (forall ref, ref ∈ _activeBullets ws' -> expired ws' now ref = false)
  /\ map moved moves = List.filter (hasFlightData ws) (_activeBullets ws')
  /\ (forall m, m ∈ moves ->
        expired ws now (moved m) = false
        /\ exists d,
             nodeAt ws (moved m) ≫= bulletData = Some d
             /\ distance m = (speed d * deltaTime)%number).
Proof.
  intros ws' moves. unfold ws', moves, updateBullets. cbv zeta. cbn [fst snd].
  destruct (recycle_all (List.filter (expired ws now) (_activeBullets ws)) ws)
    as [H1 H2].
  set (final := fold_left recycleBullet _ ws) in *.
  assert (Hact : _activeBullets final
                 = List.filter (fun ref => negb (expired ws now ref))
                     (_activeBullets ws)).
  { rewrite H1. apply filter_as_bool. intros x Hx.
    rewrite elem_of_expired, negb_true_iff.
    destruct (expired ws now x); split.
    - intros H. exfalso. apply H. now split.
    - discriminate.
    - reflexivity.
    - intros _ [_ H]. discriminate. }
  assert (Hkeep : forall ref,
            ~ (ref ∈ _activeBullets ws /\ expired ws now ref = true) ->
            nodeAt final ref = nodeAt ws ref).
  { intros ref Hno. rewrite H2. rewrite decide_False; [reflexivity |].
    now rewrite elem_of_expired. }
  split; [exact Hact |]. split; [| split; [| split; [| split]]].
  - intros ref Hin Hexp. rewrite H2.
    rewrite decide_True by (apply elem_of_expired; now split).
    unfold expired in Hexp.
    destruct (nodeAt ws ref) as [n|]; [| discriminate].
    exists n. split; [reflexivity |]. split; [reflexivity |].
    apply BulletFacts.active_setActive.
  - intros ref Hno. now rewrite (Hkeep ref Hno).
  - intros ref Hin. rewrite Hact in Hin.
    apply list_elem_of_In, filter_In in Hin as [_ Hexp].
    apply negb_true_iff in Hexp.
    unfold expired in *. rewrite Hkeep; [exact Hexp |].
    intros [_ H]. unfold expired in H. congruence.
  - rewrite Hact. apply moved_moves.
  - intros m Hm. apply elem_of_moves in Hm as (_ & He & Hd). now split.
Qed.

Lemma expired_bullets_are_recycled_witness :
  let flying := (fire armed 1).1.2 in
  let late := (fire armed (7 # 5)).1.2 in
  _activeBullets flying = [(0%nat, 0%nat)]
  /\ _activeBullets (updateBullets flying (1 # 60) 5).1 = []
  /\ (nodeAt (updateBullets flying (1 # 60) 5).1 (0%nat, 0%nat)
      = recycled <$> nodeAt flying (0%nat, 0%nat))
  /\ _activeBullets (updateBullets flying (1 # 60) 4).1 = [(0%nat, 0%nat)]
  /\ map moved (updateBullets flying (1 # 60) 4).2 = [(0%nat, 0%nat)]
  /\ _activeBullets (updateBullets late (1 # 60) (22 # 5)).1 = [].
Proof.
  intros flying late.
  destruct (expired_bullets_are_recycled flying (1 # 60) 5)
    as (H1 & H2 & _).
  destruct (expired_bullets_are_recycled flying (1 # 60) 4)
    as (K1 & _ & _ & _ & K5 & _).
  destruct (expired_bullets_are_recycled late (1 # 60) (22 # 5))
    as (L1 & _).
  split; [vm_compute; reflexivity |]. split; [vm_compute; reflexivity |].
  split; [| split; [| split]].
  - destruct (H2 (0%nat, 0%nat)) as (n & E1 & E2 & _).
    + vm_compute. apply list_elem_of_here.
    + vm_compute. reflexivity.
    + now rewrite E1, E2.
  - rewrite K1. vm_compute. reflexivity.
  - rewrite K5, K1. vm_compute. reflexivity.
  - rewrite L1. vm_compute. reflexivity.
Defined.

(** *** Shots and the pool *)

Lemma firstInactive_spec pool : forall k,
  match firstInactive pool k with
  | Some i =>
    (k <= i)%nat
    /\ exists n, pool !! (i - k)%nat = Some n
                 /\ Bullet.active (bullet n) = false
  | None => Forall (fun n => Bullet.active (bullet n) = true) pool
  end.
Proof.
  induction pool as [| n pool IH]; intros k; [constructor |].
  cbn [firstInactive]. destruct (Bullet.active (bullet n)) eqn:E; cbn [negb].
  - specialize (IH (S k)). destruct (firstInactive pool (S k)) as [i|].
    + destruct IH as (Hle & m & Hm & Hoff). split; [lia |].
      exists m. split; [| exact Hoff].
      now replace (i - k)%nat with (S (i - S k)) by lia.
    + now constructor.
  - split; [lia |]. exists n. now replace (k - k)%nat with 0%nat by lia.
Qed.

Lemma activeCount_app pool pool' :
  activeCount (pool ++ pool') = (activeCount pool + activeCount pool')%nat.
Proof. unfold activeCount. now rewrite List.filter_app, length_app. Qed.

Lemma activeCount_all pool :
  Forall (fun n => Bullet.active (bullet n) = true) pool ->
  activeCount pool = length pool.
Proof.
  unfold activeCount. induction 1 as [| n pool Hn _ IH]; [reflexivity |].
  cbn [List.filter]. rewrite Hn. cbn [length]. now f_equal.
Qed.

Lemma activeCount_alter f pool : forall i n,
  pool !! i = Some n ->
  (activeCount (alter f i pool)
   + (if Bullet.active (bullet n) then 1 else 0)
   = activeCount pool
     + (if Bullet.active (bullet (f n)) then 1 else 0))%nat.
Proof.
  unfold activeCount.
  induction pool as [| m pool IH]; intros i n Hn; [discriminate |].
  destruct i as [| i].
  - injection Hn as ->. cbn [alter list_alter List.filter].
    destruct (Bullet.active (bullet n)), (Bullet.active (bullet (f n)));
      cbn [length]; lia.
  - cbn [alter list_alter List.filter]. specialize (IH i n Hn).
    change (list_alter f i pool) with (alter f i pool).
    destruct (Bullet.active (bullet m)); cbn [length]; lia.
Qed.

Lemma pools_updateNode ws t i f t' :
  _bulletPools (updateNode ws (t, i) f) !! t'
  = if decide (t' = t) then alter f i <$> _bulletPools ws !! t
    else _bulletPools ws !! t'.
Proof.
  unfold updateNode. cbn [with_pools _bulletPools fst snd].
  destruct (decide (t' = t)) as [-> | Hne].
  - apply lookup_alter_eq.
  - apply lookup_alter_ne. congruence.
Qed.

(** A node drawn from the pool, run through the set-up of a shot (which
    leaves the active flag alone) and activated. *)
Lemma launch_counts ws t i pool n (setUp : PoolNode -> PoolNode) ws2 :
  _bulletPools ws !! t = Some pool -> pool !! i = Some n ->
  (forall t', _bulletPools ws2 !! t'
              = if decide (t' = t) then Some (alter setUp i pool)
                else _bulletPools ws !! t') ->
  (forall m, Bullet.active (bullet (setUp m)) = Bullet.active (bullet m)) ->
  exists pool',
    _bulletPools (activateBullet ws2 (t, i)) !! t = Some pool'
    /\ length pool' = length pool
    /\ (activeCount pool' + (if Bullet.active (bullet n) then 1 else 0)
        = activeCount pool + 1)%nat
    /\ forall t', t' <> t ->
         _bulletPools (activateBullet ws2 (t, i)) !! t'
         = _bulletPools ws !! t'.
Proof.
  intros Hpool Hn H2 Hkeep.
  set (on := fun m => mkNode (Bullet.setActive true (bullet m)) (bulletData m)).
  assert (E : forall t',
            _bulletPools (activateBullet ws2 (t, i)) !! t'
            = if decide (t' = t) then alter on i <$> _bulletPools ws2 !! t
              else _bulletPools ws2 !! t').
  { intros t'. unfold activateBullet. cbv zeta.
    cbn [with_pools _bulletPools]. apply pools_updateNode. }
  exists (alter on i (alter setUp i pool)).
  split; [| split; [| split]].
  - rewrite E, decide_True by reflexivity. rewrite H2.
    now rewrite decide_True by reflexivity.
  - now rewrite !length_alter.
  - pose proof (activeCount_alter setUp pool i n Hn) as A1.
    assert (Hn' : alter setUp i pool !! i = Some (setUp n)).
    { rewrite list_lookup_alter_eq, Hn. reflexivity. }
    pose proof (activeCount_alter on (alter setUp i pool) i (setUp n) Hn')
      as A2.
    rewrite Hkeep in A1, A2. unfold on in A2 at 2. cbn [bullet] in A2.
    rewrite BulletFacts.active_setActive in A2.
    destruct (Bullet.active (bullet n)); lia.
  - intros t' Hne. rewrite E, decide_False by exact Hne.
    rewrite H2. now rewrite decide_False by exact Hne.
Qed.

Lemma draw_from_pool ws wt pool :
  _bulletPools ws !! ordinal wt = Some pool ->
  hasPrefab ws (ordinal wt) = true ->
  exists i ws1 pool1 n,
    getBulletFromPool ws wt = (Some (ordinal wt, i), ws1)
    /\ _bulletPools ws1 !! ordinal wt = Some pool1
    /\ pool1 !! i = Some n
    /\ (length pool <= length pool1)%nat
    /\ (activeCount pool1
        = activeCount pool + (if Bullet.active (bullet n) then 1 else 0))%nat
    /\ (forall t', t' <> ordinal wt ->
          _bulletPools ws1 !! t' = _bulletPools ws !! t')
    /\ bulletPrefabs ws1 = bulletPrefabs ws.
Proof.
  intros Hpool Hpre. unfold getBulletFromPool. rewrite Hpool.
  pose proof (firstInactive_spec pool 0) as Hfirst.
  destruct (firstInactive pool 0) as [i|].
  - destruct Hfirst as (_ & n & Hn & Hoff).
    replace (i - 0)%nat with i in Hn by lia.
    exists i, ws, pool, n. rewrite Hoff.
    repeat split; try assumption; lia.
  - unfold hasPrefab in Hpre.
    destruct (bulletPrefabs ws !! ordinal wt) as [[prefab|]|];
      try discriminate.
    eexists (length pool), _, (pool ++ [instantiate prefab]),
      (instantiate prefab).
    split; [reflexivity |]. cbn [with_pools _bulletPools bulletPrefabs].
    split; [apply lookup_insert_eq |].
    split; [now rewrite lookup_app_r, Nat.sub_diag by lia |].
    split; [rewrite length_app; lia |].
    split.
    + rewrite activeCount_app. f_equal. unfold activeCount.
      cbn [List.filter]. now destruct (Bullet.active _).
    + split; [| reflexivity]. intros t' Hne.
      now rewrite lookup_insert_ne by congruence.
Qed.

Lemma setBulletData_active bl dmg spd life owner t :
  Bullet.active (Bullet.setBulletData bl dmg spd life owner t)
  = Bullet.active bl.
Proof.
  unfold Bullet.setBulletData, Bullet.setWeaponType.
  destruct (sameType _ t); [reflexivity |].
  unfold Bullet.updateBulletPropertiesByWeaponType. cbn. now destruct t.
Qed.

Lemma activateBullet_prefabs ws ref :
  bulletPrefabs (activateBullet ws ref) = bulletPrefabs ws.
Proof. reflexivity. Qed.

(** One bullet fired with a set-up step [extra] after configureBullet. *)
Lemma one_shot ws config now (extra : PoolNode -> PoolNode) pool :
  _bulletPools ws !! ordinal (type config) = Some pool ->
  hasPrefab ws (ordinal (type config)) = true ->
  (forall m, Bullet.active (bullet (extra m)) = Bullet.active (bullet m)) ->
  let ws' :=
    match getBulletFromPool ws (type config) with
    | (Some ref, ws1) =>
      activateBullet
        (updateNode (configureBullet ws1 ref config now) ref extra) ref
    | (None, ws1) => ws1
    end in
  exists pool',
    _bulletPools ws' !! ordinal (type config) = Some pool'
    /\ (length pool <= length pool')%nat
    /\ activeCount pool' = (activeCount pool + 1)%nat
    /\ (forall t', t' <> ordinal (type config) ->
          _bulletPools ws' !! t' = _bulletPools ws !! t')
    /\ bulletPrefabs ws' = bulletPrefabs ws.
Proof.
  intros Hpool Hpre Hextra.
  destruct (draw_from_pool ws (type config) pool Hpool Hpre)
    as (i & ws1 & pool1 & n & E & Hp1 & Hn & Hlen & Hcount & Hother & Hpf).
  rewrite E. cbv zeta.
  set (conf := fun m =>
    mkNode
      (Bullet.setBulletData (bullet m) (damage config) (bulletSpeed config)
         (bulletLifetime config) (_ownerTag ws1) (type config))
      (Some (mkData (bulletSpeed config) (bulletLifetime config) now
               (type config)))).
  set (ws2 := updateNode (configureBullet ws1 _ config now) _ extra).
  destruct (launch_counts ws1 (ordinal (type config)) i pool1 n
              (fun m => extra (conf m)) ws2 Hp1 Hn)
    as (pool' & Q1 & Q2 & Q3 & Q4).
  - intros t'. unfold ws2. rewrite pools_updateNode.
    unfold configureBullet. fold conf.
    destruct (decide (t' = ordinal (type config))) as [-> | Hne].
    + rewrite pools_updateNode, decide_True by reflexivity.
      rewrite Hp1. cbn [fmap option_fmap option_map]. f_equal.
      clear. revert i. induction pool1 as [| m l IH]; intros [| i];
        try reflexivity.
      cbn [alter list_alter]. f_equal. apply IH.
    + rewrite pools_updateNode. now rewrite decide_False by exact Hne.
  - intros m. rewrite Hextra. unfold conf. cbn [bullet].
    apply setBulletData_active.
  - exists pool'. split; [exact Q1 |]. split; [lia |].
    split; [destruct (Bullet.active (bullet n)); lia |].
    split; [| exact Hpf].
    intros t' Hne. rewrite Q4 by exact Hne. now apply Hother.
Qed.

Lemma updateNode_id ws ref : updateNode ws ref (fun m => m) = ws.
Proof.
  unfold updateNode.
  assert (E : alter (alter (fun m : PoolNode => m) ref.2) ref.1
                (_bulletPools ws) = _bulletPools ws).
  { apply alter_id. intros pool _. apply list_alter_id. reflexivity. }
  rewrite E. now destruct ws.
Qed.

Lemma fireSingleBullet_counts ws config now pool :
  _bulletPools ws !! ordinal (type config) = Some pool ->
  hasPrefab ws (ordinal (type config)) = true ->
  exists pool',
    _bulletPools (fireSingleBullet ws config now) !! ordinal (type config)
    = Some pool'
    /\ (length pool <= length pool')%nat
    /\ activeCount pool' = (activeCount pool + 1)%nat
    /\ (forall t', t' <> ordinal (type config) ->
          _bulletPools (fireSingleBullet ws config now) !! t'
          = _bulletPools ws !! t')
    /\ bulletPrefabs (fireSingleBullet ws config now) = bulletPrefabs ws.
Proof.
  intros Hpool Hpre.
  pose proof (one_shot ws config now (fun m => m) pool Hpool Hpre
                (fun m => eq_refl)) as H.
  cbv zeta in H. unfold fireSingleBullet.
  destruct (getBulletFromPool ws (type config)) as [[ref|] ws1];
    [| exact H].
  now rewrite updateNode_id in H.
Qed.

Lemma volley_counts shots config now : forall ws pool,
  _bulletPools ws !! ordinal (type config) = Some pool ->
  hasPrefab ws (ordinal (type config)) = true ->
  let ws' :=
    fold_left (fun ws (_ : Z) => fireSingleBullet ws config now) shots ws in
  exists pool',
    _bulletPools ws' !! ordinal (type config) = Some pool'
    /\ (length pool <= length pool')%nat
    /\ activeCount pool' = (activeCount pool + length shots)%nat
    /\ (forall t', t' <> ordinal (type config) ->
          _bulletPools ws' !! t' = _bulletPools ws !! t').
Proof.
  induction shots as [| s shots IH]; intros ws pool Hpool Hpre.
  - cbn [fold_left length]. exists pool.
    repeat split; [exact Hpool | lia | lia].
  - cbn [fold_left length].
    destruct (fireSingleBullet_counts ws config now pool Hpool Hpre)
      as (pool1 & P1 & P2 & P3 & P4 & P5).
    destruct (IH (fireSingleBullet ws config now) pool1 P1)
      as (pool' & Q1 & Q2 & Q3 & Q4).
    { unfold hasPrefab in *. now rewrite P5. }
    exists pool'. split; [exact Q1 |]. split; [lia |]. split; [lia |].
    intros t' Hne. rewrite Q4 by exact Hne. now apply P4.
Qed.

(** X30.  When the weapon type of a configuration has a pool and a prefab,
    its fire pattern raises the number of active nodes of that pool by one,
    and the multiple shot by bulletCount (by none when bulletCount <= 0).
    The pool never shrinks and the pools of the other types are left
    alone. *)
Theorem shot_puts_bullets_in_flight ws config now :
  is_Some (_bulletPools ws !! ordinal (type config)) ->
  hasPrefab ws (ordinal (type config)) = true ->
  let t := type config in
  let ws' := executeFirePattern ws config now in
  activeCount (poolOf ws' t) = (activeCount (poolOf ws t) + shots config)%nat
  /\ (length (poolOf ws t) <= length (poolOf ws' t))%nat
  /\ (forall t', t' <> t -> poolOf ws' t' = poolOf ws t').
Proof.
  intros [pool Hpool] Hpre t ws'.
  assert (H : exists pool',
            _bulletPools ws' !! ordinal t = Some pool'
            /\ (length pool <= length pool')%nat
            /\ activeCount pool' = (activeCount pool + shots config)%nat
            /\ (forall t', t' <> ordinal t ->
                  _bulletPools ws' !! t' = _bulletPools ws !! t')).
  { unfold ws', executeFirePattern, shots, t. destruct (type config) eqn:Et;
      rewrite <- Et in *.
    - destruct (fireSingleBullet_counts ws config now pool Hpool Hpre)
        as (pool' & P1 & P2 & P3 & P4 & _).
      now exists pool'.
    - pose proof (one_shot ws config now
        (fun n => mkNode
           (Bullet.with_kind (bullet n) (penetration config)
              (explosionRadius config) (Bullet.isLaser (bullet n))
              (Bullet.weaponType (bullet n)))
           (bulletData n)) pool Hpool Hpre (fun m => eq_refl)) as H.
      cbv zeta in H. unfold fireCannonBullet.
      destruct (getBulletFromPool ws (type config)) as [[ref|] ws1];
        destruct H as (pool' & P1 & P2 & P3 & P4 & _); now exists pool'.
    - destruct (volley_counts (seqZ 0 (bulletCount config)) config now ws pool
                  Hpool Hpre) as (pool' & P1 & P2 & P3 & P4).
      exists pool'. unfold fireMultipleBullets.
      rewrite length_seqZ in P3. now repeat split.
    - pose proof (one_shot ws config now
        (fun n => mkNode
           (Bullet.with_kind (bullet n) (penetration config)
              (Bullet.explosionRadius (bullet n)) true
              (Bullet.weaponType (bullet n)))
           (bulletData n)) pool Hpool Hpre (fun m => eq_refl)) as H.
      cbv zeta in H. unfold fireLaserBullet.
      destruct (getBulletFromPool ws (type config)) as [[ref|] ws1];
        destruct H as (pool' & P1 & P2 & P3 & P4 & _); now exists pool'. }
  destruct H as (pool' & P1 & P2 & P3 & P4).
  unfold poolOf. subst t. rewrite P1, Hpool. cbn [default].
  split; [exact P3 |]. split; [exact P2 |].
  intros t' Hne. rewrite P4; [reflexivity |].
  intros E. apply Hne. now apply ordinal_inj.
Qed.

Lemma shot_puts_bullets_in_flight_witness :
  let config := getCurrentWeaponConfig volley in
  activeCount (poolOf volley BULLET_TYPE_MULTIPLE) = 0%nat
  /\ activeCount
       (poolOf (executeFirePattern volley config 1) BULLET_TYPE_MULTIPLE)
     = 3%nat.
Proof.
  intros config. split; [vm_compute; reflexivity |].
  destruct (shot_puts_bullets_in_flight volley config 1) as (H & _).
  - vm_compute. eexists. reflexivity.
  - vm_compute. reflexivity.
  - exact H.
Defined.

End PoolFacts.
